(** * fireant: the analytical query compiler

    A shallow embedding of [fireant/slicer/queries.py] and of the elements,
    intervals and slicer of [fireant/slicer/schemas.py], together with the
    properties of the compiled query that the specification states and
    further properties of the compiler and of the schemas.

    The compiler builds its query through the [pypika] query builder.  That
    library is not part of the repository; module [Pypika] below models the
    part of its interface the compiler calls: terms as a syntax tree, query
    builder objects as heap-allocated records, with the checks that its
    [select] and [on] make on the tables of the fields they are given,
    [copy.deepcopy] as a copy of the reachable object graph. *)

From Stdlib Require Import QArith Ascii.
From Stdlib Require DecimalString DecimalNat DecimalZ.
From stdpp Require Import base decidable option list strings gmap fin_maps.

Set Warnings "-register-all".
Open Scope string_scope.
Open Scope list_scope.
Open Scope nat_scope.

(** ** Strings *)

(** [str.split(sep)] for a one-character separator: the list of the
    pieces between separators; never empty. *)
Fixpoint split (sep : ascii) (s : string) : list string :=
  match s with
  | EmptyString => [EmptyString]
  | String c s' =>
      if Ascii.eqb c sep then EmptyString :: split sep s'
      else match split sep s' with
           | piece :: pieces => String c piece :: pieces
           | [] => [String c EmptyString]
           end
  end.

(** ['%d' % i] and ['{}'.format(i)] on a natural number. *)
Definition str_of_nat (i : nat) : string :=
  DecimalString.NilEmpty.string_of_uint (Nat.to_uint i).

(** [enumerate(l)]. *)
Definition enumerate {A} (l : list A) : list (nat * A) :=
  imap (λ i x, (i, x)) l.

(** [sep.join(pieces)]. *)
Fixpoint str_join (sep : string) (pieces : list string) : string :=
  match pieces with
  | [] => EmptyString
  | [piece] => piece
  | piece :: pieces => piece +:+ sep +:+ str_join sep pieces
  end.

(** [c in s] for a character [c]. *)
Fixpoint contains (c : ascii) (s : string) : bool :=
  match s with
  | EmptyString => false
  | String a s' => Ascii.eqb a c || contains c s'
  end.

(** ['%d' % z] on an integer. *)
Definition str_of_Z (z : Z) : string :=
  DecimalString.NilEmpty.string_of_int (Z.to_int z).

(** [s.replace(old, new)] for two characters. *)
Fixpoint replace_char (old new : ascii) (s : string) : string :=
  match s with
  | EmptyString => EmptyString
  | String c s' =>
      String (if Ascii.eqb c old then new else c) (replace_char old new s')
  end.

(** [s.isascii()]. *)
Fixpoint isascii (s : string) : bool :=
  match s with
  | EmptyString => true
  | String c s' => (nat_of_ascii c <? 128) && isascii s'
  end.

(** [s.lower()] and [s.capitalize()] on an ASCII string: the letters [a]
    to [z] and [A] to [Z] are mapped, every other character is kept;
    [capitalize] puts the first character in upper case and the others in
    lower case. *)
Definition upper_char (c : ascii) : ascii :=
  let n := nat_of_ascii c in
  if (97 <=? n) && (n <=? 122) then ascii_of_nat (n - 32) else c.

Definition lower_char (c : ascii) : ascii :=
  let n := nat_of_ascii c in
  if (65 <=? n) && (n <=? 90) then ascii_of_nat (n + 32) else c.

Fixpoint lower (s : string) : string :=
  match s with
  | EmptyString => EmptyString
  | String c s' => String (lower_char c) (lower s')
  end.

Definition capitalize (s : string) : string :=
  match s with
  | EmptyString => EmptyString
  | String c s' => String (upper_char c) (lower s')
  end.

(** ** Exceptions *)

(** What a call may raise: the [KeyError] of a dict, the [JoinException]
    of the query builder, the [AttributeError] of a method that an object
    does not have, or the use of a query object that is not on the heap
    (which the compiler never does: see [build_query_runs]). *)
Inductive Exception :=
| KeyError (key : string)
| JoinException
| AttributeError
| Dangling (l : nat).

Inductive Result (A : Type) :=
| Ok (a : A)
| Raise (e : Exception).
Arguments Ok {A} a.
Arguments Raise {A} e.

(** ** The pypika interface *)

Module Pypika.

(** Query objects live on the heap and are referred to by address. *)
Abbreviation Loc := nat (only parsing).

(** What a field can be selected from: a database table, or a query
    object used as a sub-query. *)
Inductive Table :=
| BaseTable (name : string)
| SubQuery (l : Loc).

Inductive Arithmetic := add | sub | mul | div.

Inductive Equality := eq | ne | gt | lt | gte | lte.

(** Terms.  Python's operators on terms build terms: [a - b] is
    [ArithmeticExpression sub a b], [a / b] is
    [ArithmeticExpression div a b], [a == b] is [BasicCriterion eq a b]
    and [a & b] is [ComplexCriterion a b].  The alias attribute of a term
    is the outermost [Alias] node. *)
Inductive Term :=
| Field (name : string) (table : option Table)
| Interval (quarters weeks : Z)
| ValueWrapper (value : Z)
| ArithmeticExpression (operator : Arithmetic) (left right : Term)
| Function (name : string) (args : list Term)
| BasicCriterion (comparator : Equality) (left right : Term)
| ComplexCriterion (left right : Term)
| Alias (alias : string) (term : Term).

(** [term.as_(alias)]: the term with its alias set. *)
Definition as_ (term : Term) (alias : string) : Term :=
  match term with
  | Alias _ t => Alias alias t
  | t => Alias alias t
  end.

Definition alias_of (term : Term) : option string :=
  match term with
  | Alias a _ => Some a
  | _ => None
  end.

(** [term.for_(table)]: the term with every field re-targeted to
    [table].  A field, an arithmetic expression, a function and a
    criterion have the method, which calls it on their parts; a wrapped
    constant and an interval do not have it. *)
Fixpoint for_ (term : Term) (table : Table) : Result Term :=
  match term with
  | Field name _ => Ok (Field name (Some table))
  | Interval _ _ | ValueWrapper _ => Raise AttributeError
  | ArithmeticExpression op l r =>
      match for_ l table with
      | Raise e => Raise e
      | Ok l' =>
          match for_ r table with
          | Raise e => Raise e
          | Ok r' => Ok (ArithmeticExpression op l' r')
          end
      end
  | Function name args =>
      match
        (fix for_each_arg (args : list Term) : Result (list Term) :=
           match args with
           | [] => Ok []
           | arg :: args' =>
               match for_ arg table with
               | Raise e => Raise e
               | Ok arg' =>
                   match for_each_arg args' with
                   | Raise e => Raise e
                   | Ok args'' => Ok (arg' :: args'')
                   end
               end
           end) args
      with
      | Raise e => Raise e
      | Ok args' => Ok (Function name args')
      end
  | BasicCriterion c l r =>
      match for_ l table with
      | Raise e => Raise e
      | Ok l' =>
          match for_ r table with
          | Raise e => Raise e
          | Ok r' => Ok (BasicCriterion c l' r')
          end
      end
  | ComplexCriterion l r =>
      match for_ l table with
      | Raise e => Raise e
      | Ok l' =>
          match for_ r table with
          | Raise e => Raise e
          | Ok r' => Ok (ComplexCriterion l' r')
          end
      end
  | Alias a t =>
      match for_ t table with
      | Raise e => Raise e
      | Ok t' => Ok (Alias a t')
      end
  end.

(** [term.fields()]: the table of every field of the term, [None] for a
    field that is given no table. *)
Fixpoint fields (term : Term) : list (option Table) :=
  match term with
  | Field _ table => [table]
  | Interval _ _ | ValueWrapper _ => []
  | ArithmeticExpression _ l r
  | BasicCriterion _ l r
  | ComplexCriterion l r => fields l ++ fields r
  | Function _ args => flat_map fields args
  | Alias _ t => fields t
  end.

#[export] Instance Table_eq_dec : EqDecision Table.
Proof. solve_decision. Defined.

(** [selectable.field(name)]. *)
Definition field (table : Table) (name : string) : Term :=
  Field name (Some table).

(** A Python reference to a term object: the identity of the object and
    its content.  [a is b] compares identities. *)
Record TermObj := { ident : nat; expr : Term }.

Definition is_ (a b : TermObj) : bool := bool_decide (ident a = ident b).

End Pypika.

Import Pypika.

(** ** Evaluating a term on a row

    The compiled terms are evaluated by the database engine.  Two things
    are the engine's own: what dividing by zero gives, and the calendar
    used to shift a date by quarters.  Dates are day numbers. *)

Inductive Outcome :=
| Val (v : Q)
| Null
| Raised (msg : string).

Record Engine := {
  div_by_zero : Outcome;
  minus_quarters : Z → Q → Q;
}.

Section Eval.
Variable engine : Engine.
(** The value the current row gives to a column or to an opaque
    function application. *)
Variable row : Term → Q.

Definition arith (op : Arithmetic) (x y : Q) : Outcome :=
  match op with
  | add => Val (x + y)
  | sub => Val (x - y)
  | mul => Val (x * y)
  | div => if Qeq_bool y 0 then div_by_zero engine else Val (x / y)
  end.

(** The date [quarters] quarters and [weeks] weeks before [date]. *)
Definition date_minus (quarters weeks : Z) (date : Q) : Q :=
  (if (quarters =? 0)%Z then date else minus_quarters engine quarters date)
  - inject_Z (7 * weeks).

Fixpoint eval (term : Term) : Outcome :=
  match term with
  | Field _ _ | Function _ _ => Val (row term)
  | ValueWrapper v => Val (inject_Z v)
  | ArithmeticExpression sub l (Interval q w) =>
      match eval l with
      | Val d => Val (date_minus q w d)
      | o => o
      end
  | ArithmeticExpression op l r =>
      match eval l, eval r with
      | Val x, Val y => arith op x y
      | Val _, o => o
      | o, _ => o
      end
  | Alias _ t => eval t
  | Interval _ _ | BasicCriterion _ _ _ | ComplexCriterion _ _ =>
      Raised "not a number"
  end.

Definition compare (c : Equality) (x y : Q) : bool :=
  match c with
  | eq => Qeq_bool x y
  | ne => negb (Qeq_bool x y)
  | gt => negb (Qle_bool x y)
  | lt => negb (Qle_bool y x)
  | gte => Qle_bool y x
  | lte => Qle_bool x y
  end.

(** Whether a criterion holds on the row; [None] when it has no truth
    value (a null or failing operand). *)
Fixpoint holds (criterion : Term) : option bool :=
  match criterion with
  | BasicCriterion c l r =>
      match eval l, eval r with
      | Val x, Val y => Some (compare c x y)
      | _, _ => None
      end
  | ComplexCriterion l r =>
      match holds l, holds r with
      | Some a, Some b => Some (a && b)
      | _, _ => None
      end
  | Alias _ t => holds t
  | _ => None
  end.
End Eval.

(** ** fireant/slicer/schemas.py *)

Module Schemas.

(** [UniqueDimension]: the attributes [schemas] reads ([key],
    [definition], [id_fields]) and [label_field].  [id_fields] defaults to
    [None]. *)
Record UniqueDimension := {
  key : string;
  definition : Term;
  label_field : option Term;
  id_fields : option (list Term);
}.

(** [UniqueDimension.__init__], through [Dimension.__init__]:
    [definition or Field(key) or ...] with [definition=label_field]. *)
Definition UniqueDimension__init__ (key : string)
    (label_field : option Term) (id_fields : option (list Term))
    : UniqueDimension :=
  {| key := key;
     definition := default (Field key None) label_field;
     label_field := label_field;
     id_fields := id_fields |}.

(** [UniqueDimension.schemas]; [None] is the [TypeError] of
    [enumerate(None)]. *)
Definition schemas (self : UniqueDimension) : option (list (string * Term)) :=
  match id_fields self with
  | None => None
  | Some fields =>
      let id_field_schemas :=
        map (λ '(i, id_field), (key self +:+ "_id" +:+ str_of_nat i, id_field))
            (enumerate fields) in
      Some (id_field_schemas ++ [(key self +:+ "_label", definition self)])
  end.

End Schemas.

(** ** fireant/slicer/schemas.py: elements, intervals and the slicer *)

Module Elements.

(** [x or y] where [x] is a term or [None]: a term is true. *)
Definition or_term (x : option Term) (y : Term) : Term := default y x.

Section Elements.
(** The [joins] of an element and of a slicer are stored as they are
    given. *)
Context {Joins : Type}.

Record SlicerElement := {
  key : string;
  label : string;
  definition : option Term;
  joins : option Joins;
}.

(** [SlicerElement.__init__]; [label or ...] takes the default for
    [None] and for the empty string. *)
Definition SlicerElement__init__ (key : string) (label : option string)
    (definition : option Term) (joins : option Joins) : SlicerElement :=
  {| key := key;
     label := match label with
              | Some (String c l) => String c l
              | _ => str_join " " (split "_" (capitalize key))
              end;
     definition := definition;
     joins := joins |}.

(** [fn.Sum(Field(key))] is [Function "SUM" [Field key None]]. *)
Definition Metric__init__ (key : string) (label : option string)
    (definition : option Term) (joins : option Joins) : SlicerElement :=
  SlicerElement__init__ key label
    (Some (or_term definition (Function "SUM" [Field key None]))) joins.

Definition Dimension__init__ (key : string) (label : option string)
    (definition : option Term) (joins : option Joins) : SlicerElement :=
  SlicerElement__init__ key label
    (Some (or_term (Some (or_term definition (Field key None)))
                   (Function "SUM" [Field key None])))
    joins.
End Elements.

(** [NumericInterval], of integers. *)
Record NumericInterval := { size : Z; offset : Z }.

Record DatetimeInterval := { datetime_size : string }.

(** What an interval is compared with: an interval of either class, or an
    object of another class. *)
Inductive Object :=
| ONumeric (interval : NumericInterval)
| ODatetime (interval : DatetimeInterval)
| OOther.

Definition NumericInterval__eq__ (self : NumericInterval) (other : Object)
    : bool :=
  match other with
  | ONumeric other =>
      bool_decide (size self = size other)
      && bool_decide (offset self = offset other)
  | _ => false
  end.

(** [__hash__] is Python's [hash] of this text. *)
Definition NumericInterval_hashed (self : NumericInterval) : string :=
  "NumericInterval " +:+ str_of_Z (size self) +:+ " "
  +:+ str_of_Z (offset self).

Definition NumericInterval__hash__ (hash : string → Z)
    (self : NumericInterval) : Z :=
  hash (NumericInterval_hashed self).

Definition NumericInterval__str__ (self : NumericInterval) : string :=
  "NumericInterval(size=" +:+ str_of_Z (size self) +:+ ",offset="
  +:+ str_of_Z (offset self) +:+ ")".

(** [{element.key: element for element in elements}]: a later element
    takes the place of an earlier one of the same key. *)
Definition by_key {Element} (key : Element → string)
    (elements : list Element) : gmap string Element :=
  foldl (λ d element, <[key element := element]> d) ∅ elements.

Section Slicer.
Context {Joins Metric Dimension : Type}.
Variable metric_key : Metric → string.
Variable dimension_key : Dimension → string.

(** [Slicer]; its [manager] is an object of [fireant.slicer.managers]
    and is left out. *)
Record Slicer := {
  slicer_table : Table;
  slicer_joins : Joins;
  slicer_metrics : gmap string Metric;
  slicer_dimensions : gmap string Dimension;
}.

Definition Slicer__init__ (table : Table) (joins : Joins)
    (metrics : list Metric) (dimensions : list Dimension) : Slicer :=
  {| slicer_table := table;
     slicer_joins := joins;
     slicer_metrics := by_key metric_key metrics;
     slicer_dimensions := by_key dimension_key dimensions |}.
End Slicer.

End Elements.

(** ** fireant/slicer/queries.py: the reference resolver *)

(** The two dicts of the source.  [Interval(weeks=w)] is [Interval 0 w]
    and [Interval(quarters=q)] is [Interval q 0]. *)
Definition reference_criterion : gmap string (Term → Term → Term) :=
  list_to_map [
    ("yoy", λ key join_key,
       BasicCriterion eq key (ArithmeticExpression sub join_key (Interval 0 52)));
    ("qoq", λ key join_key,
       BasicCriterion eq key (ArithmeticExpression sub join_key (Interval 1 0)));
    ("mom", λ key join_key,
       BasicCriterion eq key (ArithmeticExpression sub join_key (Interval 0 4)));
    ("wow", λ key join_key,
       BasicCriterion eq key (ArithmeticExpression sub join_key (Interval 0 1)))
  ].

Definition reference_field : gmap string (Term → Term → Term) :=
  list_to_map [
    ("d", λ field join_field, ArithmeticExpression sub field join_field);
    ("p", λ field join_field,
       ArithmeticExpression div (ArithmeticExpression sub field join_field)
                            join_field)
  ].

(** [d[key]] on a dict. *)
Definition getitem {V} (d : gmap string V) (key : string) : Result V :=
  match d !! key with
  | Some v => Ok v
  | None => Raise (KeyError key)
  end.

(** [reference_key.split('_')] has a first piece always: the first case
    below is never taken. *)
Definition _get_reference_mappers (reference_key : string)
    : Result ((Term → Term → Term) * (Term → Term → Term)) :=
  match split "_" reference_key with
  | [] => Raise (KeyError reference_key)
  | reference_key :: optional_parts =>
      match getitem reference_criterion reference_key with
      | Raise e => Raise e
      | Ok criterion_f =>
          match optional_parts with
          | part :: _ =>
              match getitem reference_field part with
              | Raise e => Raise e
              | Ok field_f => Ok (criterion_f, field_f)
              end
          | [] => Ok (criterion_f, λ field join_field, join_field)
          end
      end
  end.

(** ** Query builder objects and the heap *)

Inductive JoinType := inner | left_join | right_join | outer_join.

Record Join := {
  join_item : Table;
  join_how : JoinType;
  join_on : Term;
}.

(** The state of a pypika query builder.  [where] and [having] keep one
    criterion, and-composed. *)
Record QueryBuilder := {
  _from : Table;
  _joins : list Join;
  _selects : list Term;
  _groupbys : list Term;
  _orderbys : list Term;
  _wheres : option Term;
  _havings : option Term;
}.

Record Heap := {
  objects : gmap Loc QueryBuilder;
  next : Loc;
}.

Definition empty_heap : Heap := {| objects := ∅; next := 0 |}.

(** Computations on the heap that may raise. *)
Definition M (A : Type) : Type := Heap → Result (A * Heap).

#[export] Instance M_ret : MRet M := λ A a h, Ok (a, h).
#[export] Instance M_bind : MBind M := λ A B k c h,
  match c h with
  | Ok (a, h') => k a h'
  | Raise e => Raise e
  end.

Definition lift {A} (r : Result A) : M A := λ h,
  match r with
  | Ok a => Ok (a, h)
  | Raise e => Raise e
  end.

Definition read (q : Loc) : M QueryBuilder := λ h,
  match objects h !! q with
  | Some o => Ok (o, h)
  | None => Raise (Dangling q)
  end.

(** A [for] loop that rebinds [query] in its body. *)
Fixpoint for_each {A} (xs : list A) (query : Loc) (body : Loc → A → M Loc)
    : M Loc :=
  match xs with
  | [] => mret query
  | x :: xs' => query ← body query x; for_each xs' query body
  end.

(** *** The query objects a term mentions, and moving them *)

Definition table_locs (t : Table) : list Loc :=
  match t with
  | BaseTable _ => []
  | SubQuery l => [l]
  end.

Fixpoint term_locs (t : Term) : list Loc :=
  match t with
  | Field _ table => from_option table_locs [] table
  | Interval _ _ | ValueWrapper _ => []
  | ArithmeticExpression _ l r
  | BasicCriterion _ l r
  | ComplexCriterion l r => term_locs l ++ term_locs r
  | Function _ args => flat_map term_locs args
  | Alias _ t => term_locs t
  end.

Definition join_locs (j : Join) : list Loc :=
  table_locs (join_item j) ++ term_locs (join_on j).

Definition query_locs (o : QueryBuilder) : list Loc :=
  table_locs (_from o) ++ flat_map join_locs (_joins o)
  ++ flat_map term_locs
       (_selects o ++ _groupbys o ++ _orderbys o
        ++ option_list (_wheres o) ++ option_list (_havings o)).

Definition shift_table (n : nat) (t : Table) : Table :=
  match t with
  | BaseTable name => BaseTable name
  | SubQuery l => SubQuery (l + n)
  end.

Fixpoint shift_term (n : nat) (t : Term) : Term :=
  match t with
  | Field name table => Field name (shift_table n <$> table)
  | Interval q w => Interval q w
  | ValueWrapper v => ValueWrapper v
  | ArithmeticExpression op l r =>
      ArithmeticExpression op (shift_term n l) (shift_term n r)
  | Function name args => Function name (map (shift_term n) args)
  | BasicCriterion c l r => BasicCriterion c (shift_term n l) (shift_term n r)
  | ComplexCriterion l r => ComplexCriterion (shift_term n l) (shift_term n r)
  | Alias a t => Alias a (shift_term n t)
  end.

Definition shift_join (n : nat) (j : Join) : Join :=
  {| join_item := shift_table n (join_item j);
     join_how := join_how j;
     join_on := shift_term n (join_on j) |}.

Definition shift_query (n : nat) (o : QueryBuilder) : QueryBuilder :=
  {| _from := shift_table n (_from o);
     _joins := shift_join n <$> _joins o;
     _selects := shift_term n <$> _selects o;
     _groupbys := shift_term n <$> _groupbys o;
     _orderbys := shift_term n <$> _orderbys o;
     _wheres := shift_term n <$> _wheres o;
     _havings := shift_term n <$> _havings o |}.

(** *** [copy.deepcopy]

    The objects reachable from [q] are copied, each to the address of the
    original plus [next]; the references inside the copies are moved the
    same way, so that the copy is isomorphic to the original and shares
    no query object with it. *)

Definition successors (objs : gmap Loc QueryBuilder) (a : Loc) : list Loc :=
  from_option query_locs [] (objs !! a).

Fixpoint reach (rounds : nat) (objs : gmap Loc QueryBuilder) (seen : gset Loc)
    : gset Loc :=
  match rounds with
  | 0 => seen
  | S k => reach k objs (seen ∪ list_to_set (elements seen ≫= successors objs))
  end.

Definition deepcopy (q : Loc) : M Loc := λ h,
  match objects h !! q with
  | None => Raise (Dangling q)
  | Some _ =>
      let n := next h in
      let reached := reach n (objects h) {[q]} in
      let copies :=
        kmap (λ a, a + n)
             (shift_query n <$> filter (λ ao, ao.1 ∈ reached) (objects h)) in
      Ok (q + n, {| objects := objects h ∪ copies; next := n + n |})
  end.

(** *** Builder methods

    A builder method of pypika returns the query it was called on with the
    change applied.  Depending on the version of the library that is either
    the receiver itself, changed in place ([in_place = true]), or a changed
    copy of the receiver that shares the receiver's sub-objects.  The
    compiler is modelled for both. *)

Section Compiler.
Variable in_place : bool.

Definition builder (change : QueryBuilder → QueryBuilder) (q : Loc) : M Loc :=
  λ h,
  match objects h !! q with
  | None => Raise (Dangling q)
  | Some o =>
      if in_place
      then Ok (q, {| objects := <[q := change o]> (objects h);
                     next := next h |})
      else Ok (next h, {| objects := <[next h := change o]> (objects h);
                          next := S (next h) |})
  end.

(** [Query.from_(table)]: a new query object. *)
Definition from_ (table : Table) : M Loc := λ h,
  Ok (next h,
      {| objects :=
           <[next h := {| _from := table; _joins := []; _selects := [];
                          _groupbys := []; _orderbys := [];
                          _wheres := None; _havings := None |}]> (objects h);
         next := S (next h) |}).

Definition add_join (j : Join) (o : QueryBuilder) : QueryBuilder :=
  {| _from := _from o; _joins := _joins o ++ [j]; _selects := _selects o;
     _groupbys := _groupbys o; _orderbys := _orderbys o; _wheres := _wheres o;
     _havings := _havings o |}.

Definition add_selects (terms : list Term) (o : QueryBuilder) : QueryBuilder :=
  {| _from := _from o; _joins := _joins o; _selects := _selects o ++ terms;
     _groupbys := _groupbys o; _orderbys := _orderbys o; _wheres := _wheres o;
     _havings := _havings o |}.

Definition add_groupbys (terms : list Term) (o : QueryBuilder) : QueryBuilder :=
  {| _from := _from o; _joins := _joins o; _selects := _selects o;
     _groupbys := _groupbys o ++ terms; _orderbys := _orderbys o; _wheres := _wheres o;
     _havings := _havings o |}.

(** [Rollup] of terms is the function [ROLLUP] of the terms. *)
Definition Rollup (terms : list Term) : Term := Function "ROLLUP" terms.

Definition add_rollup (terms : list Term) (o : QueryBuilder) : QueryBuilder :=
  {| _from := _from o; _joins := _joins o; _selects := _selects o;
     _groupbys := _groupbys o ++ [Rollup terms];
     _orderbys := _orderbys o; _wheres := _wheres o;
     _havings := _havings o |}.

Definition add_orderbys (terms : list Term) (o : QueryBuilder) : QueryBuilder :=
  {| _from := _from o; _joins := _joins o; _selects := _selects o;
     _groupbys := _groupbys o;
     _orderbys := _orderbys o ++ terms; _wheres := _wheres o;
     _havings := _havings o |}.

(** [criterion] and-composed onto what is there. *)
Definition and_onto (current : option Term) (criterion : Term) : option Term :=
  match current with
  | Some c => Some (ComplexCriterion c criterion)
  | None => Some criterion
  end.

Definition add_where (criterion : Term) (o : QueryBuilder) : QueryBuilder :=
  {| _from := _from o; _joins := _joins o; _selects := _selects o;
     _groupbys := _groupbys o; _orderbys := _orderbys o; _wheres := and_onto (_wheres o) criterion;
     _havings := _havings o |}.

Definition add_having (criterion : Term) (o : QueryBuilder) : QueryBuilder :=
  {| _from := _from o; _joins := _joins o; _selects := _selects o;
     _groupbys := _groupbys o; _orderbys := _orderbys o; _wheres := _wheres o;
     _havings := and_onto (_havings o) criterion |}.

(** The tables of a query: the one it selects from and the ones it
    joins. *)
Definition available (o : QueryBuilder) : list Table :=
  _from o :: (join_item <$> _joins o).

(** The check of [select]: every field of the term that is given a table
    is of a table of the query. *)
Definition known (tables : list Table) (term : Term) : bool :=
  forallb (λ table : option Table,
             match table with
             | None => true
             | Some t => bool_decide (t ∈ tables)
             end)
          (fields term).

(** The check of [on]: every field of the criterion is of a table of the
    query or of the joined item. *)
Definition qualified (tables : list Table) (term : Term) : bool :=
  forallb (λ table : option Table,
             match table with
             | None => false
             | Some t => bool_decide (t ∈ tables)
             end)
          (fields term).

(** A builder method that checks its arguments against the query it is
    called on, and raises [JoinException] when the check fails. *)
Definition checked (valid : QueryBuilder → bool)
    (change : QueryBuilder → QueryBuilder) (q : Loc) : M Loc := λ h,
  match objects h !! q with
  | None => Raise (Dangling q)
  | Some o => if valid o then builder change q h else Raise JoinException
  end.

(** [query.join(item, how=how)] gives a joiner, whose [on(criterion)]
    gives the query with the join added. *)
Definition join (query : Loc) (item : Table) (how : JoinType)
    : Loc * Table * JoinType := (query, item, how).

Definition on (joiner : Loc * Table * JoinType) (criterion : Term) : M Loc :=
  let '(query, item, how) := joiner in
  checked (λ o, qualified (item :: available o) criterion)
          (add_join {| join_item := item; join_how := how;
                       join_on := criterion |}) query.

Definition select (query : Loc) (terms : list Term) : M Loc :=
  checked (λ o, forallb (known (available o)) terms)
          (add_selects terms) query.
Definition groupby (query : Loc) (terms : list Term) : M Loc :=
  builder (add_groupbys terms) query.
(** [query.rollup] of terms: one [ROLLUP] term at the end of the
    group-by list. *)
Definition rollup_ (query : Loc) (terms : list Term) : M Loc :=
  builder (add_rollup terms) query.
Definition orderby (query : Loc) (terms : list Term) : M Loc :=
  builder (add_orderbys terms) query.
Definition where_ (query : Loc) (criterion : Term) : M Loc :=
  builder (add_where criterion) query.
Definition having (query : Loc) (criterion : Term) : M Loc :=
  builder (add_having criterion) query.

(** The name a term goes by in [select_aliases] and [groupby_aliases]:
    its alias, or without one the text of the term. *)
Inductive Name :=
| Aliased (alias : string)
| Text (term : Term).

Definition name_of (term : Term) : Name :=
  match alias_of term with
  | Some (String c alias) => Aliased (String c alias)
  | _ => Text term
  end.

Definition select_aliases (o : QueryBuilder) : list Name :=
  name_of <$> _selects o.
Definition groupby_aliases (o : QueryBuilder) : list Name :=
  name_of <$> _groupbys o.

(** ** fireant/slicer/queries.py: the compiler *)

(** An [OrderedDict] with string keys, in insertion order. *)
Definition odict (V : Type) : Type := list (string * V).

Fixpoint odict_get {V} (d : odict V) (key : string) : Result V :=
  match d with
  | [] => Raise (KeyError key)
  | (k, v) :: d' => if bool_decide (k = key) then Ok v else odict_get d' key
  end.

Definition _build_reference_join_criterion (query : Loc)
    (dimensions : odict TermObj) (criterion_f : Term → Term → Term)
    (dimension_key : string) : Result Term :=
  match odict_get dimensions dimension_key with
  | Raise e => Raise e
  | Ok compared_dimension =>
      let cx := criterion_f (expr compared_dimension)
                            (field (SubQuery query) dimension_key) in
      foldl (λ cx dimension,
               match cx with
               | Raise e => Raise e
               | Ok cx =>
                   if negb (is_ dimension compared_dimension)
                   then match for_ (expr dimension) (SubQuery query) with
                        | Raise e => Raise e
                        | Ok joined =>
                            Ok (ComplexCriterion cx
                                  (BasicCriterion eq (expr dimension) joined))
                        end
                   else Ok cx
               end)
            (Ok cx) (dimensions.*2)
  end.

(** The body of the loop over [references]: one comparison. *)
Definition add_comparison (metrics : odict Term) (dimensions : odict TermObj)
    (query : Loc) (reference : string * string) : M Loc :=
  let '(reference_key, dimension_key) := reference in
  '(criterion_f, field_f) ← lift (_get_reference_mappers reference_key);
  reference_query ← deepcopy query;
  cx ← lift (_build_reference_join_criterion reference_query dimensions
               criterion_f dimension_key);
  query ← on (join query (SubQuery reference_query) inner) cx;
  (* Select all of the comparison dimensions *)
  query ← match dimensions with
          | [] => mret query
          | _ =>
              select query
                (map (λ '(key, dimension),
                        as_ (field (SubQuery reference_query) key)
                            (key +:+ "_" +:+ reference_key))
                     dimensions)
          end;
  (* Select all of the comparison metrics *)
  select query
    (map (λ '(key, metric),
            as_ (field_f metric (field (SubQuery reference_query) key))
                (key +:+ "_" +:+ reference_key))
         metrics).

Definition _build_query (table : Table) (joins : list (Table * Term * JoinType))
    (metrics : odict Term) (dimensions : odict TermObj)
    (mfilters dfilters : list Term) (references : odict string)
    (rollup : list string) : M Loc :=
  (* Initialize query *)
  query ← from_ table;
  (* Add join tables *)
  query ← for_each joins query
            (λ query '(join_table, criterion, join_type),
               on (join query join_table join_type) criterion);
  (* Select dimensions *)
  let dx := map (λ '(key, dimension), as_ (expr dimension) key)
                (filter (λ kd, kd.1 ∉ rollup) dimensions) in
  let rx := map (λ '(key, dimension), as_ (expr dimension) key)
                (filter (λ kd, kd.1 ∈ rollup) dimensions) in
  query ← match dx with
          | [] => mret query
          | _ => query ← select query dx; groupby query dx
          end;
  query ← match rx with
          | [] => mret query
          | _ => query ← select query rx; rollup_ query rx
          end;
  (* Select metrics *)
  let mx := map (λ '(key, metric), as_ metric key) metrics in
  query ← select query mx;
  (* Add comparisons *)
  query ← for_each references query (add_comparison metrics dimensions);
  (* Add ordering *)
  query ← match dx with
          | [] => mret query
          | _ => orderby query dx
          end;
  query ← match rx with
          | [] => mret query
          | _ => orderby query rx
          end;
  (* Add filters *)
  query ← match dfilters with
          | [] => mret query
          | _ => for_each dfilters query where_
          end;
  query ← match mfilters with
          | [] => mret query
          | _ => for_each mfilters query having
          end;
  mret query.

(** What [_query_data] hands to [settings.database.fetch_dataframe]: the
    compiled query (whose text is sent), the column names and the index
    names. *)
Record Fetch := {
  fetch_query : Loc;
  fetch_columns : list Name;
  fetch_index : list Name;
}.

(** [x or dict()] on an optional parameter. *)
Definition or_dict {A} (x : option (list A)) : list A := default [] x.

Definition _query_data (table : Table)
    (joins : option (list (Table * Term * JoinType)))
    (metrics : option (odict Term)) (dimensions : option (odict TermObj))
    (mfilters dfilters : option (list Term))
    (references : option (odict string)) (rollup : option (list string))
    : M Fetch :=
  query ← _build_query table (or_dict joins) (or_dict metrics)
            (or_dict dimensions) (or_dict mfilters) (or_dict dfilters)
            (or_dict references) (or_dict rollup);
  o ← read query;
  let df_idx := groupby_aliases o in
  let df_cols := select_aliases o in
  mret {| fetch_query := query; fetch_columns := df_cols;
          fetch_index := df_idx |}.

End Compiler.
(** * Properties *)

(** ** Expansion of a unique dimension *)

Section UniqueDimensionSchemas.
Import Schemas.

Lemma enumerate_lookup {A} (l : list A) (i : nat) (x : A) :
  l !! i = Some x → enumerate l !! i = Some (i, x).
Proof.
  intros Hi. unfold enumerate. rewrite list_lookup_imap, Hi. reflexivity.
Qed.

Lemma enumerate_length {A} (l : list A) : length (enumerate l) = length l.
Proof. unfold enumerate. apply length_imap. Qed.

(** C9: a unique dimension with [k] id fields expands to [k + 1] pairs:
    the pair at position [i < k] is [({key}_id{ordinal}, i-th id field)],
    the ordinal being the decimal numeral of [i], and the last pair is
    [({key}_label, label field)], or [({key}_label, field of the key)]
    for a dimension that is given no label field. *)
Theorem unique_dimension_schemas (key : string) (label_field : option Term)
    (fields : list Term) :
  ∃ pairs,
    schemas (UniqueDimension__init__ key label_field (Some fields))
      = Some pairs
    ∧ length pairs = S (length fields)
    ∧ (∀ i id_field, fields !! i = Some id_field →
         ∃ ordinal,
           pairs !! i = Some (key +:+ "_id" +:+ ordinal, id_field)
           ∧ DecimalString.NilEmpty.uint_of_string ordinal
             = Some (Nat.to_uint i))
    ∧ pairs !! length fields
      = Some (key +:+ "_label",
              match label_field with
              | Some label => label
              | None => Field key None
              end).
Proof.
  eexists. split; [reflexivity|]. cbn.
  repeat split.
  - rewrite length_app, length_map, enumerate_length. cbn. lia.
  - intros i id_field Hi. exists (str_of_nat i). split.
    + rewrite lookup_app_l
        by (rewrite length_map, enumerate_length; eapply lookup_lt_Some, Hi).
      rewrite list_lookup_fmap, (enumerate_lookup _ _ _ Hi). reflexivity.
    + apply DecimalString.NilEmpty.usu.
  - rewrite lookup_app_r
      by (rewrite length_map, enumerate_length; lia).
    rewrite length_map, enumerate_length, Nat.sub_diag.
    destruct label_field; reflexivity.
Qed.

(** C9 on a dimension with two id fields and a label field, and on one
    with one id field and no label field. *)
Lemma unique_dimension_schemas_witness :
  (∃ pairs,
     schemas (UniqueDimension__init__ "account" (Some (Field "name" None))
                (Some [Field "id" None; Field "region" None]))
       = Some pairs
     ∧ length pairs = 3
     ∧ pairs !! 0 = Some ("account_id0", Field "id" None)
     ∧ pairs !! 1 = Some ("account_id1", Field "region" None)
     ∧ pairs !! 2 = Some ("account_label", Field "name" None))
  ∧ (∃ pairs,
       schemas (UniqueDimension__init__ "account" None
                  (Some [Field "id" None]))
         = Some pairs
       ∧ length pairs = 2
       ∧ pairs !! 0 = Some ("account_id0", Field "id" None)
       ∧ pairs !! 1 = Some ("account_label", Field "account" None)).
Proof.
  split.
  - destruct (unique_dimension_schemas "account" (Some (Field "name" None))
                [Field "id" None; Field "region" None])
      as (pairs & Hschemas & Hlength & Hids & Hlabel).
    exists pairs. split; [exact Hschemas|]. split; [exact Hlength|].
    destruct (Hids 0 _ eq_refl) as (ordinal0 & Hid0 & Hordinal0).
    destruct (Hids 1 _ eq_refl) as (ordinal1 & Hid1 & Hordinal1).
    apply DecimalString.NilEmpty.sus in Hordinal0, Hordinal1.
    subst ordinal0 ordinal1.
    split; [exact Hid0|]. split; [exact Hid1|exact Hlabel].
  - destruct (unique_dimension_schemas "account" None [Field "id" None])
      as (pairs & Hschemas & Hlength & Hids & Hlabel).
    exists pairs. split; [exact Hschemas|]. split; [exact Hlength|].
    destruct (Hids 0 _ eq_refl) as (ordinal0 & Hid0 & Hordinal0).
    apply DecimalString.NilEmpty.sus in Hordinal0. subst ordinal0.
    split; [exact Hid0|exact Hlabel].
Defined.
End UniqueDimensionSchemas.

(** ** The reference resolver *)

Lemma getitem_Some {V} (d : gmap string V) (key : string) (v : V) :
  d !! key = Some v → getitem d key = Ok v.
Proof. intros H. unfold getitem. rewrite H. reflexivity. Qed.

Lemma mappers_without_modifier reference_key prefix criterion_f :
  split "_" reference_key = [prefix] →
  reference_criterion !! prefix = Some criterion_f →
  _get_reference_mappers reference_key
  = Ok (criterion_f, λ field join_field, join_field).
Proof.
  intros Hsplit Hcrit. unfold _get_reference_mappers.
  rewrite Hsplit, (getitem_Some _ _ _ Hcrit). reflexivity.
Qed.

Lemma mappers_with_modifier reference_key prefix modifier rest criterion_f
    field_f :
  split "_" reference_key = prefix :: modifier :: rest →
  reference_criterion !! prefix = Some criterion_f →
  reference_field !! modifier = Some field_f →
  _get_reference_mappers reference_key = Ok (criterion_f, field_f).
Proof.
  intros Hsplit Hcrit Hfield. unfold _get_reference_mappers.
  rewrite Hsplit, (getitem_Some _ _ _ Hcrit), (getitem_Some _ _ _ Hfield).
  reflexivity.
Qed.

(** C3: the field function of a reference key is chosen by the part after
    the first underscore: with none it returns the joined value unchanged,
    with [d] the current value minus the joined one, with [p] that
    difference divided by the joined value. *)
Theorem reference_field_by_suffix (reference_key prefix : string)
    (parts : list string) (criterion_f : Term → Term → Term) :
  split "_" reference_key = prefix :: parts →
  reference_criterion !! prefix = Some criterion_f →
  (parts = [] →
     ∃ field_f,
       _get_reference_mappers reference_key = Ok (criterion_f, field_f)
       ∧ ∀ current joined, field_f current joined = joined)
  ∧ (head parts = Some "d" →
     ∃ field_f,
       _get_reference_mappers reference_key = Ok (criterion_f, field_f)
       ∧ ∀ current joined,
           field_f current joined = ArithmeticExpression sub current joined)
  ∧ (head parts = Some "p" →
     ∃ field_f,
       _get_reference_mappers reference_key = Ok (criterion_f, field_f)
       ∧ ∀ current joined,
           field_f current joined =
             ArithmeticExpression div
               (ArithmeticExpression sub current joined) joined).
Proof.
  intros Hsplit Hcrit. split; [|split].
  - intros ->. exists (λ field join_field, join_field).
    split; [|reflexivity].
    exact (mappers_without_modifier _ _ _ Hsplit Hcrit).
  - destruct parts as [|modifier rest]; [discriminate|].
    intros [= ->].
    exists (λ field join_field, ArithmeticExpression sub field join_field).
    split; [|reflexivity].
    exact (mappers_with_modifier _ _ _ _ _ _ Hsplit Hcrit eq_refl).
  - destruct parts as [|modifier rest]; [discriminate|].
    intros [= ->].
    exists (λ field join_field,
              ArithmeticExpression div
                (ArithmeticExpression sub field join_field) join_field).
    split; [|reflexivity].
    exact (mappers_with_modifier _ _ _ _ _ _ Hsplit Hcrit eq_refl).
Qed.

(** C3 on the keys [yoy], [wow_d] and [mom_p]. *)
Lemma reference_field_by_suffix_witness :
  (∃ field_f,
     _get_reference_mappers "yoy" = Ok
       (λ key join_key,
          BasicCriterion eq key
            (ArithmeticExpression sub join_key (Interval 0 52)), field_f)
     ∧ ∀ current joined, field_f current joined = joined)
  ∧ (∃ field_f,
     _get_reference_mappers "wow_d" = Ok
       (λ key join_key,
          BasicCriterion eq key
            (ArithmeticExpression sub join_key (Interval 0 1)), field_f)
     ∧ ∀ current joined,
         field_f current joined = ArithmeticExpression sub current joined)
  ∧ (∃ field_f,
     _get_reference_mappers "mom_p" = Ok
       (λ key join_key,
          BasicCriterion eq key
            (ArithmeticExpression sub join_key (Interval 0 4)), field_f)
     ∧ ∀ current joined,
         field_f current joined =
           ArithmeticExpression div
             (ArithmeticExpression sub current joined) joined).
Proof.
  split; [|split].
  - exact (proj1 (reference_field_by_suffix "yoy" "yoy" [] _
                    eq_refl eq_refl) eq_refl).
  - exact (proj1 (proj2 (reference_field_by_suffix "wow_d" "wow" ["d"] _
                           eq_refl eq_refl)) eq_refl).
  - exact (proj2 (proj2 (reference_field_by_suffix "mom_p" "mom" ["p"] _
                           eq_refl eq_refl)) eq_refl).
Defined.

(** ** The join criterion of a reference *)

(** The row seen by a join criterion: the columns of the sub-query carry
    the date [joined], everything else the date [current]. *)
Definition joined_rows (current joined : Z) (term : Term) : Q :=
  match term with
  | Field _ (Some (SubQuery _)) => inject_Z joined
  | _ => inject_Z current
  end.

(** C1: the criterion compiled for [wow] on a dimension [d] is
    [d == sub_query.d - 1 week]: it holds on the rows where the
    sub-query's date is one week after the outer date, not one week
    before it. *)
Theorem wow_criterion_joins_following_week (engine : Engine)
    (d : nat) (sub_query : Loc) (current joined : Z) :
  ∃ criterion_f field_f cx,
    _get_reference_mappers "wow" = Ok (criterion_f, field_f)
    ∧ _build_reference_join_criterion sub_query
        [("d", {| ident := d; expr := Field "d" None |})] criterion_f "d"
      = Ok cx
    ∧ cx = BasicCriterion eq (Field "d" None)
             (ArithmeticExpression sub (Field "d" (Some (SubQuery sub_query)))
                (Interval 0 1))
    ∧ holds engine (joined_rows current joined) cx
      = Some (bool_decide (joined = current + 7)%Z).
Proof.
  eexists _, _, (BasicCriterion eq (Field "d" None)
                   (ArithmeticExpression sub
                      (Field "d" (Some (SubQuery sub_query))) (Interval 0 1))).
  split; [reflexivity|].
  split.
  { unfold _build_reference_join_criterion, is_. cbn.
    repeat case_bool_decide; cbn in *; first [reflexivity | congruence]. }
  split; [reflexivity|].
  cbn. unfold date_minus. cbn. f_equal. unfold Qminus.
  rewrite <- inject_Z_opp, <- inject_Z_plus.
  apply eq_true_iff_eq. rewrite Qeq_bool_iff, bool_decide_eq_true.
  rewrite inject_Z_injective. lia.
Qed.

(** ** The percentage of a reference *)

(** An engine that fails on a division by zero; its calendar counts a
    quarter as thirteen weeks. *)
Definition strict_engine : Engine :=
  {| div_by_zero := Raised "division by zero";
     minus_quarters := λ quarters date,
                         (date - inject_Z (91 * quarters))%Q |}.

(** C4 as the specification states it: where the joined value is zero the
    percentage is one fixed value that is not a failure. *)
Definition percentage_has_sentinel : Prop :=
  ∃ sentinel : Outcome,
    (∀ msg, sentinel ≠ Raised msg)
    ∧ ∀ engine row criterion_f field_f current joined c,
        _get_reference_mappers "wow_p" = Ok (criterion_f, field_f) →
        eval engine row current = Val c →
        eval engine row joined = Val 0 →
        eval engine row (field_f current joined) = sentinel.

(** C4 fails on an engine that fails on a division by zero: five clicks
    now, none in the joined period. *)
Lemma percentage_has_no_sentinel : ¬ percentage_has_sentinel.
Proof.
  intros (sentinel & Hdefined & Hclaim).
  specialize (Hclaim strict_engine (λ t, match t with
                                         | Field "clicks" None => 5%Q
                                         | _ => 0%Q
                                         end)
                _ _ (Field "clicks" None)
                (Field "clicks" (Some (SubQuery 1))) 5%Q
                eq_refl eq_refl eq_refl).
  cbn in Hclaim. eapply Hdefined. symmetry. exact Hclaim.
Qed.

Lemma eval_difference engine row current joined c z :
  eval engine row current = Val c →
  eval engine row joined = Val z →
  eval engine row (ArithmeticExpression sub current joined) = Val (c - z).
Proof.
  intros Hc Hz.
  destruct joined; cbn in Hz |- *; try discriminate;
    rewrite Hc; try rewrite Hz; try reflexivity.
  all: cbn in Hz; try (injection Hz as <-; reflexivity).
Qed.

(** C4, amended: a reference with modifier [p] compiles to the bare
    quotient of the difference by the joined value; where the joined value
    is zero its value is whatever the engine gives for a division by zero,
    elsewhere it is the quotient. *)
Theorem percentage_by_zero_left_to_engine (engine : Engine) (row : Term → Q)
    (reference_key prefix : string) (rest : list string)
    (criterion_f : Term → Term → Term) :
  split "_" reference_key = prefix :: "p" :: rest →
  reference_criterion !! prefix = Some criterion_f →
  ∃ field_f,
    _get_reference_mappers reference_key = Ok (criterion_f, field_f)
    ∧ ∀ current joined c z,
        eval engine row current = Val c →
        eval engine row joined = Val z →
        eval engine row (field_f current joined) =
          if Qeq_bool z 0 then div_by_zero engine else Val ((c - z) / z).
Proof.
  intros Hsplit Hcrit.
  exists (λ field join_field,
            ArithmeticExpression div
              (ArithmeticExpression sub field join_field) join_field).
  split; [exact (mappers_with_modifier _ _ _ _ _ _ Hsplit Hcrit eq_refl)|].
  intros current joined c z Hc Hz.
  change (eval engine row (ArithmeticExpression div ?l ?r))
    with (match eval engine row l, eval engine row r with
          | Val x, Val y => arith engine div x y
          | Val _, o => o
          | o, _ => o
          end).
  rewrite (eval_difference _ _ _ _ _ _ Hc Hz), Hz. reflexivity.
Qed.

(** C4, amended, on [wow_p] with five clicks now and none in the joined
    period. *)
Lemma percentage_by_zero_left_to_engine_witness :
  split "_" "wow_p" = ["wow"; "p"]
  ∧ reference_criterion !! "wow"
    = Some (λ key join_key,
              BasicCriterion eq key
                (ArithmeticExpression sub join_key (Interval 0 1)))
  ∧ ∃ field_f,
      _get_reference_mappers "wow_p"
      = Ok (λ key join_key,
              BasicCriterion eq key
                (ArithmeticExpression sub join_key (Interval 0 1)), field_f)
      ∧ ∀ current joined c z,
          eval strict_engine (joined_rows 5 0) current = Val c →
          eval strict_engine (joined_rows 5 0) joined = Val z →
          eval strict_engine (joined_rows 5 0) (field_f current joined) =
            if Qeq_bool z 0 then Raised "division by zero"
            else Val ((c - z) / z).
Proof.
  split; [reflexivity|]. split; [reflexivity|].
  exact (percentage_by_zero_left_to_engine strict_engine (joined_rows 5 0)
           "wow_p" "wow" [] _ eq_refl eq_refl).
Defined.

(** ** Query objects mentioned by terms *)

Section TermInduction.
Variable P : Term → Prop.
Hypothesis HField : ∀ name table, P (Field name table).
Hypothesis HInterval : ∀ q w, P (Interval q w).
Hypothesis HValue : ∀ v, P (ValueWrapper v).
Hypothesis HArith : ∀ op l r, P l → P r → P (ArithmeticExpression op l r).
Hypothesis HFunction : ∀ name args, Forall P args → P (Function name args).
Hypothesis HBasic : ∀ c l r, P l → P r → P (BasicCriterion c l r).
Hypothesis HComplex : ∀ l r, P l → P r → P (ComplexCriterion l r).
Hypothesis HAlias : ∀ a t, P t → P (Alias a t).

Fixpoint Term_nested_ind (t : Term) : P t :=
  match t with
  | Field name table => HField name table
  | Interval q w => HInterval q w
  | ValueWrapper v => HValue v
  | ArithmeticExpression op l r =>
      HArith op l r (Term_nested_ind l) (Term_nested_ind r)
  | Function name args =>
      HFunction name args
        ((fix all (ts : list Term) : Forall P ts :=
            match ts with
            | [] => List.Forall_nil P
            | t' :: ts' =>
                List.Forall_cons P t' ts' (Term_nested_ind t') (all ts')
            end) args)
  | BasicCriterion c l r =>
      HBasic c l r (Term_nested_ind l) (Term_nested_ind r)
  | ComplexCriterion l r =>
      HComplex l r (Term_nested_ind l) (Term_nested_ind r)
  | Alias a t' => HAlias a t' (Term_nested_ind t')
  end.
End TermInduction.

Lemma Forall_flat_map_iff {A B} (P : B → Prop) (f : A → list B) (l : list A) :
  Forall P (flat_map f l) ↔ Forall (λ x, Forall P (f x)) l.
Proof.
  induction l as [|x l IH]; cbn.
  - split; constructor.
  - rewrite Forall_app, Forall_cons, IH. reflexivity.
Qed.

Lemma flat_map_fmap_commute {A B} (f : A → A) (g : A → list B) (k : B → B)
    (l : list A) :
  Forall (λ x, g (f x) = k <$> g x) l →
  flat_map g (f <$> l) = k <$> flat_map g l.
Proof.
  induction 1 as [|x l Hx _ IH]; cbn; [reflexivity|].
  rewrite fmap_app, Hx, IH. reflexivity.
Qed.

Lemma table_locs_shift n t :
  table_locs (shift_table n t) = (λ l, l + n) <$> table_locs t.
Proof. destruct t; reflexivity. Qed.

Lemma term_locs_shift n t :
  term_locs (shift_term n t) = (λ l, l + n) <$> term_locs t.
Proof.
  induction t as [name table| | |op l r IHl IHr|name args IH
                  |c l r IHl IHr|l r IHl IHr|a t IH]
    using Term_nested_ind; cbn; rewrite ?fmap_app, ?IHl, ?IHr;
    try reflexivity.
  - destruct table as [t|]; cbn; [apply table_locs_shift|reflexivity].
  - apply (flat_map_fmap_commute (shift_term n)). assumption.
  - exact IH.
Qed.

Lemma join_locs_shift n j :
  join_locs (shift_join n j) = (λ l, l + n) <$> join_locs j.
Proof.
  unfold join_locs. cbn.
  rewrite fmap_app, table_locs_shift, term_locs_shift. reflexivity.
Qed.

Lemma query_locs_shift n o :
  query_locs (shift_query n o) = (λ l, l + n) <$> query_locs o.
Proof.
  unfold query_locs. cbn.
  rewrite !fmap_app, table_locs_shift. f_equal. f_equal.
  - apply (flat_map_fmap_commute (shift_join n)).
    apply Forall_forall. intros j _. apply join_locs_shift.
  - rewrite <- (flat_map_fmap_commute (shift_term n) term_locs)
      by (apply Forall_forall; intros t _; apply term_locs_shift).
    rewrite !fmap_app. repeat f_equal.
    + destruct (_wheres o); reflexivity.
    + destruct (_havings o); reflexivity.
Qed.

(** Every query object a term mentions satisfies [P]. *)
Definition term_refs (P : Loc → Prop) (t : Term) : Prop :=
  Forall P (term_locs t).

Definition query_refs (P : Loc → Prop) (o : QueryBuilder) : Prop :=
  Forall P (query_locs o).

Lemma query_refs_add_join P j o :
  query_refs P (add_join j o) ↔
  query_refs P o ∧ Forall P (join_locs j).
Proof.
  unfold query_refs, query_locs. cbn.
  rewrite flat_map_app. cbn. rewrite !Forall_app, Forall_nil. tauto.
Qed.

Lemma query_refs_add_selects P ts o :
  query_refs P (add_selects ts o) ↔
  query_refs P o ∧ Forall (term_refs P) ts.
Proof.
  unfold query_refs, query_locs, term_refs. cbn.
  rewrite !flat_map_app, !Forall_app, !Forall_flat_map_iff. tauto.
Qed.

Lemma query_refs_add_groupbys P ts o :
  query_refs P (add_groupbys ts o) ↔
  query_refs P o ∧ Forall (term_refs P) ts.
Proof.
  unfold query_refs, query_locs, term_refs. cbn.
  rewrite !flat_map_app, !Forall_app, !Forall_flat_map_iff. tauto.
Qed.

Lemma query_refs_add_rollup P ts o :
  query_refs P (add_rollup ts o) ↔
  query_refs P o ∧ Forall (term_refs P) ts.
Proof.
  unfold query_refs, query_locs, term_refs. cbn.
  rewrite !flat_map_app. cbn. rewrite app_nil_r.
  rewrite !Forall_app, !Forall_flat_map_iff. tauto.
Qed.

Lemma query_refs_add_orderbys P ts o :
  query_refs P (add_orderbys ts o) ↔
  query_refs P o ∧ Forall (term_refs P) ts.
Proof.
  unfold query_refs, query_locs, term_refs. cbn.
  rewrite !flat_map_app, !Forall_app, !Forall_flat_map_iff. tauto.
Qed.

Lemma query_refs_add_where P c o :
  query_refs P (add_where c o) ↔ query_refs P o ∧ term_refs P c.
Proof.
  unfold query_refs, query_locs, term_refs. cbn.
  rewrite !flat_map_app, !Forall_app, !Forall_flat_map_iff.
  destruct (_wheres o); cbn;
    rewrite ?Forall_cons, ?Forall_nil; cbn; rewrite ?Forall_app; tauto.
Qed.

Lemma query_refs_add_having P c o :
  query_refs P (add_having c o) ↔ query_refs P o ∧ term_refs P c.
Proof.
  unfold query_refs, query_locs, term_refs. cbn.
  rewrite !flat_map_app, !Forall_app, !Forall_flat_map_iff.
  destruct (_havings o); cbn;
    rewrite ?Forall_cons, ?Forall_nil; cbn; rewrite ?Forall_app; tauto.
Qed.

(** A term that mentions no query object. *)
Definition closed (t : Term) : bool := bool_decide (term_locs t = []).

Lemma closed_refs P t : closed t = true → term_refs P t.
Proof.
  unfold closed, term_refs. rewrite bool_decide_eq_true.
  intros ->. constructor.
Qed.

Lemma closed_as_ t alias : closed (as_ t alias) = closed t.
Proof. destruct t; reflexivity. Qed.

(** ** Runs of the query builder on the heap *)

(** Addresses in use are below [next], and so is every query object an
    object mentions. *)
Definition wf (h : Heap) : Prop :=
  ∀ a o, objects h !! a = Some o →
         a < next h ∧ query_refs (λ r, r < next h) o.

(** The state while a query [q] is being built: [q] is allocated and every
    object satisfies [Φ].  Where the request is over database tables only
    ([strict]), moreover the heap is well formed and no object mentions
    [q]. *)
Record Inv (strict : Prop) (Φ : QueryBuilder → Prop) (q : Loc) (h : Heap)
    : Prop := {
  inv_outer : is_Some (objects h !! q);
  inv_all : ∀ a o, objects h !! a = Some o → Φ o;
  inv_wf : strict → wf h;
  inv_unshared :
    strict → ∀ a o, objects h !! a = Some o → query_refs (λ r, r ≠ q) o;
}.

(** From [h], where the query being built is [q], to [h'], where it is
    [q']: nothing but [q] has changed, and [q'] is [q] or a new object. *)
Definition advances (q : Loc) (h : Heap) (q' : Loc) (h' : Heap) : Prop :=
  next h ≤ next h'
  ∧ (q' = q ∨ next h ≤ q')
  ∧ ∀ a, a < next h → a ≠ q → objects h' !! a = objects h !! a.

Lemma advances_refl q h : advances q h q h.
Proof. repeat split; auto. Qed.

Lemma advances_trans q h q1 h1 q2 h2 :
  advances q h q1 h1 → advances q1 h1 q2 h2 → advances q h q2 h2.
Proof.
  intros (Hn1 & Hq1 & Hf1) (Hn2 & Hq2 & Hf2). repeat split.
  - lia.
  - destruct Hq2 as [->|]; [exact Hq1 | right; lia].
  - intros a Ha Hne. rewrite Hf2, Hf1; auto; lia.
Qed.

Lemma Inv_lt (strict : Prop) Φ q h : strict → Inv strict Φ q h → q < next h.
Proof.
  intros Hs [[o Ho] _ Hwf _]. apply (Hwf Hs _ _ Ho).
Qed.

Lemma Inv_weaken (strict : Prop) (Φ Ψ : QueryBuilder → Prop) q h :
  (∀ o, Φ o → Ψ o) → Inv strict Φ q h → Inv strict Ψ q h.
Proof. intros HΦ [? Hall ? ?]. split; eauto. Qed.

Lemma query_refs_impl (P Q : Loc → Prop) o :
  (∀ r, P r → Q r) → query_refs P o → query_refs Q o.
Proof. intros HPQ H. eapply Forall_impl; [exact H|exact HPQ]. Qed.

(** A phase of the compiler run from [h] on the query [q]: it returns, the
    heap has advanced, the invariant holds again and [post] holds. *)
Definition runs (strict : Prop) (Φ : QueryBuilder → Prop) (c : M Loc)
    (q : Loc) (h : Heap) (post : Loc → Heap → Prop) : Prop :=
  ∃ q' h', c h = Ok (q', h') ∧ advances q h q' h'
           ∧ Inv strict Φ q' h' ∧ post q' h'.

Section Runs.
Variable strict : Prop.
Variable Φ : QueryBuilder → Prop.

Lemma runs_ret q h (post : Loc → Heap → Prop) :
  Inv strict Φ q h → post q h → runs strict Φ (mret q) q h post.
Proof. intros HI Hp. exists q, h. auto using advances_refl. Qed.

Lemma runs_bind (c : M Loc) (k : Loc → M Loc) q h
    (mid post : Loc → Heap → Prop) :
  runs strict Φ c q h mid →
  (∀ q1 h1, advances q h q1 h1 → Inv strict Φ q1 h1 → mid q1 h1 →
            runs strict Φ (k q1) q1 h1 post) →
  runs strict Φ (c ≫= k) q h post.
Proof.
  intros (q1 & h1 & Hc & Hadv & HI & Hmid) Hk.
  destruct (Hk q1 h1 Hadv HI Hmid) as (q2 & h2 & Hk2 & Hadv2 & HI2 & Hp).
  exists q2, h2. split; [|split; [|split]]; eauto using advances_trans.
  unfold mbind, M_bind. rewrite Hc. exact Hk2.
Qed.

Lemma runs_weaken c q h (post post' : Loc → Heap → Prop) :
  runs strict Φ c q h post →
  (∀ q' h', advances q h q' h' → Inv strict Φ q' h' → post q' h' →
            post' q' h') →
  runs strict Φ c q h post'.
Proof.
  intros (q' & h' & Hc & Hadv & HI & Hp) Himp.
  exists q', h'. eauto.
Qed.

Variable in_place : bool.

(** A builder method applied to the query being built. *)
Lemma builder_runs (change : QueryBuilder → QueryBuilder) q h o :
  Inv strict Φ q h →
  objects h !! q = Some o →
  (strict → query_refs (λ r, r < next h ∧ r ≠ q) (change o)) →
  Φ (change o) →
  runs strict Φ (builder in_place change q) q h
       (λ q' h', objects h' !! q' = Some (change o)).
Proof.
  intros [Hq Hall Hwf Hun] Ho Hrefs HΦ.
  unfold runs, builder. rewrite Ho.
  destruct in_place.
  - eexists _, _. split; [reflexivity|]. cbn. split; [|split].
    + unfold advances; cbn. repeat split; auto. intros a _ Hne.
      apply lookup_insert_ne. congruence.
    + split; cbn.
      * rewrite lookup_insert_eq. eauto.
      * intros a o'. rewrite lookup_insert_Some.
        intros [[<- <-]|[Hne Ha]]; eauto.
      * intros Hs a o'; cbn. rewrite lookup_insert_Some.
        intros [[<- <-]|[Hne Ha]].
        -- split; [apply (Hwf Hs _ _ Ho)|].
           eapply query_refs_impl; [|exact (Hrefs Hs)]. cbn. tauto.
        -- exact (Hwf Hs _ _ Ha).
      * intros Hs a o'. rewrite lookup_insert_Some.
        intros [[<- <-]|[Hne Ha]]; [|eauto].
        eapply query_refs_impl; [|exact (Hrefs Hs)]. cbn. tauto.
    + apply lookup_insert_eq.
  - eexists _, _. split; [reflexivity|]. cbn. split; [|split].
    + unfold advances; cbn.
      split; [lia|]. split; [right; lia|]. intros a Ha Hne.
      apply lookup_insert_ne. lia.
    + split; cbn.
      * rewrite lookup_insert_eq. eauto.
      * intros a o'. rewrite lookup_insert_Some.
        intros [[<- <-]|[Hne Ha]]; eauto.
      * intros Hs a o'; cbn. rewrite lookup_insert_Some.
        intros [[<- <-]|[Hne Ha]].
        -- split; [lia|].
           eapply query_refs_impl; [|exact (Hrefs Hs)]. cbn. lia.
        -- destruct (Hwf Hs _ _ Ha) as [? Hb]. split; [lia|].
           eapply query_refs_impl; [|exact Hb]. cbn. lia.
      * intros Hs a o'. rewrite lookup_insert_Some.
        intros [[<- <-]|[Hne Ha]].
        -- eapply query_refs_impl; [|exact (Hrefs Hs)]. cbn. lia.
        -- destruct (Hwf Hs _ _ Ha) as [? Hb].
           eapply query_refs_impl; [|exact Hb]. cbn. lia.
    + apply lookup_insert_eq.
Qed.
End Runs.

(** *** [copy.deepcopy] *)


#[local] Instance add_right_inj (n : nat) : Inj (=) (=) (λ a : nat, a + n).
Proof. intros a b. cbn. lia. Qed.

Lemma deepcopy_Ok q h o :
  objects h !! q = Some o →
  ∃ h', deepcopy q h = Ok (q + next h, h') ∧ next h' = next h + next h.
Proof.
  intros Ho. unfold deepcopy. rewrite Ho. eexists. split; reflexivity.
Qed.

Lemma deepcopy_lookup_old q h h' rq a :
  deepcopy q h = Ok (rq, h') → a < next h →
  objects h' !! a = objects h !! a.
Proof.
  unfold deepcopy. destruct (objects h !! q); [|discriminate].
  intros [= <- <-] Ha. cbn.
  rewrite lookup_union.
  rewrite (proj2 (lookup_kmap_None _ _ _)).
  - destruct (objects h !! a); reflexivity.
  - intros j ->. lia.
Qed.

Lemma deepcopy_lookup_kept q h h' rq a o :
  deepcopy q h = Ok (rq, h') → objects h !! a = Some o →
  objects h' !! a = Some o.
Proof.
  unfold deepcopy. destruct (objects h !! q); [|discriminate].
  intros [= <- <-] Ha. cbn. apply lookup_union_Some_l, Ha.
Qed.

Lemma deepcopy_lookup_any q h h' rq a o' :
  deepcopy q h = Ok (rq, h') →
  objects h' !! a = Some o' →
  objects h !! a = Some o'
  ∨ ∃ j o, a = j + next h ∧ objects h !! j = Some o
           ∧ o' = shift_query (next h) o.
Proof.
  unfold deepcopy. destruct (objects h !! q); [|discriminate].
  intros [= <- <-]. cbn.
  rewrite lookup_union_Some_raw.
  intros [Hold|[_ Hnew]]; [left; exact Hold|right].
  apply lookup_kmap_Some in Hnew; [|apply _].
  destruct Hnew as (j & -> & Hj).
  apply lookup_fmap_Some in Hj. destruct Hj as (o & <- & Hj).
  apply map_lookup_filter_Some in Hj. destruct Hj as [Hj _].
  eauto.
Qed.

Lemma deepcopy_lookup_new q h h' rq a o' :
  wf h →
  deepcopy q h = Ok (rq, h') → next h ≤ a →
  objects h' !! a = Some o' →
  ∃ j o, a = j + next h ∧ objects h !! j = Some o
         ∧ o' = shift_query (next h) o.
Proof.
  intros Hwf Hcopy Ha Ho'.
  destruct (deepcopy_lookup_any _ _ _ _ _ _ Hcopy Ho') as [Hold|Hnew];
    [|exact Hnew].
  apply Hwf in Hold. lia.
Qed.


(** The objects a copy allocates mention each other only. *)
Lemma deepcopy_segment q h h' rq a o' :
  wf h → deepcopy q h = Ok (rq, h') →
  next h ≤ a → objects h' !! a = Some o' →
  a < next h + next h
  ∧ query_refs (λ r, next h ≤ r < next h + next h) o'.
Proof.
  intros Hwf Hcopy Ha Ho'.
  destruct (deepcopy_lookup_new _ _ _ _ _ _ Hwf Hcopy Ha Ho')
    as (j & o0 & -> & Hj & ->).
  destruct (Hwf _ _ Hj) as [Hjlt Hb].
  split; [lia|].
  unfold query_refs. rewrite query_locs_shift.
  apply Forall_fmap. eapply Forall_impl; [exact Hb|]. cbn. lia.
Qed.

Lemma deepcopy_Inv (strict : Prop) Φ q h h' rq :
  (∀ o n, Φ o → Φ (shift_query n o)) →
  Inv strict Φ q h → deepcopy q h = Ok (rq, h') →
  Inv strict Φ q h'.
Proof.
  intros Hshift [[o Ho] Hall Hwf Hun] Hcopy.
  assert (Hnext : next h' = next h + next h).
  { destruct (deepcopy_Ok _ _ _ Ho) as (h'' & E & Hn).
    rewrite E in Hcopy. injection Hcopy as _ <-. exact Hn. }
  split.
  - rewrite (deepcopy_lookup_kept _ _ _ _ _ _ Hcopy Ho). eauto.
  - intros a o' Ho'.
    destruct (deepcopy_lookup_any _ _ _ _ _ _ Hcopy Ho')
      as [Hold|(j & o0 & -> & Hj & ->)]; eauto.
  - intros Hs a o' Ho'. rewrite Hnext.
    destruct (decide (a < next h)) as [Ha|Ha].
    + rewrite (deepcopy_lookup_old _ _ _ _ _ Hcopy Ha) in Ho'.
      destruct (Hwf Hs _ _ Ho') as [? Hb]. split; [lia|].
      eapply query_refs_impl; [|exact Hb]. cbn. lia.
    + destruct (deepcopy_segment _ _ _ _ a o' (Hwf Hs) Hcopy) as [? Hb];
        [lia|exact Ho'|].
      split; [lia|]. eapply query_refs_impl; [|exact Hb]. cbn. lia.
  - intros Hs a o' Ho'.
    pose proof (proj1 (Hwf Hs _ _ Ho)) as Hlt.
    destruct (decide (a < next h)) as [Ha|Ha].
    + rewrite (deepcopy_lookup_old _ _ _ _ _ Hcopy Ha) in Ho'. eauto.
    + destruct (deepcopy_segment _ _ _ _ a o' (Hwf Hs) Hcopy) as [? Hb];
        [lia|exact Ho'|].
      eapply query_refs_impl; [|exact Hb]. cbn. lia.
Qed.

Lemma deepcopy_advances q h h' rq :
  deepcopy q h = Ok (rq, h') → advances q h q h'.
Proof.
  intros Hcopy. split; [|split].
  - unfold deepcopy in Hcopy. destruct (objects h !! q); [|discriminate].
    injection Hcopy as _ <-. cbn. lia.
  - left. reflexivity.
  - intros a Ha _. eapply deepcopy_lookup_old; eauto.
Qed.

(** ** The reference mappers mention no query object of their own *)

Lemma reference_criterion_refs (P : Loc → Prop) prefix criterion_f a b :
  reference_criterion !! prefix = Some criterion_f →
  term_refs P a → term_refs P b → term_refs P (criterion_f a b).
Proof.
  intros Hin Ha Hb. apply elem_of_list_to_map_2 in Hin.
  unfold term_refs in *.
  repeat (apply elem_of_cons in Hin as [[= _ ->]|Hin];
          [cbn; rewrite app_nil_r; apply Forall_app; auto|]).
  inversion Hin.
Qed.

Lemma reference_field_refs (P : Loc → Prop) modifier field_f a b :
  reference_field !! modifier = Some field_f →
  term_refs P a → term_refs P b → term_refs P (field_f a b).
Proof.
  intros Hin Ha Hb. apply elem_of_list_to_map_2 in Hin.
  unfold term_refs in *.
  repeat (apply elem_of_cons in Hin as [[= _ ->]|Hin];
          [cbn; rewrite ?Forall_app; auto|]).
  inversion Hin.
Qed.

Lemma getitem_Ok {V} (d : gmap string V) (key : string) (v : V) :
  getitem d key = Ok v → d !! key = Some v.
Proof. unfold getitem. destruct (d !! key); congruence. Qed.

Lemma reference_mappers_refs (P : Loc → Prop) reference_key criterion_f field_f :
  _get_reference_mappers reference_key = Ok (criterion_f, field_f) →
  ∀ a b, term_refs P a → term_refs P b →
         term_refs P (criterion_f a b) ∧ term_refs P (field_f a b).
Proof.
  unfold _get_reference_mappers.
  destruct (split "_" reference_key) as [|prefix parts]; [discriminate|].
  destruct (getitem reference_criterion prefix) as [cf|] eqn:Hcf;
    [|discriminate].
  apply getitem_Ok in Hcf.
  destruct parts as [|modifier rest].
  - intros [= <- <-] a b Ha Hb.
    split; [eapply reference_criterion_refs; eauto | exact Hb].
  - destruct (getitem reference_field modifier) as [ff|] eqn:Hff;
      [|discriminate].
    apply getitem_Ok in Hff.
    intros [= <- <-] a b Ha Hb.
    split; [eapply reference_criterion_refs | eapply reference_field_refs];
      eauto.
Qed.

Lemma term_refs_as_ P t alias : term_refs P (as_ t alias) ↔ term_refs P t.
Proof. destruct t; reflexivity. Qed.

(** ** Re-targeting a term *)

(** The term [for_] gives where it returns: every field re-targeted to
    [table]. *)
Fixpoint retarget (term : Term) (table : Table) : Term :=
  match term with
  | Field name _ => Field name (Some table)
  | Interval q w => Interval q w
  | ValueWrapper v => ValueWrapper v
  | ArithmeticExpression op l r =>
      ArithmeticExpression op (retarget l table) (retarget r table)
  | Function name args => Function name (map (λ a, retarget a table) args)
  | BasicCriterion c l r =>
      BasicCriterion c (retarget l table) (retarget r table)
  | ComplexCriterion l r =>
      ComplexCriterion (retarget l table) (retarget r table)
  | Alias a t => Alias a (retarget t table)
  end.

(** A term that has the method [for_] in all its parts: it is built
    without a wrapped constant and without an interval. *)
Fixpoint retargetable (term : Term) : bool :=
  match term with
  | Field _ _ => true
  | Interval _ _ | ValueWrapper _ => false
  | ArithmeticExpression _ l r
  | BasicCriterion _ l r
  | ComplexCriterion l r => retargetable l && retargetable r
  | Function _ args => forallb retargetable args
  | Alias _ t => retargetable t
  end.

Lemma for__retargetable t table :
  retargetable t = true → for_ t table = Ok (retarget t table).
Proof.
  induction t as [name tb| | |op l r IHl IHr|name args IH
                  |c l r IHl IHr|l r IHl IHr|a t IH]
    using Term_nested_ind; cbn [retargetable]; try discriminate.
  - reflexivity.
  - rewrite andb_true_iff. intros [Hl Hr]. cbn [for_ retarget].
    rewrite (IHl Hl), (IHr Hr). reflexivity.
  - intros Hargs. cbn [for_ retarget].
    match goal with
    | |- match ?go args with _ => _ end = _ =>
        assert (E : go args = Ok (map (λ a, retarget a table) args))
    end.
    { induction IH as [|arg args Harg _ IHargs]; [reflexivity|].
      cbn [forallb] in Hargs. apply andb_true_iff in Hargs as [Ha Hargs].
      rewrite (Harg Ha), (IHargs Hargs). reflexivity. }
    rewrite E. reflexivity.
  - rewrite andb_true_iff. intros [Hl Hr]. cbn [for_ retarget].
    rewrite (IHl Hl), (IHr Hr). reflexivity.
  - rewrite andb_true_iff. intros [Hl Hr]. cbn [for_ retarget].
    rewrite (IHl Hl), (IHr Hr). reflexivity.
  - intros Ht. cbn [for_ retarget]. rewrite (IH Ht). reflexivity.
Qed.

Lemma term_refs_retarget (P : Loc → Prop) t rq :
  P rq → term_refs P (retarget t (SubQuery rq)).
Proof.
  intros Hrq. unfold term_refs.
  induction t as [name table| | |op l r IHl IHr|name args IH
                  |c l r IHl IHr|l r IHl IHr|a t IH]
    using Term_nested_ind; cbn; rewrite ?Forall_app; auto.
  apply Forall_flat_map_iff, Forall_fmap. exact IH.
Qed.

Lemma fields_retarget t table :
  Forall (λ f, f = Some table) (fields (retarget t table)).
Proof.
  induction t as [name tb| | |op l r IHl IHr|name args IH
                  |c l r IHl IHr|l r IHl IHr|a t IH]
    using Term_nested_ind; cbn; rewrite ?Forall_app; auto.
  apply Forall_flat_map_iff, Forall_fmap. exact IH.
Qed.

Lemma fields_as_ t alias : fields (as_ t alias) = fields t.
Proof. destruct t; reflexivity. Qed.

(** ** The join criterion, as a conjunction *)

(** [c & c1 & ... & cn], as the [&=] of the source nests it. *)
Definition and_all (criterion : Term) (criteria : list Term) : Term :=
  foldl ComplexCriterion criterion criteria.

(** The equality of a dimension with the same dimension re-targeted to
    the sub-query. *)
Definition same_in (query : Loc) (dimension : TermObj) : Term :=
  BasicCriterion eq (expr dimension)
    (retarget (expr dimension) (SubQuery query)).

Lemma build_reference_join_criterion_and_all query dimensions criterion_f
    dimension_key compared_dimension :
  odict_get dimensions dimension_key = Ok compared_dimension →
  forallb (λ d, retargetable (expr d)) (dimensions.*2) = true →
  _build_reference_join_criterion query dimensions criterion_f dimension_key
  = Ok (and_all
          (criterion_f (expr compared_dimension)
             (field (SubQuery query) dimension_key))
          (same_in query <$>
             filter (λ d, ident d ≠ ident compared_dimension)
                    (dimensions.*2))).
Proof.
  intros Hget Hexprs. unfold _build_reference_join_criterion. rewrite Hget.
  unfold and_all.
  generalize (criterion_f (expr compared_dimension)
                (field (SubQuery query) dimension_key)) as cx.
  induction (dimensions.*2) as [|d ds IH]; intros cx; [reflexivity|].
  cbn [forallb] in Hexprs. apply andb_true_iff in Hexprs as [Hd Hds].
  cbn [foldl]. unfold is_.
  rewrite filter_cons. case_bool_decide; cbn [negb].
  - rewrite decide_False by tauto. apply (IH Hds).
  - rewrite decide_True by assumption.
    rewrite (for__retargetable _ _ Hd). apply (IH Hds).
Qed.

Lemma holds_and_all engine row criterion criteria :
  holds engine row (and_all criterion criteria) = Some true ↔
  holds engine row criterion = Some true
  ∧ Forall (λ c, holds engine row c = Some true) criteria.
Proof.
  unfold and_all. revert criterion.
  induction criteria as [|c cs IH]; intros criterion; cbn [foldl].
  - rewrite Forall_nil. tauto.
  - rewrite IH, Forall_cons. cbn [holds].
    destruct (holds engine row criterion) as [[]|],
             (holds engine row c) as [[]|]; cbn; intuition congruence.
Qed.

Lemma term_refs_and_all P criterion criteria :
  term_refs P criterion → Forall (term_refs P) criteria →
  term_refs P (and_all criterion criteria).
Proof.
  unfold and_all. intros Hc Hcs. revert criterion Hc.
  induction Hcs as [|c cs Hc' _ IH]; intros criterion Hc; cbn [foldl];
    [exact Hc|].
  apply IH. unfold term_refs in *. cbn. apply Forall_app. auto.
Qed.

(** ** The phases of [_build_query] *)

Lemma bind_assoc {A B C} (c : M A) (f : A → M B) (g : B → M C) h :
  ((c ≫= f) ≫= g) h = (c ≫= λ a, f a ≫= g) h.
Proof.
  unfold mbind, M_bind. destruct (c h) as [[a h']|e]; reflexivity.
Qed.

Lemma bind_ext {A B} (c : M A) (f g : A → M B) h :
  (∀ a h', f a h' = g a h') → (c ≫= f) h = (c ≫= g) h.
Proof.
  intros Hfg. unfold mbind, M_bind.
  destruct (c h) as [[a h']|e]; [apply Hfg|reflexivity].
Qed.

Lemma for_each_app {A} (xs ys : list A) q (body : Loc → A → M Loc) h :
  for_each (xs ++ ys) q body h
  = (for_each xs q body ≫= λ q', for_each ys q' body) h.
Proof.
  revert q h. induction xs as [|x xs IH]; intros q h; [reflexivity|].
  cbn [app for_each]. rewrite bind_assoc. apply bind_ext. exact IH.
Qed.

Lemma add_selects_nil o : add_selects [] o = o.
Proof. destruct o. unfold add_selects. cbn. rewrite app_nil_r. reflexivity. Qed.

(** A change of a query object that makes it mention no further query
    object. *)
Definition adds_no_refs (change : QueryBuilder → QueryBuilder) : Prop :=
  ∀ P o, query_refs P o → query_refs P (change o).

Definition all_closed (ts : list Term) : bool := forallb closed ts.

Lemma all_closed_refs P ts : all_closed ts = true → Forall (term_refs P) ts.
Proof.
  unfold all_closed. rewrite forallb_forall, Forall_forall.
  intros H t Ht. apply closed_refs, H, list_elem_of_In, Ht.
Qed.

Lemma adds_no_refs_selects ts :
  all_closed ts = true → adds_no_refs (add_selects ts).
Proof.
  intros Hts P o Ho. apply query_refs_add_selects.
  auto using all_closed_refs.
Qed.

Lemma adds_no_refs_groupbys ts :
  all_closed ts = true → adds_no_refs (add_groupbys ts).
Proof.
  intros Hts P o Ho. apply query_refs_add_groupbys.
  auto using all_closed_refs.
Qed.

Lemma adds_no_refs_rollup ts :
  all_closed ts = true → adds_no_refs (add_rollup ts).
Proof.
  intros Hts P o Ho. apply query_refs_add_rollup.
  auto using all_closed_refs.
Qed.

Lemma adds_no_refs_orderbys ts :
  all_closed ts = true → adds_no_refs (add_orderbys ts).
Proof.
  intros Hts P o Ho. apply query_refs_add_orderbys.
  auto using all_closed_refs.
Qed.

Lemma adds_no_refs_where c : closed c = true → adds_no_refs (add_where c).
Proof.
  intros Hc P o Ho. apply query_refs_add_where. auto using closed_refs.
Qed.

Lemma adds_no_refs_having c : closed c = true → adds_no_refs (add_having c).
Proof.
  intros Hc P o Ho. apply query_refs_add_having. auto using closed_refs.
Qed.

Definition join_closed (j : Table * Term * JoinType) : bool :=
  bool_decide (table_locs j.1.1 = []) && closed j.1.2.

Definition join_of (j : Table * Term * JoinType) : Join :=
  {| join_item := j.1.1; join_how := j.2; join_on := j.1.2 |}.

Lemma adds_no_refs_join j :
  join_closed j = true → adds_no_refs (add_join (join_of j)).
Proof.
  unfold join_closed. rewrite andb_true_iff, bool_decide_eq_true.
  intros [Ht Hc] P o Ho. apply query_refs_add_join. split; [exact Ho|].
  unfold join_locs. cbn. rewrite Ht. apply (closed_refs P), Hc.
Qed.

Lemma outer_refs (strict : Prop) Φ q h o :
  strict → Inv strict Φ q h → objects h !! q = Some o →
  query_refs (λ r, r < next h ∧ r ≠ q) o.
Proof.
  intros Hs [_ _ Hwf Hun] Ho.
  destruct (Hwf Hs _ _ Ho) as [_ Hb]. specialize (Hun Hs _ _ Ho).
  unfold query_refs in *. rewrite Forall_forall in *. split; auto.
Qed.

(** ** The checks of [select] and [on] *)

(** Every table that a field of the term is given satisfies [P]. *)
Definition term_fields (P : option Table → Prop) (t : Term) : Prop :=
  Forall P (fields t).

Definition of_tables (tables : list Table) (f : option Table) : Prop :=
  match f with None => True | Some t => t ∈ tables end.

Definition in_tables (tables : list Table) (f : option Table) : Prop :=
  match f with None => False | Some t => t ∈ tables end.

Lemma known_spec tables t :
  known tables t = true ↔ term_fields (of_tables tables) t.
Proof.
  unfold known, term_fields. rewrite forallb_forall, Forall_forall.
  split; intros H f Hf.
  - apply list_elem_of_In, H in Hf.
    destruct f; [apply bool_decide_eq_true in Hf; exact Hf|exact I].
  - apply list_elem_of_In, H in Hf.
    destruct f; [apply bool_decide_eq_true; exact Hf|reflexivity].
Qed.

Lemma qualified_spec tables t :
  qualified tables t = true ↔ term_fields (in_tables tables) t.
Proof.
  unfold qualified, term_fields. rewrite forallb_forall, Forall_forall.
  split; intros H f Hf.
  - apply list_elem_of_In, H in Hf.
    destruct f; [apply bool_decide_eq_true in Hf; exact Hf|discriminate].
  - apply list_elem_of_In, H in Hf.
    destruct f; [apply bool_decide_eq_true; exact Hf|destruct Hf].
Qed.

Lemma term_fields_impl (P Q : option Table → Prop) t :
  (∀ f, P f → Q f) → term_fields P t → term_fields Q t.
Proof. intros HPQ H. eapply Forall_impl; [exact H|exact HPQ]. Qed.

Lemma known_mono tables tables' t :
  tables ⊆ tables' → known tables t = true → known tables' t = true.
Proof.
  rewrite !known_spec. intros Hsub. apply term_fields_impl.
  intros [table|]; cbn; auto.
Qed.

Lemma qualified_mono tables tables' t :
  tables ⊆ tables' → qualified tables t = true → qualified tables' t = true.
Proof.
  rewrite !qualified_spec. intros Hsub. apply term_fields_impl.
  intros [table|]; cbn; auto.
Qed.

Lemma known_as_ tables t alias :
  known tables (as_ t alias) = known tables t.
Proof. unfold known. rewrite fields_as_. reflexivity. Qed.

Lemma reference_criterion_fields (P : option Table → Prop) prefix
    criterion_f a b :
  reference_criterion !! prefix = Some criterion_f →
  term_fields P a → term_fields P b → term_fields P (criterion_f a b).
Proof.
  intros Hin Ha Hb. apply elem_of_list_to_map_2 in Hin.
  unfold term_fields in *.
  repeat (apply elem_of_cons in Hin as [[= _ ->]|Hin];
          [cbn; rewrite app_nil_r; apply Forall_app; auto|]).
  inversion Hin.
Qed.

Lemma reference_field_fields (P : option Table → Prop) modifier field_f a b :
  reference_field !! modifier = Some field_f →
  term_fields P a → term_fields P b → term_fields P (field_f a b).
Proof.
  intros Hin Ha Hb. apply elem_of_list_to_map_2 in Hin.
  unfold term_fields in *.
  repeat (apply elem_of_cons in Hin as [[= _ ->]|Hin];
          [cbn; rewrite ?Forall_app; auto|]).
  inversion Hin.
Qed.

Lemma reference_mappers_fields (P : option Table → Prop) reference_key
    criterion_f field_f :
  _get_reference_mappers reference_key = Ok (criterion_f, field_f) →
  ∀ a b, term_fields P a → term_fields P b →
         term_fields P (criterion_f a b) ∧ term_fields P (field_f a b).
Proof.
  unfold _get_reference_mappers.
  destruct (split "_" reference_key) as [|prefix parts]; [discriminate|].
  destruct (getitem reference_criterion prefix) as [cf|] eqn:Hcf;
    [|discriminate].
  apply getitem_Ok in Hcf.
  destruct parts as [|modifier rest].
  - intros [= <- <-] a b Ha Hb.
    split; [eapply reference_criterion_fields; eauto | exact Hb].
  - destruct (getitem reference_field modifier) as [ff|] eqn:Hff;
      [|discriminate].
    apply getitem_Ok in Hff.
    intros [= <- <-] a b Ha Hb.
    split;
      [eapply reference_criterion_fields | eapply reference_field_fields];
      eauto.
Qed.

Lemma term_fields_and_all P criterion criteria :
  term_fields P criterion → Forall (term_fields P) criteria →
  term_fields P (and_all criterion criteria).
Proof.
  unfold and_all. revert criterion.
  induction criteria as [|c cs IH]; intros criterion Hc Hcs; [exact Hc|].
  apply Forall_cons in Hcs as [Hc' Hcs]. cbn [foldl]. apply IH; [|exact Hcs].
  unfold term_fields in *. cbn. apply Forall_app. auto.
Qed.

Lemma incl_cons_r {A} (x : A) (l l' : list A) : l ⊆ l' → l ⊆ x :: l'.
Proof. intros H y Hy. right. apply H, Hy. Qed.

Lemma incl_app_l {A} (l l' k : list A) : l ⊆ l' → l ⊆ l' ++ k.
Proof. intros H y Hy. apply elem_of_app. left. apply H, Hy. Qed.

Lemma elem_of_snoc {A} (x : A) (l : list A) : x ∈ l ++ [x].
Proof. apply elem_of_app. right. left. Qed.

Lemma checked_builder in_place valid change q h o :
  objects h !! q = Some o → valid o = true →
  checked in_place valid change q h = builder in_place change q h.
Proof. intros Ho Hv. unfold checked. rewrite Ho, Hv. reflexivity. Qed.

Lemma runs_checked (strict : Prop) Φ in_place valid change q h o post :
  objects h !! q = Some o → valid o = true →
  runs strict Φ (builder in_place change q) q h post →
  runs strict Φ (checked in_place valid change q) q h post.
Proof.
  intros Ho Hv (q' & h' & Hrun & H). exists q', h'. split; [|exact H].
  rewrite (checked_builder _ _ _ _ _ _ Ho Hv). exact Hrun.
Qed.

Lemma available_add_join j o :
  available (add_join j o) = available o ++ [join_item j].
Proof. unfold available. cbn. rewrite fmap_app. reflexivity. Qed.

Lemma available_add_selects ts o :
  available (add_selects ts o) = available o.
Proof. reflexivity. Qed.

(** The joins of a request pass the check of [on]: each criterion uses
    fields of the table of the request, of the tables joined before it
    and of the table it joins only. *)
Fixpoint joins_valid (tables : list Table)
    (joins : list (Table * Term * JoinType)) : bool :=
  match joins with
  | [] => true
  | (item, criterion, _) :: joins =>
      qualified (item :: tables) criterion
      && joins_valid (tables ++ [item]) joins
  end.

(** The tables of a request. *)
Definition tables_of (table : Table) (joins : list (Table * Term * JoinType))
    : list Table :=
  table :: joins.*1.*1.

(** The dimensions can be compared with a sub-query: each is an
    expression of fields of the request's tables. *)
Definition comparable (tables : list Table) (dimensions : odict TermObj)
    : bool :=
  forallb (λ d, retargetable (expr d) && qualified tables (expr d))
          (dimensions.*2).

(** The request passes the checks of the query builder: the joins are
    valid, no metric, dimension or filter uses a field of a table that
    the request leaves out and, where there is a reference, the
    dimensions can be compared. *)
Definition request_valid (table : Table)
    (joins : list (Table * Term * JoinType))
    (metrics : odict Term) (dimensions : odict TermObj)
    (mfilters dfilters : list Term) (references : odict string) : bool :=
  joins_valid [table] joins
  && forallb (known (tables_of table joins)) (metrics.*2)
  && forallb (known (tables_of table joins)) (expr <$> dimensions.*2)
  && forallb (known (tables_of table joins)) mfilters
  && forallb (known (tables_of table joins)) dfilters
  && (bool_decide (references = []) || comparable (tables_of table joins) dimensions).

(** The dimensions that can be compared have the method [for_]. *)
Lemma comparable_retargetable tables (dimensions : odict TermObj) :
  comparable tables dimensions = true →
  forallb (λ d, retargetable (expr d)) (dimensions.*2) = true.
Proof.
  unfold comparable. rewrite !forallb_forall. intros H d Hd.
  apply H, andb_true_iff in Hd. tauto.
Qed.

Section Phases.
Variable strict : Prop.
Variable in_place : bool.
Variable Φ : QueryBuilder → Prop.

Lemma closed_builder_runs change q h o :
  (strict → adds_no_refs change) → Φ (change o) →
  Inv strict Φ q h → objects h !! q = Some o →
  runs strict Φ (builder in_place change q) q h
       (λ q' h', objects h' !! q' = Some (change o)).
Proof.
  intros Hch HΦ HI Ho. apply builder_runs; auto.
  intros Hs. apply (Hch Hs). eapply outer_refs; eauto.
Qed.

(** A loop whose body is one builder call. *)
Lemma for_each_builder_runs {A} (change : A → QueryBuilder → QueryBuilder)
    (xs : list A) q h o :
  (strict → Forall (λ x, adds_no_refs (change x)) xs) →
  (∀ x o, Φ o → Φ (change x o)) →
  Inv strict Φ q h → objects h !! q = Some o →
  runs strict Φ (for_each xs q (λ q x, builder in_place (change x) q)) q h
       (λ q' h', objects h' !! q' = Some (foldl (λ o x, change x o) o xs)).
Proof.
  intros Hxs HΦ. revert q h o.
  induction xs as [|x xs IH]; intros q h o HI Ho.
  - apply runs_ret; assumption.
  - cbn [for_each foldl].
    eapply runs_bind.
    + apply closed_builder_runs; eauto.
      * intros Hs. specialize (Hxs Hs). apply Forall_cons in Hxs. tauto.
      * eapply HΦ, inv_all; eauto.
    + intros q1 h1 _ HI1 Ho1. apply IH; [|assumption..].
      intros Hs. specialize (Hxs Hs). apply Forall_cons in Hxs. tauto.
Qed.

(** [select] of columns that pass its check. *)
Lemma select_runs ts q h o :
  (strict → all_closed ts = true) → Φ (add_selects ts o) →
  forallb (known (available o)) ts = true →
  Inv strict Φ q h → objects h !! q = Some o →
  runs strict Φ (select in_place q ts) q h
       (λ q' h', objects h' !! q' = Some (add_selects ts o)).
Proof.
  intros Hts HΦ Hv HI Ho. unfold select.
  eapply runs_checked; [exact Ho|exact Hv|].
  apply closed_builder_runs; auto.
  intros Hs. apply adds_no_refs_selects, (Hts Hs).
Qed.

(** The loop over the joins of the request. *)
Lemma joins_run (joins : list (Table * Term * JoinType)) q h o :
  (strict → Forall (λ j, adds_no_refs (add_join (join_of j))) joins) →
  (∀ j o, Φ o → Φ (add_join j o)) →
  joins_valid (available o) joins = true →
  Inv strict Φ q h → objects h !! q = Some o →
  runs strict Φ
       (for_each joins q
          (λ query '(join_table, criterion, join_type),
             on in_place (join query join_table join_type) criterion)) q h
       (λ q' h', objects h' !! q'
                 = Some (foldl (λ o j, add_join (join_of j) o) o joins)).
Proof.
  intros Hjs HΦ. revert q h o.
  induction joins as [|[[item criterion] how] joins IH];
    intros q h o Hv HI Ho.
  - apply runs_ret; assumption.
  - cbn [joins_valid] in Hv. apply andb_true_iff in Hv as [Hv Hvs].
    cbn [for_each foldl].
    eapply runs_bind.
    + unfold on, join. eapply runs_checked; [exact Ho|exact Hv|].
      apply (closed_builder_runs
               (add_join (join_of (item, criterion, how)))); eauto.
      * intros Hs. specialize (Hjs Hs). apply Forall_cons in Hjs. tauto.
      * eapply HΦ, inv_all; eauto.
    + intros q1 h1 _ HI1 Ho1. apply IH; [| |assumption..].
      * intros Hs. specialize (Hjs Hs). apply Forall_cons in Hjs. tauto.
      * rewrite available_add_join. exact Hvs.
Qed.
End Phases.

Definition no_filters (o : QueryBuilder) : Prop :=
  _wheres o = None ∧ _havings o = None.

Lemma no_filters_shift o n : no_filters o → no_filters (shift_query n o).
Proof. intros [Hw Hh]. split; cbn; [rewrite Hw|rewrite Hh]; reflexivity. Qed.

(** The dimension and metric columns the source calls [dx], [rx], [mx]. *)
Definition dx_of (dimensions : odict TermObj) (rollup : list string)
    : list Term :=
  map (λ '(key, dimension), as_ (expr dimension) key)
      (filter (λ kd, kd.1 ∉ rollup) dimensions).

Definition rx_of (dimensions : odict TermObj) (rollup : list string)
    : list Term :=
  map (λ '(key, dimension), as_ (expr dimension) key)
      (filter (λ kd, kd.1 ∈ rollup) dimensions).

Definition mx_of (metrics : odict Term) : list Term :=
  map (λ '(key, metric), as_ metric key) metrics.

(** The request mentions tables of the database only: no query object
    exists before the compiler runs. *)
Definition request_closed (table : Table) (joins : list (Table * Term * JoinType))
    (metrics : odict Term) (dimensions : odict TermObj)
    (mfilters dfilters : list Term) : bool :=
  bool_decide (table_locs table = [])
  && forallb join_closed joins
  && all_closed (metrics.*2)
  && all_closed (expr <$> dimensions.*2)
  && all_closed mfilters
  && all_closed dfilters.

(** Every reference key resolves and names a dimension of the request. *)
Definition is_ok {A} (r : Result A) : bool :=
  match r with Ok _ => true | Raise _ => false end.

Definition reference_resolves (dimensions : odict TermObj)
    (reference : string * string) : bool :=
  is_ok (_get_reference_mappers reference.1)
  && is_ok (odict_get dimensions reference.2).

Definition references_resolve (dimensions : odict TermObj)
    (references : odict string) : bool :=
  forallb (reference_resolves dimensions) references.

Lemma all_closed_dx dimensions rollup :
  all_closed (expr <$> dimensions.*2) = true →
  all_closed (dx_of dimensions rollup) = true.
Proof.
  unfold all_closed, dx_of. rewrite !forallb_forall.
  intros H t Ht. apply list_elem_of_In, list_elem_of_fmap in Ht.
  destruct Ht as ([key d] & -> & Hkd). rewrite closed_as_.
  apply list_elem_of_filter in Hkd as [_ Hkd].
  apply H, list_elem_of_In, list_elem_of_fmap. exists d. split; [done|].
  apply list_elem_of_fmap. exists (key, d). done.
Qed.

Lemma all_closed_rx dimensions rollup :
  all_closed (expr <$> dimensions.*2) = true →
  all_closed (rx_of dimensions rollup) = true.
Proof.
  unfold all_closed, rx_of. rewrite !forallb_forall.
  intros H t Ht. apply list_elem_of_In, list_elem_of_fmap in Ht.
  destruct Ht as ([key d] & -> & Hkd). rewrite closed_as_.
  apply list_elem_of_filter in Hkd as [_ Hkd].
  apply H, list_elem_of_In, list_elem_of_fmap. exists d. split; [done|].
  apply list_elem_of_fmap. exists (key, d). done.
Qed.

Lemma all_closed_mx metrics :
  all_closed (metrics.*2) = true → all_closed (mx_of metrics) = true.
Proof.
  unfold all_closed, mx_of. rewrite !forallb_forall.
  intros H t Ht. apply list_elem_of_In, list_elem_of_fmap in Ht.
  destruct Ht as ([key m] & -> & Hkm). rewrite closed_as_.
  apply H, list_elem_of_In, list_elem_of_fmap. exists (key, m). done.
Qed.

Section BasePhase.
Variable strict : Prop.
Variable in_place : bool.

(** The statements of [_build_query] before "Add comparisons". *)
Definition select_base (table : Table) (joins : list (Table * Term * JoinType))
    (metrics : odict Term) (dimensions : odict TermObj)
    (rollup : list string) : M Loc :=
  query ← from_ table;
  query ← for_each joins query
            (λ query '(join_table, criterion, join_type),
               on in_place (join query join_table join_type) criterion);
  query ← match dx_of dimensions rollup with
          | [] => mret query
          | _ => query ← select in_place query (dx_of dimensions rollup);
                 groupby in_place query (dx_of dimensions rollup)
          end;
  query ← match rx_of dimensions rollup with
          | [] => mret query
          | _ => query ← select in_place query (rx_of dimensions rollup);
                 rollup_ in_place query (rx_of dimensions rollup)
          end;
  select in_place query (mx_of metrics).

(** The statements of [_build_query] after the comparisons. *)
Definition order_and_filter (dimensions : odict TermObj)
    (rollup : list string) (mfilters dfilters : list Term) (query : Loc)
    : M Loc :=
  query ← match dx_of dimensions rollup with
          | [] => mret query
          | _ => orderby in_place query (dx_of dimensions rollup)
          end;
  query ← match rx_of dimensions rollup with
          | [] => mret query
          | _ => orderby in_place query (rx_of dimensions rollup)
          end;
  query ← match dfilters with
          | [] => mret query
          | _ => for_each dfilters query (where_ in_place)
          end;
  query ← match mfilters with
          | [] => mret query
          | _ => for_each mfilters query (having in_place)
          end;
  mret query.

Lemma build_query_phases table joins metrics dimensions mfilters dfilters
    references rollup h :
  _build_query in_place table joins metrics dimensions mfilters dfilters
    references rollup h
  = (query ← select_base table joins metrics dimensions rollup;
     query ← for_each references query
               (add_comparison in_place metrics dimensions);
     order_and_filter dimensions rollup mfilters dfilters query) h.
Proof.
  unfold _build_query, select_base, order_and_filter, dx_of, rx_of, mx_of.
  cbv zeta.
  repeat (rewrite bind_assoc; apply bind_ext; intros ? ?).
  reflexivity.
Qed.

(** What [rollup] adds to the group-by list. *)
Definition rollup_term (rx : list Term) : list Term :=
  match rx with
  | [] => []
  | _ => [Rollup rx]
  end.

Lemma rollup_term_cons rx : rx ≠ [] → rollup_term rx = [Rollup rx].
Proof. destruct rx; [congruence|reflexivity]. Qed.

(** The query object after the base phase. *)
Definition base_object (table : Table) (joins : list (Table * Term * JoinType))
    (metrics : odict Term) (dimensions : odict TermObj)
    (rollup : list string) : QueryBuilder :=
  {| _from := table;
     _joins := join_of <$> joins;
     _selects := dx_of dimensions rollup ++ rx_of dimensions rollup
                 ++ mx_of metrics;
     _groupbys := dx_of dimensions rollup
                  ++ rollup_term (rx_of dimensions rollup);
     _orderbys := [];
     _wheres := None;
     _havings := None |}.

Lemma foldl_add_join (joins : list (Table * Term * JoinType)) o :
  foldl (λ o j, add_join (join_of j) o) o joins
  = {| _from := _from o; _joins := _joins o ++ (join_of <$> joins);
       _selects := _selects o; _groupbys := _groupbys o;
       _orderbys := _orderbys o;
       _wheres := _wheres o; _havings := _havings o |}.
Proof.
  revert o. induction joins as [|j joins IH]; intros o; cbn [foldl].
  - destruct o. cbn. rewrite app_nil_r. reflexivity.
  - rewrite IH. cbn. rewrite <- app_assoc. reflexivity.
Qed.

Lemma available_of_request (joins : list (Table * Term * JoinType)) o table :
  _from o = table → _joins o = join_of <$> joins →
  available o = tables_of table joins.
Proof.
  intros Hf Hj. unfold available, tables_of. rewrite Hf, Hj.
  rewrite <- !list_fmap_compose. reflexivity.
Qed.

Lemma available_base_object table joins metrics dimensions rollup :
  available (base_object table joins metrics dimensions rollup)
  = tables_of table joins.
Proof. apply available_of_request; reflexivity. Qed.

Lemma all_known_dx tables (dimensions : odict TermObj) rollup :
  forallb (known tables) (expr <$> dimensions.*2) = true →
  forallb (known tables) (dx_of dimensions rollup) = true.
Proof.
  unfold dx_of. rewrite !forallb_forall.
  intros H t Ht. apply list_elem_of_In, list_elem_of_fmap in Ht.
  destruct Ht as ([key d] & -> & Hkd). rewrite known_as_.
  apply list_elem_of_filter in Hkd as [_ Hkd].
  apply H, list_elem_of_In, list_elem_of_fmap. exists d. split; [done|].
  apply list_elem_of_fmap. exists (key, d). done.
Qed.

Lemma all_known_rx tables (dimensions : odict TermObj) rollup :
  forallb (known tables) (expr <$> dimensions.*2) = true →
  forallb (known tables) (rx_of dimensions rollup) = true.
Proof.
  unfold rx_of. rewrite !forallb_forall.
  intros H t Ht. apply list_elem_of_In, list_elem_of_fmap in Ht.
  destruct Ht as ([key d] & -> & Hkd). rewrite known_as_.
  apply list_elem_of_filter in Hkd as [_ Hkd].
  apply H, list_elem_of_In, list_elem_of_fmap. exists d. split; [done|].
  apply list_elem_of_fmap. exists (key, d). done.
Qed.

Lemma all_known_mx tables (metrics : odict Term) :
  forallb (known tables) (metrics.*2) = true →
  forallb (known tables) (mx_of metrics) = true.
Proof.
  unfold mx_of. rewrite !forallb_forall.
  intros H t Ht. apply list_elem_of_In, list_elem_of_fmap in Ht.
  destruct Ht as ([key m] & -> & Hkm). rewrite known_as_.
  apply H, list_elem_of_In, list_elem_of_fmap. exists (key, m). done.
Qed.

Lemma select_base_runs table joins metrics dimensions mfilters dfilters
    rollup :
  (strict →
   request_closed table joins metrics dimensions mfilters dfilters = true) →
  joins_valid [table] joins = true →
  forallb (known (tables_of table joins)) (metrics.*2) = true →
  forallb (known (tables_of table joins)) (expr <$> dimensions.*2) = true →
  ∃ q h,
    select_base table joins metrics dimensions rollup empty_heap = Ok (q, h)
    ∧ Inv strict no_filters q h
    ∧ objects h !! q
      = Some (base_object table joins metrics dimensions rollup).
Proof.
  intros Hclosed Hjv Hmv Hdv.
  assert (Hc : strict →
            table_locs table = []
            ∧ Forall (λ j, adds_no_refs (add_join (join_of j))) joins
            ∧ all_closed (dx_of dimensions rollup) = true
            ∧ all_closed (rx_of dimensions rollup) = true
            ∧ all_closed (mx_of metrics) = true).
  { intros Hs. specialize (Hclosed Hs). unfold request_closed in Hclosed.
    rewrite !andb_true_iff, bool_decide_eq_true in Hclosed.
    destruct Hclosed as [[[[[Htable Hjoins] Hmetrics] Hdims] _] _].
    split; [exact Htable|].
    split; [|auto using all_closed_dx, all_closed_rx, all_closed_mx].
    apply Forall_forall. intros j Hj. apply adds_no_refs_join.
    rewrite forallb_forall in Hjoins.
    apply Hjoins, list_elem_of_In, Hj. }
  set (init := {| _from := table; _joins := []; _selects := [];
                  _groupbys := []; _orderbys := [];
                  _wheres := None; _havings := None |}).
  set (h0 := {| objects := <[0 := init]> ∅; next := 1 |}).
  assert (HI0 : Inv strict no_filters 0 h0).
  { split; cbn.
    - rewrite lookup_insert_eq. eauto.
    - intros a o. rewrite lookup_insert_Some, lookup_empty.
      intros [[<- <-]|[_ [=]]]. split; reflexivity.
    - intros Hs a o; cbn. rewrite lookup_insert_Some, lookup_empty.
      intros [[<- <-]|[_ [=]]]. split; [lia|].
      unfold query_refs, query_locs. cbn.
      rewrite (proj1 (Hc Hs)). constructor.
    - intros Hs a o. rewrite lookup_insert_Some, lookup_empty.
      intros [[<- <-]|[_ [=]]].
      unfold query_refs, query_locs. cbn.
      rewrite (proj1 (Hc Hs)). constructor. }
  assert (Ho0 : objects h0 !! 0 = Some init) by apply lookup_insert_eq.
  assert (Hrun : runs strict no_filters
            (query ← for_each joins 0
               (λ query '(join_table, criterion, join_type),
                  on in_place (join query join_table join_type) criterion);
             query ← match dx_of dimensions rollup with
                     | [] => mret query
                     | _ => query ← select in_place query
                                      (dx_of dimensions rollup);
                            groupby in_place query (dx_of dimensions rollup)
                     end;
             query ← match rx_of dimensions rollup with
                     | [] => mret query
                     | _ => query ← select in_place query
                                      (rx_of dimensions rollup);
                            rollup_ in_place query (rx_of dimensions rollup)
                     end;
             select in_place query (mx_of metrics)) 0 h0
            (λ q h, objects h !! q
                    = Some (base_object table joins metrics dimensions
                              rollup))).
  { eapply runs_bind.
    { apply (joins_run strict in_place no_filters joins 0 h0 init);
        [intros Hs; apply (Hc Hs)|intros j o Ho; exact Ho|exact Hjv
        |exact HI0|exact Ho0]. }
    cbn beta. intros q1 h1 _ HI1 Ho1. rewrite foldl_add_join in Ho1.
    eapply runs_bind with
      (mid := λ q h, ∃ o, objects h !! q = Some o
                ∧ _from o = table ∧ _joins o = join_of <$> joins
                ∧ _selects o = dx_of dimensions rollup
                ∧ _groupbys o = dx_of dimensions rollup
                ∧ _orderbys o = []
                ∧ no_filters o).
    { destruct (dx_of dimensions rollup) as [|t ts] eqn:Edx.
      - apply runs_ret; [exact HI1|]. eexists. split; [exact Ho1|].
        cbn. repeat split; reflexivity.
      - rewrite <- Edx in *. eapply runs_bind.
        + refine (select_runs strict in_place no_filters _ _ _ _ _ _ _
                    HI1 Ho1).
          * intros Hs. apply (Hc Hs).
          * split; reflexivity.
          * erewrite available_of_request by reflexivity.
            apply all_known_dx, Hdv.
        + cbn beta. intros q2 h2 _ HI2 Ho2. eapply runs_weaken.
          * apply closed_builder_runs; eauto.
            -- intros Hs. apply adds_no_refs_groupbys, (Hc Hs).
            -- split; reflexivity.
          * cbn beta. intros q3 h3 _ _ Ho3. eexists. split; [exact Ho3|].
            cbn. repeat split; reflexivity. }
    cbn beta.
    intros q2 h2 _ HI2 (o2 & Ho2 & Hf & Hj & Hs & Hg & Ho & Hn).
    eapply runs_bind with
      (mid := λ q h, ∃ o, objects h !! q = Some o
                ∧ _from o = table ∧ _joins o = join_of <$> joins
                ∧ _selects o = dx_of dimensions rollup
                               ++ rx_of dimensions rollup
                ∧ _groupbys o = dx_of dimensions rollup
                                ++ rollup_term (rx_of dimensions rollup)
                ∧ _orderbys o = []
                ∧ no_filters o).
    { destruct (rx_of dimensions rollup) as [|t ts] eqn:Erx.
      - apply runs_ret; [exact HI2|]. eexists. split; [exact Ho2|].
        cbn [rollup_term]. rewrite !app_nil_r.
        repeat split; assumption || apply Hn.
      - rewrite <- Erx in *. eapply runs_bind.
        + refine (select_runs strict in_place no_filters _ _ _ _ _ _ _
                    HI2 Ho2).
          * intros Hst. apply (Hc Hst).
          * exact Hn.
          * rewrite (available_of_request joins o2 table Hf Hj).
            apply all_known_rx, Hdv.
        + cbn beta. intros q3 h3 _ HI3 Ho3. eapply runs_weaken.
          * apply closed_builder_runs; eauto.
            -- intros Hst. apply adds_no_refs_rollup, (Hc Hst).
            -- exact Hn.
          * cbn beta. intros q4 h4 _ _ Ho4. eexists. split; [exact Ho4|].
            cbn. rewrite Hs, Hg, rollup_term_cons by congruence.
            repeat split; assumption || apply Hn. }
    cbn beta.
    intros q3 h3 _ HI3
           (o3 & Ho3 & Hf3 & Hj3 & Hs3 & Hg3 & Hob3 & Hn3).
    eapply runs_weaken.
    { refine (select_runs strict in_place no_filters _ _ _ _ _ _ _
                HI3 Ho3).
      - intros Hst. apply (Hc Hst).
      - exact Hn3.
      - rewrite (available_of_request joins o3 table Hf3 Hj3).
        apply all_known_mx, Hmv. }
    cbn beta. intros q4 h4 _ _ Ho4. rewrite Ho4. f_equal.
    unfold base_object, add_selects.
    destruct Hn3 as [Hw3 Hh3].
    rewrite Hf3, Hj3, Hs3, Hg3, Hob3, Hw3, Hh3, <- app_assoc.
    reflexivity. }
  destruct Hrun as (q & h & Hrun & _ & HI & Ho).
  exists q, h. split; [|split; assumption].
  rewrite <- Hrun. unfold select_base.
  unfold mbind at 1, M_bind at 1.
  change (from_ table empty_heap) with (Ok (0, h0)). reflexivity.
Qed.
End BasePhase.

(** *** One comparison *)

Lemma advances_fresh q h q' h' rq :
  advances q h q' h' → rq < next h → rq ≠ q →
  rq < next h' ∧ rq ≠ q'.
Proof. intros (Hn & [->|Hq] & _) Hlt Hne; split; lia || assumption. Qed.

(** What the outer query keeps through the comparisons: everything but
    its joins and selected columns, which only grow. *)
Definition extends (o o' : QueryBuilder) : Prop :=
  _from o' = _from o
  ∧ (∃ joins, _joins o' = _joins o ++ joins)
  ∧ (∃ terms, _selects o' = _selects o ++ terms)
  ∧ _groupbys o' = _groupbys o
  ∧ _orderbys o' = _orderbys o
  ∧ _wheres o' = _wheres o
  ∧ _havings o' = _havings o.

Lemma extends_refl o : extends o o.
Proof.
  repeat split; try reflexivity; exists []; rewrite app_nil_r; reflexivity.
Qed.

Lemma extends_trans o1 o2 o3 : extends o1 o2 → extends o2 o3 → extends o1 o3.
Proof.
  intros (Hf & [js Hj] & [ts Hs] & Hg & Ho & Hw & Hh)
         (Hf' & [js' Hj'] & [ts' Hs'] & Hg' & Ho' & Hw' & Hh').
  repeat split; try congruence.
  - exists (js ++ js'). rewrite Hj', Hj, app_assoc. reflexivity.
  - exists (ts ++ ts'). rewrite Hs', Hs, app_assoc. reflexivity.
Qed.

Lemma extends_available o o' : extends o o' → available o ⊆ available o'.
Proof.
  intros (Hf & [js Hj] & _). unfold available. rewrite Hf, Hj, fmap_app.
  intros t Ht. apply elem_of_cons in Ht as [->|Ht]; [left|right].
  apply elem_of_app. auto.
Qed.

Lemma match_nil {A B} (l : list A) (x y : B) :
  match l with [] => x | _ => y end = if bool_decide (l = []) then x else y.
Proof. destruct l; reflexivity. Qed.

Section Comparisons.
Variable strict : Prop.
Variable in_place : bool.
Variable metrics : odict Term.
Variable dimensions : odict TermObj.
Hypothesis metrics_closed : strict → all_closed (metrics.*2) = true.
Hypothesis dimensions_closed :
  strict → all_closed (expr <$> dimensions.*2) = true.
Variable tables : list Table.
Hypothesis metrics_known : forallb (known tables) (metrics.*2) = true.

(** The columns a comparison adds to the outer query. *)
Definition dimension_columns (reference_key : string) (rq : Loc) : list Term :=
  map (λ '(key, dimension),
         as_ (field (SubQuery rq) key) (key +:+ "_" +:+ reference_key))
      dimensions.

Definition metric_columns (reference_key : string)
    (field_f : Term → Term → Term) (rq : Loc) : list Term :=
  map (λ '(key, metric),
         as_ (field_f metric (field (SubQuery rq) key))
             (key +:+ "_" +:+ reference_key))
      metrics.

(** The statements of the loop body after the join criterion is
    built. *)
Definition attach_comparison (reference_key : string)
    (field_f : Term → Term → Term) (rq : Loc) (cx : Term) (query : Loc)
    : M Loc :=
  query ← on in_place (join query (SubQuery rq) inner) cx;
  query ← match dimensions with
          | [] => mret query
          | _ => select in_place query (dimension_columns reference_key rq)
          end;
  select in_place query (metric_columns reference_key field_f rq).

Definition comparison_added (reference_key : string)
    (field_f : Term → Term → Term) (rq : Loc) (cx : Term)
    (o : QueryBuilder) : QueryBuilder :=
  add_selects (metric_columns reference_key field_f rq)
    (add_selects (dimension_columns reference_key rq)
       (add_join {| join_item := SubQuery rq; join_how := inner;
                    join_on := cx |} o)).

Lemma add_comparison_eq query reference_key dimension_key criterion_f
    field_f rq cx h h1 :
  _get_reference_mappers reference_key = Ok (criterion_f, field_f) →
  deepcopy query h = Ok (rq, h1) →
  _build_reference_join_criterion rq dimensions criterion_f dimension_key
    = Ok cx →
  add_comparison in_place metrics dimensions query
    (reference_key, dimension_key) h
  = attach_comparison reference_key field_f rq cx query h1.
Proof.
  intros Hm Hc Hcx. unfold add_comparison, attach_comparison.
  unfold mbind at 1, M_bind at 1, lift at 1. rewrite Hm.
  unfold mbind at 1, M_bind at 1. rewrite Hc.
  unfold mbind at 1, M_bind at 1, lift at 1. rewrite Hcx.
  reflexivity.
Qed.

Lemma extends_comparison_added reference_key field_f rq cx o :
  extends o (comparison_added reference_key field_f rq cx o).
Proof.
  repeat split; try reflexivity; cbn; eauto.
  rewrite <- app_assoc. eauto.
Qed.

Lemma dimension_columns_refs (P : Loc → Prop) reference_key rq :
  P rq → Forall (term_refs P) (dimension_columns reference_key rq).
Proof.
  intros Hrq. unfold dimension_columns. apply Forall_fmap, Forall_forall.
  intros [key d] _. cbn. repeat constructor. exact Hrq.
Qed.

Lemma metric_columns_refs (P : Loc → Prop) reference_key field_f rq :
  strict →
  (∀ a b, term_refs P a → term_refs P b → term_refs P (field_f a b)) →
  P rq → Forall (term_refs P) (metric_columns reference_key field_f rq).
Proof.
  intros Hs Hf Hrq. unfold metric_columns. apply Forall_fmap, Forall_forall.
  intros [key m] Hm. cbn. apply term_refs_as_, Hf.
  - apply closed_refs.
    pose proof (metrics_closed Hs) as Hc. unfold all_closed in Hc.
    rewrite forallb_forall in Hc.
    apply Hc, list_elem_of_In, list_elem_of_fmap.
    exists (key, m). done.
  - repeat constructor. exact Hrq.
Qed.

Lemma available_comparison_added reference_key field_f rq cx o :
  available (comparison_added reference_key field_f rq cx o)
  = available o ++ [SubQuery rq].
Proof. unfold comparison_added. apply available_add_join. Qed.

Lemma dimension_columns_known reference_key rq tables' :
  SubQuery rq ∈ tables' →
  forallb (known tables') (dimension_columns reference_key rq) = true.
Proof.
  intros Hrq. unfold dimension_columns. apply forallb_forall.
  intros t Ht. apply list_elem_of_In, list_elem_of_fmap in Ht.
  destruct Ht as ([key d] & -> & _). rewrite known_as_.
  apply known_spec. repeat constructor. exact Hrq.
Qed.

Lemma metric_columns_known reference_key field_f rq tables' :
  (∀ (P : option Table → Prop) a b,
     term_fields P a → term_fields P b → term_fields P (field_f a b)) →
  tables ⊆ tables' → SubQuery rq ∈ tables' →
  forallb (known tables') (metric_columns reference_key field_f rq) = true.
Proof.
  intros Hf Hsub Hrq. unfold metric_columns. apply forallb_forall.
  intros t Ht. apply list_elem_of_In, list_elem_of_fmap in Ht.
  destruct Ht as ([key m] & -> & Hm). rewrite known_as_.
  apply known_spec, Hf.
  - apply known_spec, (known_mono tables); [exact Hsub|].
    pose proof metrics_known as Hk. rewrite forallb_forall in Hk.
    apply Hk, list_elem_of_In, list_elem_of_fmap. exists (key, m). done.
  - repeat constructor. exact Hrq.
Qed.

Lemma attach_comparison_runs reference_key field_f rq cx q h o :
  Inv strict no_filters q h → objects h !! q = Some o →
  (strict → rq < next h ∧ rq ≠ q) →
  (strict → ∀ P : Loc → Prop, P rq → term_refs P cx) →
  (∀ (P : Loc → Prop) a b,
     term_refs P a → term_refs P b → term_refs P (field_f a b)) →
  qualified (SubQuery rq :: available o) cx = true →
  (∀ (P : option Table → Prop) a b,
     term_fields P a → term_fields P b → term_fields P (field_f a b)) →
  tables ⊆ available o →
  runs strict no_filters
       (attach_comparison reference_key field_f rq cx q) q h
       (λ q' h', objects h' !! q' =
                 Some (comparison_added reference_key field_f rq cx o)).
Proof.
  intros HI Ho Hfresh Hcx Hf Hvcx Hff Hsub.
  assert (Hnf : no_filters o) by (eapply inv_all; eauto).
  unfold attach_comparison, on, join, select.
  eapply runs_bind.
  { eapply runs_checked; [exact Ho|exact Hvcx|].
    apply builder_runs; eauto.
    intros Hs. destruct (Hfresh Hs).
    apply query_refs_add_join.
    split; [exact (outer_refs strict _ _ _ _ Hs HI Ho)|].
    unfold join_locs. cbn. apply Forall_cons. split; [auto|].
    apply Hcx; auto. }
  cbn beta. intros q1 h1 Hadv1 HI1 Ho1.
  assert (Hfresh1 : strict → rq < next h1 ∧ rq ≠ q1).
  { intros Hs. destruct (Hfresh Hs). eapply advances_fresh; eauto. }
  eapply runs_bind with
    (mid := λ q' h', objects h' !! q' =
              Some (add_selects (dimension_columns reference_key rq)
                      (add_join {| join_item := SubQuery rq;
                                   join_how := inner;
                                   join_on := cx |} o))).
  { rewrite match_nil. case_bool_decide as Edims.
    - apply runs_ret; [exact HI1|].
      unfold dimension_columns. rewrite Edims. cbn [map].
      rewrite add_selects_nil. exact Ho1.
    - eapply runs_checked; [exact Ho1| |].
      { apply dimension_columns_known. rewrite available_add_join.
        apply elem_of_snoc. }
      apply builder_runs; eauto.
      intros Hs. destruct (Hfresh1 Hs).
      apply query_refs_add_selects.
      split; [exact (outer_refs strict _ _ _ _ Hs HI1 Ho1)|].
      apply dimension_columns_refs. auto. }
  cbn beta. intros q2 h2 Hadv2 HI2 Ho2.
  assert (Hfresh2 : strict → rq < next h2 ∧ rq ≠ q2).
  { intros Hs. destruct (Hfresh1 Hs). eapply advances_fresh; eauto. }
  unfold comparison_added.
  eapply runs_checked; [exact Ho2| |].
  { apply metric_columns_known; [exact Hff| |];
      rewrite available_add_selects, available_add_join;
      [apply incl_app_l, Hsub|apply elem_of_snoc]. }
  apply (builder_runs strict no_filters in_place
           (add_selects (metric_columns reference_key field_f rq))
           q2 h2 _ HI2 Ho2); [|exact Hnf].
  intros Hs. destruct (Hfresh2 Hs).
  apply query_refs_add_selects.
  split; [exact (outer_refs strict _ _ _ _ Hs HI2 Ho2)|].
  apply metric_columns_refs; auto.
Qed.

Lemma odict_get_elem {V} (d : odict V) key v :
  odict_get d key = Ok v → (key, v) ∈ d.
Proof.
  induction d as [|[k v'] d IH]; cbn; [discriminate|].
  case_bool_decide as Hk.
  - intros [= ->]. subst. left.
  - intros H. right. auto.
Qed.

Lemma join_criterion_qualified rq criterion_f field_f reference_key
    dimension_key cx tables' :
  comparable tables dimensions = true →
  _get_reference_mappers reference_key = Ok (criterion_f, field_f) →
  _build_reference_join_criterion rq dimensions criterion_f dimension_key
    = Ok cx →
  tables ⊆ tables' →
  qualified (SubQuery rq :: tables') cx = true.
Proof.
  intros Hcmp Hm Hcx Hsub.
  assert (Hd : ∀ d, d ∈ dimensions.*2 →
                    term_fields (in_tables (SubQuery rq :: tables')) (expr d)).
  { intros d Hd. apply qualified_spec, (qualified_mono tables).
    - apply incl_cons_r, Hsub.
    - unfold comparable in Hcmp. rewrite forallb_forall in Hcmp.
      apply list_elem_of_In, Hcmp, andb_true_iff in Hd. tauto. }
  destruct (odict_get dimensions dimension_key) as [compared|e] eqn:Hget.
  2: { unfold _build_reference_join_criterion in Hcx.
       rewrite Hget in Hcx. discriminate. }
  rewrite (build_reference_join_criterion_and_all _ _ _ _ _ Hget
             (comparable_retargetable _ _ Hcmp)) in Hcx.
  injection Hcx as <-.
  apply qualified_spec, term_fields_and_all.
  - refine (proj1 (reference_mappers_fields _ _ _ _ Hm _ _ _ _)).
    + apply Hd, list_elem_of_fmap. exists (dimension_key, compared).
      split; [done|]. apply odict_get_elem, Hget.
    + repeat constructor.
  - apply Forall_fmap, Forall_forall. intros d Hin.
    apply list_elem_of_filter in Hin as [_ Hin].
    unfold same_in, term_fields. cbn. apply Forall_app. split.
    + apply Hd, Hin.
    + eapply Forall_impl; [apply fields_retarget|].
      intros f ->. left.
Qed.

Lemma join_criterion_refs (P : Loc → Prop) rq criterion_f field_f
    reference_key dimension_key cx :
  strict →
  comparable tables dimensions = true →
  _get_reference_mappers reference_key = Ok (criterion_f, field_f) →
  _build_reference_join_criterion rq dimensions criterion_f dimension_key
    = Ok cx →
  P rq → term_refs P cx.
Proof.
  intros Hs Hcmp Hm Hcx Hrq.
  assert (Hd : ∀ d, d ∈ dimensions.*2 → term_refs P (expr d)).
  { intros d Hd. apply closed_refs.
    pose proof (dimensions_closed Hs) as Hc. unfold all_closed in Hc.
    rewrite forallb_forall in Hc.
    apply Hc, list_elem_of_In, list_elem_of_fmap. eauto. }
  destruct (odict_get dimensions dimension_key) as [compared|e] eqn:Hget.
  2: { unfold _build_reference_join_criterion in Hcx.
       rewrite Hget in Hcx. discriminate. }
  rewrite (build_reference_join_criterion_and_all _ _ _ _ _ Hget
             (comparable_retargetable _ _ Hcmp)) in Hcx.
  injection Hcx as <-.
  apply term_refs_and_all.
  - refine (proj1 (reference_mappers_refs P _ _ _ Hm _ _ _ _)).
    + apply Hd, list_elem_of_fmap. exists (dimension_key, compared).
      split; [done|]. apply odict_get_elem, Hget.
    + repeat constructor. exact Hrq.
  - apply Forall_fmap, Forall_forall. intros d Hin.
    apply list_elem_of_filter in Hin as [_ Hin].
    unfold same_in, term_refs. cbn. apply Forall_app. split.
    + apply Hd, Hin.
    + apply term_refs_retarget, Hrq.
Qed.

Lemma add_comparison_runs reference q h o :
  reference_resolves dimensions reference = true →
  comparable tables dimensions = true → tables ⊆ available o →
  Inv strict no_filters q h → objects h !! q = Some o →
  ∃ criterion_f field_f cx h1,
    _get_reference_mappers reference.1 = Ok (criterion_f, field_f)
    ∧ deepcopy q h = Ok (q + next h, h1)
    ∧ _build_reference_join_criterion (q + next h) dimensions criterion_f
        reference.2 = Ok cx
    ∧ Inv strict no_filters q h1
    ∧ runs strict no_filters
        (add_comparison in_place metrics dimensions q reference) q h
        (λ q' h',
           advances q h1 q' h'
           ∧ objects h' !! q' =
             Some (comparison_added reference.1 field_f (q + next h) cx o)).
Proof.
  destruct reference as [reference_key dimension_key].
  unfold reference_resolves. cbn [fst snd]. rewrite andb_true_iff.
  intros [Hm Hd] Hcmp Hsub HI Ho.
  destruct (_get_reference_mappers reference_key) as [[cf ff]|] eqn:Emap;
    [|discriminate].
  destruct (odict_get dimensions dimension_key) as [compared|] eqn:Eget;
    [|discriminate].
  destruct (deepcopy_Ok q h o Ho) as (h1 & Hcopy & Hnext).
  pose proof (deepcopy_Inv _ _ _ _ _ _ no_filters_shift HI Hcopy) as HI1.
  pose proof (build_reference_join_criterion_and_all (q + next h) _ cf _ _
                Eget (comparable_retargetable _ _ Hcmp)) as Hcx.
  match type of Hcx with _ = Ok ?c => set (cx := c) in * end.
  exists cf, ff, cx, h1. split; [reflexivity|]. split; [exact Hcopy|].
  split; [exact Hcx|]. split; [exact HI1|].
  pose proof (deepcopy_lookup_kept _ _ _ _ _ _ Hcopy Ho) as Ho1.
  destruct (attach_comparison_runs reference_key ff (q + next h) cx q h1 o
              HI1 Ho1) as (q' & h' & Hrun & Hadv & HI' & Hpost).
  - intros Hs. pose proof (Inv_lt _ _ _ _ Hs HI). lia.
  - intros Hs P HP. eapply join_criterion_refs; eauto.
  - intros P a b Ha Hb.
    exact (proj2 (reference_mappers_refs P _ _ _ Emap a b Ha Hb)).
  - eapply join_criterion_qualified; eauto.
  - intros P a b Ha Hb.
    exact (proj2 (reference_mappers_fields P _ _ _ Emap a b Ha Hb)).
  - exact Hsub.
  - exists q', h'. split; [|split; [|split; [exact HI'|split; assumption]]].
    + rewrite (add_comparison_eq _ _ _ _ _ _ _ _ _ Emap Hcopy Hcx).
      exact Hrun.
    + eapply advances_trans; [|exact Hadv].
      eapply deepcopy_advances, Hcopy.
Qed.

(** *** The loop over the references *)

Lemma comparisons_run references q h o :
  references_resolve dimensions references = true →
  (references ≠ [] → comparable tables dimensions = true) →
  tables ⊆ available o →
  Inv strict no_filters q h → objects h !! q = Some o →
  runs strict no_filters
    (for_each references q (add_comparison in_place metrics dimensions))
    q h
    (λ q' h', ∃ o', objects h' !! q' = Some o' ∧ extends o o').
Proof.
  unfold references_resolve. revert q h o.
  induction references as [|reference references IH];
    intros q h o Hres Hcmp Hsub HI Ho.
  - apply runs_ret; [exact HI|]. eauto using extends_refl.
  - cbn in Hres. apply andb_true_iff in Hres as [Hr Hres].
    specialize (Hcmp ltac:(discriminate)).
    destruct (add_comparison_runs reference q h o Hr Hcmp Hsub HI Ho)
      as (cf & ff & cx & h1 & _ & _ & _ & _ & Hrun).
    cbn [for_each]. eapply runs_bind; [exact Hrun|].
    cbn beta. intros q1 h1' _ HI1 [_ Ho1].
    eapply runs_weaken.
    { apply (IH q1 h1' (comparison_added reference.1 ff (q + next h) cx o)
               Hres (λ _, Hcmp)); [|exact HI1|exact Ho1].
      rewrite available_comparison_added. apply incl_app_l, Hsub. }
    cbn beta. intros q2 h2 _ _ (o2 & Ho2 & Hext).
    exists o2. split; [exact Ho2|].
    eapply extends_trans; [apply extends_comparison_added|exact Hext].
Qed.
End Comparisons.

(** *** Ordering and filters *)

Lemma add_orderbys_nil o : add_orderbys [] o = o.
Proof.
  destruct o. unfold add_orderbys. cbn. rewrite app_nil_r. reflexivity.
Qed.

Lemma foldl_add_where (criteria : list Term) o :
  foldl (λ o c, add_where c o) o criteria
  = {| _from := _from o; _joins := _joins o; _selects := _selects o;
       _groupbys := _groupbys o;
       _orderbys := _orderbys o;
       _wheres := foldl and_onto (_wheres o) criteria;
       _havings := _havings o |}.
Proof.
  revert o. induction criteria as [|c cs IH]; intros o; cbn [foldl].
  - destruct o. reflexivity.
  - rewrite IH. reflexivity.
Qed.

Lemma foldl_add_having (criteria : list Term) o :
  foldl (λ o c, add_having c o) o criteria
  = {| _from := _from o; _joins := _joins o; _selects := _selects o;
       _groupbys := _groupbys o;
       _orderbys := _orderbys o; _wheres := _wheres o;
       _havings := foldl and_onto (_havings o) criteria |}.
Proof.
  revert o. induction criteria as [|c cs IH]; intros o; cbn [foldl].
  - destruct o. reflexivity.
  - rewrite IH. reflexivity.
Qed.

Lemma runs_mono (strict : Prop) (Φ Ψ : QueryBuilder → Prop) c q h post :
  (∀ o, Φ o → Ψ o) → runs strict Φ c q h post → runs strict Ψ c q h post.
Proof.
  intros HΦ (q' & h' & Hc & Hadv & HI & Hp).
  exists q', h'. eauto using Inv_weaken.
Qed.

Section WholeRun.
Variable strict : Prop.
Variable in_place : bool.
Variable table : Table.
Variable joins : list (Table * Term * JoinType).
Variable metrics : odict Term.
Variable dimensions : odict TermObj.
Variable mfilters dfilters : list Term.
Variable rollup : list string.
Hypothesis closed_request :
  strict →
  request_closed table joins metrics dimensions mfilters dfilters = true.
Hypothesis valid_joins : joins_valid [table] joins = true.
Hypothesis metrics_known :
  forallb (known (tables_of table joins)) (metrics.*2) = true.
Hypothesis dimensions_known :
  forallb (known (tables_of table joins)) (expr <$> dimensions.*2) = true.

Lemma closed_request_parts :
  strict →
  all_closed (metrics.*2) = true
  ∧ all_closed (expr <$> dimensions.*2) = true
  ∧ all_closed mfilters = true
  ∧ all_closed dfilters = true.
Proof.
  intros Hs. specialize (closed_request Hs).
  unfold request_closed in closed_request.
  rewrite !andb_true_iff in closed_request. tauto.
Qed.

(** The outer query once ordering and filters are applied. *)
Definition finished (o : QueryBuilder) : QueryBuilder :=
  {| _from := _from o; _joins := _joins o; _selects := _selects o;
     _groupbys := _groupbys o;
     _orderbys := _orderbys o ++ dx_of dimensions rollup
                  ++ rx_of dimensions rollup;
     _wheres := foldl and_onto (_wheres o) dfilters;
     _havings := foldl and_onto (_havings o) mfilters |}.

Lemma order_and_filter_runs q h o :
  Inv strict (λ _, True) q h → objects h !! q = Some o →
  runs strict (λ _, True)
       (order_and_filter in_place dimensions rollup mfilters dfilters q) q h
       (λ q' h', objects h' !! q' = Some (finished o)).
Proof.
  intros HI Ho. unfold order_and_filter.
  eapply runs_bind with
    (mid := λ q' h', objects h' !! q' =
              Some (add_orderbys (dx_of dimensions rollup) o)).
  { rewrite match_nil. case_bool_decide as E.
    - apply runs_ret; [exact HI|]. rewrite E, add_orderbys_nil. exact Ho.
    - apply closed_builder_runs; auto.
      intros Hs. apply adds_no_refs_orderbys, all_closed_dx.
      apply (closed_request_parts Hs). }
  cbn beta. intros q1 h1 _ HI1 Ho1.
  eapply runs_bind with
    (mid := λ q' h', objects h' !! q' =
              Some (add_orderbys (rx_of dimensions rollup)
                      (add_orderbys (dx_of dimensions rollup) o))).
  { rewrite match_nil. case_bool_decide as E.
    - apply runs_ret; [exact HI1|]. rewrite E, add_orderbys_nil. exact Ho1.
    - apply closed_builder_runs; auto.
      intros Hs. apply adds_no_refs_orderbys, all_closed_rx.
      apply (closed_request_parts Hs). }
  cbn beta. intros q2 h2 _ HI2 Ho2.
  eapply runs_bind.
  { assert (E : match dfilters with
                | [] => mret q2
                | _ => for_each dfilters q2 (where_ in_place)
                end = for_each dfilters q2
                        (λ q c, builder in_place (add_where c) q))
      by (destruct dfilters; reflexivity).
    rewrite E. apply for_each_builder_runs; eauto.
    intros Hs. destruct (closed_request_parts Hs) as (_ & _ & _ & Hd).
    apply Forall_forall. intros c Hc. apply adds_no_refs_where.
    unfold all_closed in Hd. rewrite forallb_forall in Hd.
    apply Hd, list_elem_of_In, Hc. }
  cbn beta. intros q3 h3 _ HI3 Ho3.
  eapply runs_bind.
  { assert (E : match mfilters with
                | [] => mret q3
                | _ => for_each mfilters q3 (having in_place)
                end = for_each mfilters q3
                        (λ q c, builder in_place (add_having c) q))
      by (destruct mfilters; reflexivity).
    rewrite E. apply for_each_builder_runs; eauto.
    intros Hs. destruct (closed_request_parts Hs) as (_ & _ & Hm & _).
    apply Forall_forall. intros c Hc. apply adds_no_refs_having.
    unfold all_closed in Hm. rewrite forallb_forall in Hm.
    apply Hm, list_elem_of_In, Hc. }
  cbn beta. intros q4 h4 _ HI4 Ho4.
  apply runs_ret; [exact HI4|].
  rewrite Ho4, foldl_add_having, foldl_add_where. cbn.
  unfold finished. rewrite <- app_assoc. reflexivity.
Qed.

(** [_build_query] up to a reference: the base phase and the
    comparisons of the references before it. *)
Definition query_before_reference (earlier : odict string) : M Loc :=
  query ← select_base in_place table joins metrics dimensions rollup;
  for_each earlier query (add_comparison in_place metrics dimensions).

(** [_build_query] from a reference on. *)
Definition query_from_reference (later : odict string) (query : Loc)
    : M Loc :=
  query ← for_each later query (add_comparison in_place metrics dimensions);
  order_and_filter in_place dimensions rollup mfilters dfilters query.

Lemma build_query_split earlier later h :
  _build_query in_place table joins metrics dimensions mfilters dfilters
    (earlier ++ later) rollup h
  = (query ← query_before_reference earlier;
     query_from_reference later query) h.
Proof.
  rewrite build_query_phases.
  unfold query_before_reference, query_from_reference.
  rewrite bind_assoc. apply bind_ext. intros q h'.
  rewrite <- bind_assoc.
  unfold mbind at 1 3, M_bind at 1 3. rewrite for_each_app. reflexivity.
Qed.

Lemma query_from_reference_cons reference later q h :
  query_from_reference (reference :: later) q h
  = (query ← add_comparison in_place metrics dimensions q reference;
     query_from_reference later query) h.
Proof.
  unfold query_from_reference. cbn [for_each]. apply bind_assoc.
Qed.

Lemma references_resolve_app earlier later :
  references_resolve dimensions (earlier ++ later)
  = references_resolve dimensions earlier
    && references_resolve dimensions later.
Proof. apply forallb_app. Qed.

Lemma query_before_reference_runs earlier :
  references_resolve dimensions earlier = true →
  (earlier ≠ [] → comparable (tables_of table joins) dimensions = true) →
  ∃ q h o,
    query_before_reference earlier empty_heap = Ok (q, h)
    ∧ Inv strict no_filters q h
    ∧ objects h !! q = Some o
    ∧ extends (base_object table joins metrics dimensions rollup) o.
Proof.
  intros Hres Hcmp.
  destruct (select_base_runs strict in_place table joins metrics dimensions
              mfilters dfilters rollup closed_request valid_joins
              metrics_known dimensions_known)
    as (q0 & h0 & Hbase & HI0 & Ho0).
  destruct (comparisons_run strict in_place metrics dimensions
              (λ Hs, proj1 (closed_request_parts Hs))
              (λ Hs, proj1 (proj2 (closed_request_parts Hs)))
              (tables_of table joins) metrics_known
              earlier q0 h0 _ Hres Hcmp
              (λ t Ht, eq_ind_r (λ l, t ∈ l) Ht
                         (available_base_object _ _ _ _ _)) HI0 Ho0)
    as (q & h & Hrun & _ & HI & o & Ho & Hext).
  exists q, h, o. split; [|auto].
  unfold query_before_reference, mbind, M_bind. rewrite Hbase. exact Hrun.
Qed.

Lemma query_from_reference_runs later q h o :
  references_resolve dimensions later = true →
  (later ≠ [] → comparable (tables_of table joins) dimensions = true) →
  tables_of table joins ⊆ available o →
  Inv strict no_filters q h → objects h !! q = Some o →
  runs strict (λ _, True) (query_from_reference later q) q h
       (λ q' h', ∃ o', extends o o'
                       ∧ objects h' !! q' = Some (finished o')).
Proof.
  intros Hres Hcmp Hsub HI Ho. unfold query_from_reference.
  eapply runs_bind.
  { eapply runs_mono; [intros; exact I|].
    exact (comparisons_run strict in_place metrics dimensions
             (λ Hs, proj1 (closed_request_parts Hs))
             (λ Hs, proj1 (proj2 (closed_request_parts Hs)))
             (tables_of table joins) metrics_known
             later q h o Hres Hcmp Hsub HI Ho). }
  cbn beta. intros q1 h1 _ HI1 (o1 & Ho1 & Hext).
  eapply runs_weaken; [apply order_and_filter_runs; eauto|].
  cbn beta. eauto.
Qed.
End WholeRun.

(** ** The compiled query around one reference *)



Section AtReference.
Variable strict : Prop.
Variable in_place : bool.
Variable table : Table.
Variable joins : list (Table * Term * JoinType).
Variable metrics : odict Term.
Variable dimensions : odict TermObj.
Variable mfilters dfilters : list Term.
Variable rollup : list string.
Hypothesis closed_request :
  strict →
  request_closed table joins metrics dimensions mfilters dfilters = true.
Hypothesis valid_joins : joins_valid [table] joins = true.
Hypothesis metrics_known :
  forallb (known (tables_of table joins)) (metrics.*2) = true.
Hypothesis dimensions_known :
  forallb (known (tables_of table joins)) (expr <$> dimensions.*2) = true.

(** The run of [_build_query], cut where the comparison of [reference]
    copies the query compiled so far. *)
Lemma build_query_at_reference earlier reference later :
  references_resolve dimensions (earlier ++ reference :: later) = true →
  comparable (tables_of table joins) dimensions = true →
  ∃ q0 h0 o0 criterion_f field_f cx h1 qf hf o',
    query_before_reference in_place table joins metrics dimensions rollup
      earlier empty_heap = Ok (q0, h0)
    ∧ Inv strict no_filters q0 h0
    ∧ objects h0 !! q0 = Some o0
    ∧ extends (base_object table joins metrics dimensions rollup) o0
    ∧ _get_reference_mappers reference.1 = Ok (criterion_f, field_f)
    ∧ deepcopy q0 h0 = Ok (q0 + next h0, h1)
    ∧ _build_reference_join_criterion (q0 + next h0) dimensions
        criterion_f reference.2 = Ok cx
    ∧ Inv strict no_filters q0 h1
    ∧ _build_query in_place table joins metrics dimensions mfilters
        dfilters (earlier ++ reference :: later) rollup empty_heap
      = Ok (qf, hf)
    ∧ advances q0 h1 qf hf
    ∧ extends (comparison_added metrics dimensions reference.1 field_f
                 (q0 + next h0) cx o0) o'
    ∧ objects hf !! qf
      = Some (finished dimensions mfilters dfilters rollup o').
Proof.
  rewrite references_resolve_app. cbn [references_resolve forallb].
  fold (references_resolve dimensions later).
  rewrite !andb_true_iff. intros (Hearlier & Href & Hlater) Hcmp.
  pose proof (λ Hs, closed_request_parts _ _ _ _ _ _ _ closed_request Hs)
    as Hparts.
  destruct (query_before_reference_runs strict in_place table joins metrics
              dimensions mfilters dfilters rollup closed_request
              valid_joins metrics_known dimensions_known earlier
              Hearlier (λ _, Hcmp))
    as (q0 & h0 & o0 & Hbefore & HI0 & Ho0 & Hext0).
  assert (Hsub0 : tables_of table joins ⊆ available o0).
  { rewrite <- (available_base_object table joins metrics dimensions rollup).
    apply extends_available, Hext0. }
  destruct (add_comparison_runs strict in_place metrics dimensions
              (λ Hs, proj1 (Hparts Hs)) (λ Hs, proj1 (proj2 (Hparts Hs)))
              (tables_of table joins) metrics_known
              reference q0 h0 o0 Href Hcmp Hsub0 HI0 Ho0)
    as (cf & ff & cx & h1 & Hmap & Hcopy & Hcx & HI1
        & q1 & h1' & Hrun & _ & HI1' & Hadv1 & Ho1).
  destruct (query_from_reference_runs strict in_place table joins metrics
              dimensions mfilters dfilters rollup closed_request
              metrics_known later
              q1 h1' _ Hlater (λ _, Hcmp)
              ltac:(rewrite available_comparison_added;
                    apply incl_app_l, Hsub0) HI1' Ho1)
    as (qf & hf & Hrest & Hadv & _ & o' & Hext & Hof).
  exists q0, h0, o0, cf, ff, cx, h1, qf, hf, o'.
  repeat (split; [assumption|]).
  split; [|split; [eauto using advances_trans|split; assumption]].
  rewrite build_query_split. unfold mbind at 1, M_bind at 1.
  rewrite Hbefore, query_from_reference_cons.
  unfold mbind, M_bind. rewrite Hrun. exact Hrest.
Qed.

(** The whole run. *)
Lemma build_query_runs references :
  references_resolve dimensions references = true →
  (references ≠ [] → comparable (tables_of table joins) dimensions = true) →
  ∃ qf hf o',
    _build_query in_place table joins metrics dimensions mfilters dfilters
      references rollup empty_heap = Ok (qf, hf)
    ∧ extends (base_object table joins metrics dimensions rollup) o'
    ∧ objects hf !! qf
      = Some (finished dimensions mfilters dfilters rollup o').
Proof.
  intros Hres Hcmp.
  destruct (query_before_reference_runs strict in_place table joins metrics
              dimensions mfilters dfilters rollup closed_request
              valid_joins metrics_known dimensions_known []
              eq_refl (λ H, False_ind _ (H eq_refl)))
    as (q0 & h0 & o0 & Hbefore & HI0 & Ho0 & Hext0).
  assert (Hsub0 : tables_of table joins ⊆ available o0).
  { rewrite <- (available_base_object table joins metrics dimensions rollup).
    apply extends_available, Hext0. }
  destruct (query_from_reference_runs strict in_place table joins metrics
              dimensions mfilters dfilters rollup closed_request
              metrics_known references
              q0 h0 _ Hres Hcmp Hsub0 HI0 Ho0)
    as (qf & hf & Hrest & Hadv & _ & o' & Hext & Hof).
  exists qf, hf, o'. split; [|eauto using extends_trans].
  change references with ([] ++ references).
  rewrite build_query_split. unfold mbind, M_bind.
  rewrite Hbefore. exact Hrest.
Qed.
End AtReference.

(** *** What a deep copy copies

    [reach] finds every object reachable from the copied one: a copy
    leaves no reference to an original behind. *)







(** ** The compiled query *)

Lemma alias_of_as_ t alias : alias_of (as_ t alias) = Some alias.
Proof. destruct t; reflexivity. Qed.

Lemma query_data_Ok in_place table joins metrics dimensions mfilters dfilters
    references rollup qf hf o :
  _build_query in_place table (or_dict joins) (or_dict metrics)
    (or_dict dimensions) (or_dict mfilters) (or_dict dfilters)
    (or_dict references) (or_dict rollup) empty_heap = Ok (qf, hf) →
  objects hf !! qf = Some o →
  _query_data in_place table joins metrics dimensions mfilters dfilters
    references rollup empty_heap
  = Ok ({| fetch_query := qf; fetch_columns := select_aliases o;
           fetch_index := groupby_aliases o |}, hf).
Proof.
  intros Hbuild Ho. unfold _query_data, mbind, M_bind.
  rewrite Hbuild. unfold read. rewrite Ho. reflexivity.
Qed.

(** Sample metrics and dimensions whose fields are given no table:
    clicks per day and device. *)
Definition sample_metrics : odict Term :=
  [("clicks", Function "SUM" [Field "clicks" None])].

Definition sample_dimensions : odict TermObj :=
  [("date", {| ident := 1; expr := Function "ROUND" [Field "dt" None] |});
   ("device", {| ident := 2; expr := Field "device" None |})].

(** A request over the table [events]: clicks per day and locale; the
    dimension [locale] is the column [loc]. *)
Definition events : Table := BaseTable "events".

Definition events_metrics : odict Term :=
  [("clicks", Function "SUM" [Field "clicks" (Some events)])].

Definition events_dimensions : odict TermObj :=
  [("date",
    {| ident := 1; expr := Function "ROUND" [Field "dt" (Some events)] |});
   ("locale", {| ident := 2; expr := Field "loc" (Some events) |})].

(** Clicks above ten, in the locale 1. *)
Definition events_mfilters : list Term :=
  [BasicCriterion gt (Function "SUM" [Field "clicks" (Some events)])
                  (ValueWrapper 10)].

Definition events_dfilters : list Term :=
  [BasicCriterion eq (Field "loc" (Some events)) (ValueWrapper 1)].

Lemma request_valid_parts table joins metrics dimensions mfilters dfilters
    references :
  request_valid table joins metrics dimensions mfilters dfilters references
  = true →
  joins_valid [table] joins = true
  ∧ forallb (known (tables_of table joins)) (metrics.*2) = true
  ∧ forallb (known (tables_of table joins)) (expr <$> dimensions.*2) = true
  ∧ (references ≠ [] → comparable (tables_of table joins) dimensions = true).
Proof.
  unfold request_valid. rewrite !andb_true_iff, orb_true_iff.
  rewrite bool_decide_eq_true.
  intros [[[[[Hj Hm] Hd] _] _] Hr]. repeat split; try assumption.
  intros Hne. destruct Hr; [contradiction|assumption].
Qed.

Lemma name_of_as_ t key : key ≠ "" → name_of (as_ t key) = Aliased key.
Proof.
  intros Hkey. unfold name_of. rewrite alias_of_as_.
  destruct key; [contradiction|reflexivity].
Qed.

Lemma names_of_columns (l : odict TermObj) :
  "" ∉ l.*1 →
  name_of <$> map (λ '(key, dimension), as_ (expr dimension) key) l
  = Aliased <$> l.*1.
Proof.
  induction l as [|[key d] l IH]; [reflexivity|].
  cbn. rewrite not_elem_of_cons. intros [Hkey Hl].
  rewrite name_of_as_ by congruence. f_equal. apply IH, Hl.
Qed.

Lemma rollup_name (l : odict TermObj) :
  name_of <$> rollup_term (map (λ '(key, dimension), as_ (expr dimension) key)
                               l)
  = match l with
    | [] => []
    | kd :: l' =>
        [Text (Rollup (map (λ '(key, dimension), as_ (expr dimension) key)
                           (kd :: l')))]
    end.
Proof. destruct l as [|[key d] l]; reflexivity. Qed.

Lemma not_elem_of_filter_keys {V} (P : string * V → Prop)
    `{∀ kv, Decision (P kv)} (l : odict V) key :
  key ∉ l.*1 → key ∉ (filter P l).*1.
Proof.
  intros Hkey Hin. apply Hkey.
  apply list_elem_of_fmap in Hin as (kv & -> & Hkv).
  apply list_elem_of_filter in Hkv as [_ Hkv].
  apply list_elem_of_fmap_2, Hkv.
Qed.

(** C8: for a request that passes the checks of the query builder, the
    compiled query is ordered by the non-rollup dimension columns, in the
    order of the dimensions, and then by the rollup dimension columns.
    The index handed to the database is the non-rollup dimension keys in
    that order, followed, when a dimension is rolled up, by one name: the
    text of the [ROLLUP] term of the rollup dimension columns, not the
    rollup dimension keys. *)
Theorem ordering_and_index (in_place : bool) (table : Table)
    (joins : option (list (Table * Term * JoinType)))
    (metrics : option (odict Term)) (dimensions : option (odict TermObj))
    (mfilters dfilters : option (list Term))
    (references : option (odict string)) (rollup : option (list string)) :
  request_valid table (or_dict joins) (or_dict metrics) (or_dict dimensions)
    (or_dict mfilters) (or_dict dfilters) (or_dict references) = true →
  references_resolve (or_dict dimensions) (or_dict references) = true →
  "" ∉ (or_dict dimensions).*1 →
  ∃ fetch hf o,
    _query_data in_place table joins metrics dimensions mfilters dfilters
      references rollup empty_heap = Ok (fetch, hf)
    ∧ objects hf !! fetch_query fetch = Some o
    ∧ _orderbys o =
        map (λ '(key, dimension), as_ (expr dimension) key)
            (filter (λ kd, kd.1 ∉ or_dict rollup) (or_dict dimensions))
        ++ map (λ '(key, dimension), as_ (expr dimension) key)
               (filter (λ kd, kd.1 ∈ or_dict rollup) (or_dict dimensions))
    ∧ fetch_index fetch =
        (Aliased <$> (filter (λ kd, kd.1 ∉ or_dict rollup)
                             (or_dict dimensions)).*1)
        ++ match filter (λ kd, kd.1 ∈ or_dict rollup) (or_dict dimensions)
           with
           | [] => []
           | rolled_up =>
               [Text (Rollup (map (λ '(key, dimension),
                                     as_ (expr dimension) key) rolled_up))]
           end.
Proof.
  intros Hvalid Hres Hkeys.
  destruct (request_valid_parts _ _ _ _ _ _ _ Hvalid)
    as (Hj & Hm & Hd & Hcmp).
  destruct (build_query_runs False in_place table (or_dict joins)
              (or_dict metrics) (or_dict dimensions) (or_dict mfilters)
              (or_dict dfilters) (or_dict rollup) (λ H, False_ind _ H)
              Hj Hm Hd (or_dict references) Hres Hcmp)
    as (qf & hf & o' & Hbuild & Hext & Ho).
  destruct Hext as (_ & _ & _ & Hg & Hob & _ & _).
  eexists _, hf, _. split; [exact (query_data_Ok _ _ _ _ _ _ _ _ _ _ _ _
                                     Hbuild Ho)|].
  split; [exact Ho|].
  unfold groupby_aliases, finished.
  cbn [fetch_index _orderbys _groupbys]. split.
  - rewrite Hob. reflexivity.
  - rewrite Hg. cbn [_groupbys base_object].
    unfold dx_of, rx_of. rewrite fmap_app.
    rewrite names_of_columns by apply not_elem_of_filter_keys, Hkeys.
    f_equal. apply rollup_name.
Qed.

(** C8 on the request over [events], rolled up by its first dimension,
    with a comparison week over week. *)
Lemma ordering_and_index_witness :
  request_valid events [] events_metrics events_dimensions [] []
    [("wow", "date")] = true
  ∧ references_resolve events_dimensions [("wow", "date")] = true
  ∧ ("" ∉ ["date"; "locale"])
  ∧ ∃ fetch hf o,
      _query_data true events None (Some events_metrics)
        (Some events_dimensions) None None (Some [("wow", "date")])
        (Some ["date"]) empty_heap = Ok (fetch, hf)
      ∧ objects hf !! fetch_query fetch = Some o
      ∧ _orderbys o =
          [Alias "locale" (Field "loc" (Some events));
           Alias "date" (Function "ROUND" [Field "dt" (Some events)])]
      ∧ fetch_index fetch =
          [Aliased "locale";
           Text (Function "ROLLUP"
                   [Alias "date"
                      (Function "ROUND" [Field "dt" (Some events)])])].
Proof.
  assert (Hkeys : "" ∉ ["date"; "locale"])
    by (apply (bool_decide_unpack _); vm_compute; exact I).
  split; [reflexivity|]. split; [reflexivity|]. split; [exact Hkeys|].
  exact (ordering_and_index true events None
           (Some events_metrics) (Some events_dimensions) None None
           (Some [("wow", "date")]) (Some ["date"]) eq_refl eq_refl Hkeys).
Defined.

Lemma join_of_reference_kept metrics dimensions mfilters dfilters rollup
    reference_key field_f rq cx o0 o' :
  extends (comparison_added metrics dimensions reference_key field_f rq cx o0)
          o' →
  {| join_item := SubQuery rq; join_how := inner; join_on := cx |}
  ∈ _joins (finished dimensions mfilters dfilters rollup o').
Proof.
  intros (_ & [js Hj] & _). cbn. rewrite Hj. cbn.
  rewrite !elem_of_app, list_elem_of_singleton. auto.
Qed.

Lemma NoDup_fmap_eq {A B} (f : A → B) (l : list A) x y :
  NoDup (f <$> l) → x ∈ l → y ∈ l → f x = f y → x = y.
Proof.
  induction l as [|z l IH]; cbn; [intros _ Hx; inversion Hx|].
  rewrite NoDup_cons, !elem_of_cons.
  intros [Hz Hnd] [->|Hx] [->|Hy] Hf; auto.
  - exfalso. apply Hz. rewrite Hf. apply list_elem_of_fmap_2, Hy.
  - exfalso. apply Hz. rewrite <- Hf. apply list_elem_of_fmap_2, Hx.
Qed.

Lemma filter_values (P : TermObj → Prop) (Q : string * TermObj → Prop)
    `{∀ d, Decision (P d)} `{∀ kd, Decision (Q kd)} (l : odict TermObj) :
  (∀ kd, kd ∈ l → P kd.2 ↔ Q kd) →
  filter P (l.*2) = (filter Q l).*2.
Proof.
  induction l as [|kd l IH]; intros HPQ; [reflexivity|].
  assert (Hkd : P kd.2 ↔ Q kd) by (apply HPQ; left).
  rewrite fmap_cons, (filter_cons P), (filter_cons Q).
  rewrite IH by (intros kd' Hkd'; apply HPQ; right; exact Hkd').
  repeat case_decide; rewrite ?fmap_cons; try reflexivity; tauto.
Qed.

(** Where no two keys hold the same term object, the dimensions other
    than the compared object are the dimensions under another key. *)
Lemma other_dimensions_by_key (dimensions : odict TermObj) dimension_key
    compared :
  NoDup (dimensions.*1) →
  NoDup (ident <$> dimensions.*2) →
  odict_get dimensions dimension_key = Ok compared →
  filter (λ d, ident d ≠ ident compared) (dimensions.*2)
  = (filter (λ kd, kd.1 ≠ dimension_key) dimensions).*2.
Proof.
  intros Hkeys Hobjs Hget. apply odict_get_elem in Hget.
  apply filter_values. intros [k d] Hkd. cbn.
  rewrite <- list_fmap_compose in Hobjs.
  split; intros Hne Heq; apply Hne.
  - subst k.
    pose proof (NoDup_fmap_eq fst _ _ _ Hkeys Hkd Hget eq_refl) as E.
    injection E as ->. reflexivity.
  - pose proof (NoDup_fmap_eq (ident ∘ snd) _ _ _ Hobjs Hkd Hget Heq) as E.
    injection E as -> _. reflexivity.
Qed.

Lemma columns_of_reference_kept metrics dimensions mfilters dfilters rollup
    reference_key field_f rq cx o0 o' :
  extends (comparison_added metrics dimensions reference_key field_f rq cx o0)
          o' →
  dimension_columns dimensions reference_key rq
  ⊆ _selects (finished dimensions mfilters dfilters rollup o').
Proof.
  intros (_ & _ & [ts Hs] & _) t Ht. cbn. rewrite Hs. cbn.
  rewrite !elem_of_app. auto.
Qed.

(** C2: in the query compiled for a request that passes the checks of
    the query builder, the sub-query of a reference is joined on the
    time-shift criterion of the reference, applied to the expression of
    the compared dimension and the sub-query's field of the dimension
    key, and-composed with one equality for every dimension that is not
    the compared object: of the expression of the dimension with what
    [for_] makes of that expression, which is the expression with its
    fields re-targeted to the sub-query.  That is not the sub-query's
    field of the dimension, which the same query selects as the field of
    the dimension key.  The dimensions that are not the compared object
    are the dimensions under the other keys as soon as no two keys hold
    the same object. *)
Theorem reference_join_criterion (in_place : bool) (table : Table)
    (joins : list (Table * Term * JoinType)) (metrics : odict Term)
    (dimensions : odict TermObj) (mfilters dfilters : list Term)
    (rollup : list string) (earlier later : odict string)
    (reference_key dimension_key : string)
    (criterion_f field_f : Term → Term → Term) (compared : TermObj) :
  request_valid table joins metrics dimensions mfilters dfilters
    (earlier ++ (reference_key, dimension_key) :: later) = true →
  references_resolve dimensions
    (earlier ++ (reference_key, dimension_key) :: later) = true →
  _get_reference_mappers reference_key = Ok (criterion_f, field_f) →
  odict_get dimensions dimension_key = Ok compared →
  ∃ rq qf hf o,
    _build_query in_place table joins metrics dimensions mfilters dfilters
      (earlier ++ (reference_key, dimension_key) :: later) rollup
      empty_heap = Ok (qf, hf)
    ∧ objects hf !! qf = Some o
    ∧ Forall (λ d, for_ (expr d) (SubQuery rq)
                   = Ok (retarget (expr d) (SubQuery rq)))
             (dimensions.*2)
    ∧ {| join_item := SubQuery rq; join_how := inner;
         join_on :=
           and_all
             (criterion_f (expr compared)
                (field (SubQuery rq) dimension_key))
             (map (λ d, BasicCriterion eq (expr d)
                          (retarget (expr d) (SubQuery rq)))
                  (filter (λ d, ident d ≠ ident compared)
                          (dimensions.*2))) |}
      ∈ _joins o
    ∧ (∀ key dimension, (key, dimension) ∈ dimensions →
         as_ (field (SubQuery rq) key) (key +:+ "_" +:+ reference_key)
         ∈ _selects o)
    ∧ (NoDup (dimensions.*1) → NoDup (ident <$> dimensions.*2) →
       filter (λ d, ident d ≠ ident compared) (dimensions.*2)
       = (filter (λ kd, kd.1 ≠ dimension_key) dimensions).*2).
Proof.
  intros Hvalid Hres Hmappers Hget.
  destruct (request_valid_parts _ _ _ _ _ _ _ Hvalid)
    as (Hj & Hm & Hd & Hcmp).
  specialize (Hcmp ltac:(intros E; destruct earlier; discriminate E)).
  destruct (build_query_at_reference False in_place table joins metrics
              dimensions mfilters dfilters rollup (λ H, False_ind _ H)
              Hj Hm Hd earlier (reference_key, dimension_key) later Hres
              Hcmp)
    as (q0 & h0 & o0 & cf & ff & cx & h1 & qf & hf & o'
        & _ & _ & _ & _ & Hmap & _ & Hcx & _ & Hbuild & _ & Hext & Ho).
  cbn [fst snd] in *.
  rewrite Hmappers in Hmap. injection Hmap as <- <-.
  rewrite (build_reference_join_criterion_and_all _ _ _ _ _ Hget
             (comparable_retargetable _ _ Hcmp)) in Hcx.
  injection Hcx as <-.
  eexists (q0 + next h0), qf, hf, _.
  split; [exact Hbuild|]. split; [exact Ho|]. split.
  { apply Forall_forall. intros d Hin. apply for__retargetable.
    pose proof (comparable_retargetable _ _ Hcmp) as Hall.
    rewrite forallb_forall in Hall. apply Hall, list_elem_of_In, Hin. }
  split; [eapply join_of_reference_kept, Hext|]. split.
  - intros key d Hin.
    apply (columns_of_reference_kept _ _ mfilters dfilters rollup
             _ _ _ _ _ _ Hext).
    unfold dimension_columns.
    exact (list_elem_of_fmap_2
             (λ '(key, dimension),
                as_ (field (SubQuery (q0 + next h0)) key)
                    (key +:+ "_" +:+ reference_key)) _ (key, d) Hin).
  - intros Hkeys Hobjs. eapply other_dimensions_by_key; eassumption.
Qed.

(** C2 on the request over [events] compared week over week: the
    sub-query is joined on [events.loc == sub_query.loc], and its locale
    is selected as [sub_query.locale]. *)
Lemma reference_join_criterion_witness :
  request_valid events [] events_metrics events_dimensions [] []
    ([] ++ ("wow", "date") :: []) = true
  ∧ references_resolve events_dimensions ([] ++ ("wow", "date") :: [])
    = true
  ∧ _get_reference_mappers "wow"
    = Ok (λ key join_key,
            BasicCriterion eq key
              (ArithmeticExpression sub join_key (Interval 0 1)),
          λ field join_field, join_field)
  ∧ odict_get events_dimensions "date"
    = Ok {| ident := 1;
            expr := Function "ROUND" [Field "dt" (Some events)] |}
  ∧ ∃ rq qf hf o,
      _build_query true events [] events_metrics events_dimensions [] []
        [("wow", "date")] [] empty_heap = Ok (qf, hf)
      ∧ objects hf !! qf = Some o
      ∧ for_ (Field "loc" (Some events)) (SubQuery rq)
        = Ok (Field "loc" (Some (SubQuery rq)))
      ∧ {| join_item := SubQuery rq; join_how := inner;
           join_on :=
             ComplexCriterion
               (BasicCriterion eq
                  (Function "ROUND" [Field "dt" (Some events)])
                  (ArithmeticExpression sub
                     (Field "date" (Some (SubQuery rq))) (Interval 0 1)))
               (BasicCriterion eq
                  (Field "loc" (Some events))
                  (Field "loc" (Some (SubQuery rq)))) |}
        ∈ _joins o
      ∧ Alias "locale_wow" (Field "locale" (Some (SubQuery rq)))
        ∈ _selects o.
Proof.
  split; [reflexivity|]. split; [reflexivity|].
  split; [reflexivity|]. split; [reflexivity|].
  destruct (reference_join_criterion true events [] events_metrics
              events_dimensions [] [] [] [] [] "wow" "date" _ _ _
              eq_refl eq_refl eq_refl eq_refl)
    as (rq & qf & hf & o & Hbuild & Ho & Hfor & Hjoin & Hselects & _).
  exists rq, qf, hf, o.
  split; [exact Hbuild|]. split; [exact Ho|]. split.
  { exact (Forall_inv (Forall_inv_tail Hfor)). }
  split; [exact Hjoin|].
  apply (Hselects "locale" {| ident := 2;
                              expr := Field "loc" (Some events) |}).
  right. left.
Defined.

(** *** The region of a copy *)






(** ** Requests the documentation excludes *)



(** C6 as the specification states it: a request whose rollup names a key
    that is no dimension key is refused. *)
Definition unknown_rollup_refused : Prop :=
  ∀ in_place table joins metrics dimensions mfilters dfilters references
    rollup key,
    key ∈ or_dict rollup → key ∉ (or_dict dimensions).*1 →
    ∃ e,
      _query_data in_place table joins metrics dimensions mfilters dfilters
        references rollup empty_heap = Raise e.

(** C6 fails on the sample request rolled up by [country], which is no
    dimension of it: it compiles. *)
Lemma unknown_rollup_not_refused : ¬ unknown_rollup_refused.
Proof.
  intros Hclaim.
  destruct (Hclaim true (BaseTable "events") None (Some sample_metrics)
              (Some sample_dimensions) None None None (Some ["country"])
              "country") as [e He].
  - apply list_elem_of_singleton. reflexivity.
  - cbn. rewrite !not_elem_of_cons. repeat split; try discriminate.
    apply not_elem_of_nil.
  - vm_compute in He. discriminate He.
Qed.

Lemma filter_ext_in {A} (P Q : A → Prop)
    `{∀ x, Decision (P x)} `{∀ x, Decision (Q x)} (l : list A) :
  (∀ x, x ∈ l → P x ↔ Q x) → filter P l = filter Q l.
Proof.
  induction l as [|x l IH]; intros HPQ; [reflexivity|].
  assert (Hx : P x ↔ Q x) by (apply HPQ; left).
  rewrite (filter_cons P), (filter_cons Q).
  rewrite IH by (intros y Hy; apply HPQ; right; exact Hy).
  repeat case_decide; try reflexivity; tauto.
Qed.

Lemma filter_rollup_known (dimensions : odict TermObj) (rollup : list string) :
  filter (λ kd : string * TermObj, kd.1 ∈ rollup) dimensions
  = filter (λ kd : string * TermObj,
              kd.1 ∈ filter (λ key, key ∈ dimensions.*1) rollup) dimensions
  ∧ filter (λ kd : string * TermObj, kd.1 ∉ rollup) dimensions
    = filter (λ kd : string * TermObj,
                kd.1 ∉ filter (λ key, key ∈ dimensions.*1) rollup) dimensions.
Proof.
  assert (H : ∀ kd : string * TermObj, kd ∈ dimensions →
              kd.1 ∈ rollup ↔
              kd.1 ∈ filter (λ key, key ∈ dimensions.*1) rollup).
  { intros kd Hkd. rewrite list_elem_of_filter.
    pose proof (list_elem_of_fmap_2 fst _ _ Hkd). tauto. }
  split; apply filter_ext_in; intros kd Hkd; specialize (H kd Hkd); tauto.
Qed.

(** C6, amended: a rollup key that is no dimension key is ignored: the
    request compiles as it does without that key. *)
Theorem unknown_rollup_keys_ignored (in_place : bool) (table : Table)
    (joins : option (list (Table * Term * JoinType)))
    (metrics : option (odict Term)) (dimensions : option (odict TermObj))
    (mfilters dfilters : option (list Term))
    (references : option (odict string)) (rollup : list string) (h : Heap) :
  _query_data in_place table joins metrics dimensions mfilters dfilters
    references (Some rollup) h
  = _query_data in_place table joins metrics dimensions mfilters dfilters
      references
      (Some (filter (λ key, key ∈ (or_dict dimensions).*1) rollup)) h.
Proof.
  destruct (filter_rollup_known (or_dict dimensions) rollup) as [Hin Hout].
  unfold _query_data, _build_query. cbv zeta.
  change (or_dict (Some rollup)) with rollup.
  change (or_dict (Some (filter (λ key, key ∈ (or_dict dimensions).*1)
                                rollup)))
    with (filter (λ key, key ∈ (or_dict dimensions).*1) rollup).
  rewrite <- Hin, <- Hout. reflexivity.
Qed.

(** * Further properties *)

(** ** Splitting and joining *)

Lemma append_nil_l s : EmptyString +:+ s = s.
Proof. reflexivity. Qed.

Lemma append_cons a s t : String a s +:+ t = String a (s +:+ t).
Proof. reflexivity. Qed.

Lemma split_nonempty sep s : split sep s ≠ [].
Proof.
  destruct s as [|a s]; cbn; [discriminate|].
  destruct (Ascii.eqb a sep); [discriminate|].
  destruct (split sep s); discriminate.
Qed.

Lemma split_cons_other sep a s :
  Ascii.eqb a sep = false →
  ∃ piece pieces,
    split sep s = piece :: pieces
    ∧ split sep (String a s) = String a piece :: pieces.
Proof.
  intros Ha. cbn [split]. rewrite Ha.
  destruct (split sep s) as [|piece pieces] eqn:E.
  - destruct (split_nonempty _ _ E).
  - eauto.
Qed.

Lemma split_app sep prefix s :
  contains sep prefix = false →
  split sep (prefix +:+ String sep s) = prefix :: split sep s.
Proof.
  induction prefix as [|a prefix IH]; cbn [contains].
  - intros _. rewrite append_nil_l. cbn [split]. rewrite Ascii.eqb_refl.
    reflexivity.
  - rewrite orb_false_iff. intros [Ha Hp]. rewrite append_cons.
    cbn [split]. rewrite Ha, (IH Hp). reflexivity.
Qed.

Lemma split_without_separator sep s :
  contains sep s = false → split sep s = [s].
Proof.
  induction s as [|a s IH]; cbn [contains]; [reflexivity|].
  rewrite orb_false_iff. intros [Ha Hs]. cbn [split]. rewrite Ha, (IH Hs).
  reflexivity.
Qed.

Lemma split_pieces sep s :
  Forall (λ piece, contains sep piece = false) (split sep s).
Proof.
  induction s as [|a s IH]; cbn [split].
  - repeat constructor.
  - destruct (Ascii.eqb a sep) eqn:Ha.
    + constructor; [reflexivity|exact IH].
    + destruct (split sep s) as [|piece pieces].
      * repeat constructor. cbn [contains]. rewrite Ha. reflexivity.
      * inversion IH; subst. constructor; [|assumption].
        cbn [contains]. rewrite Ha. assumption.
Qed.

Lemma str_join_cons sep piece pieces :
  pieces ≠ [] →
  str_join sep (piece :: pieces) = piece +:+ sep +:+ str_join sep pieces.
Proof. destruct pieces; [congruence|reflexivity]. Qed.

Lemma str_join_split sep s : str_join (String sep EmptyString) (split sep s) = s.
Proof.
  induction s as [|a s IH]; [reflexivity|].
  cbn [split]. destruct (Ascii.eqb a sep) eqn:Ha.
  - apply Ascii.eqb_eq in Ha as ->.
    rewrite str_join_cons by apply split_nonempty. rewrite IH. reflexivity.
  - pose proof (split_nonempty sep s) as Hne.
    destruct (split sep s) as [|piece pieces]; [congruence|].
    destruct pieces as [|piece' pieces].
    + cbn in *. congruence.
    + rewrite str_join_cons by discriminate.
      rewrite str_join_cons in IH by discriminate.
      rewrite append_cons. f_equal. exact IH.
Qed.

(** ** The keys [_get_reference_mappers] accepts *)

Lemma split_two sep prefix modifier :
  contains sep prefix = false → contains sep modifier = false →
  split sep (prefix +:+ String sep EmptyString +:+ modifier)
  = [prefix; modifier].
Proof.
  intros Hp Hm.
  change (prefix +:+ String sep EmptyString +:+ modifier)
    with (prefix +:+ String sep modifier).
  rewrite (split_app _ _ _ Hp), (split_without_separator _ _ Hm).
  reflexivity.
Qed.

Lemma split_three sep prefix modifier rest :
  contains sep prefix = false → contains sep modifier = false →
  split sep (prefix +:+ String sep EmptyString +:+ modifier
             +:+ String sep EmptyString +:+ rest)
  = prefix :: modifier :: split sep rest.
Proof.
  intros Hp Hm.
  change (prefix +:+ String sep EmptyString +:+ modifier
          +:+ String sep EmptyString +:+ rest)
    with (prefix +:+ String sep (modifier +:+ String sep rest)).
  rewrite (split_app _ _ _ Hp), (split_app _ _ _ Hm). reflexivity.
Qed.

(** X2: of a reference key only the first two underscore-separated parts
    are read: a key resolves to the same criterion and field functions
    as its first two parts joined by an underscore. *)
Theorem reference_key_tail_is_ignored (reference_key prefix modifier : string)
    (rest : list string) :
  split "_" reference_key = prefix :: modifier :: rest →
  _get_reference_mappers reference_key
  = _get_reference_mappers (prefix +:+ "_" +:+ modifier).
Proof.
  intros Hsplit. pose proof (split_pieces "_" reference_key) as Hpieces.
  rewrite Hsplit in Hpieces.
  apply Forall_cons in Hpieces as [Hp Hpieces].
  apply Forall_cons in Hpieces as [Hm _].
  unfold _get_reference_mappers.
  rewrite Hsplit, (split_two _ _ _ Hp Hm). reflexivity.
Qed.

(** X2 on a key with four parts. *)
Lemma reference_key_tail_is_ignored_witness :
  split "_" "wow_p_2016_x" = ["wow"; "p"; "2016"; "x"]
  ∧ _get_reference_mappers "wow_p_2016_x" = _get_reference_mappers "wow_p".
Proof.
  split; [reflexivity|].
  exact (reference_key_tail_is_ignored "wow_p_2016_x" "wow" "p"
           ["2016"; "x"] eq_refl).
Defined.

Lemma reference_criterion_keys prefix :
  is_Some (reference_criterion !! prefix)
  ↔ prefix ∈ ["yoy"; "qoq"; "mom"; "wow"].
Proof.
  split.
  - intros [f Hf]. unfold reference_criterion in Hf.
    apply elem_of_list_to_map_2 in Hf.
    apply (list_elem_of_fmap_2 fst) in Hf. exact Hf.
  - rewrite !elem_of_cons, elem_of_nil.
    intros [->|[->|[->|[->|[]]]]]; vm_compute; eauto.
Qed.

Lemma reference_field_keys modifier :
  is_Some (reference_field !! modifier) ↔ modifier ∈ ["d"; "p"].
Proof.
  split.
  - intros [f Hf]. unfold reference_field in Hf.
    apply elem_of_list_to_map_2 in Hf.
    apply (list_elem_of_fmap_2 fst) in Hf. exact Hf.
  - rewrite !elem_of_cons, elem_of_nil.
    intros [->|[->|[]]]; vm_compute; eauto.
Qed.

Lemma mappers_ok reference_key prefix parts :
  split "_" reference_key = prefix :: parts →
  is_ok (_get_reference_mappers reference_key) = true
  ↔ prefix ∈ ["yoy"; "qoq"; "mom"; "wow"]
    ∧ match parts with
      | [] => True
      | modifier :: _ => modifier ∈ ["d"; "p"]
      end.
Proof.
  intros Hsplit. unfold _get_reference_mappers. rewrite Hsplit.
  rewrite <- reference_criterion_keys. unfold getitem.
  destruct (reference_criterion !! prefix) as [cf|].
  2: { split; [discriminate|]. intros [[? [=]] _]. }
  destruct parts as [|modifier rest].
  { split; eauto. }
  rewrite <- reference_field_keys.
  destruct (reference_field !! modifier) as [ff|].
  - split; eauto.
  - split; [discriminate|]. intros [_ [? [=]]].
Qed.

(** X1: [_get_reference_mappers] returns for exactly these keys: one of
    [yoy], [qoq], [mom], [wow]; one of them followed by [_d] or [_p];
    one of those followed by an underscore and anything.  For every other
    key it raises. *)
Theorem accepted_reference_keys (reference_key : string) :
  is_ok (_get_reference_mappers reference_key) = true
  ↔ ∃ prefix,
      prefix ∈ ["yoy"; "qoq"; "mom"; "wow"]
      ∧ (reference_key = prefix
         ∨ ∃ modifier,
             modifier ∈ ["d"; "p"]
             ∧ (reference_key = prefix +:+ "_" +:+ modifier
                ∨ ∃ rest,
                    reference_key
                    = prefix +:+ "_" +:+ modifier +:+ "_" +:+ rest)).
Proof.
  split.
  - destruct (split "_" reference_key) as [|prefix parts] eqn:Hsplit;
      [destruct (split_nonempty _ _ Hsplit)|].
    rewrite (mappers_ok _ _ _ Hsplit). intros [Hp Hm].
    exists prefix. split; [exact Hp|].
    pose proof (str_join_split "_" reference_key) as Hjoin.
    rewrite Hsplit in Hjoin.
    destruct parts as [|modifier rest]; [left; symmetry; exact Hjoin|].
    right. exists modifier. split; [exact Hm|].
    destruct rest as [|piece rest]; [left; symmetry; exact Hjoin|].
    right. exists (str_join "_" (piece :: rest)). symmetry. exact Hjoin.
  - assert (Hprefix : ∀ prefix, prefix ∈ ["yoy"; "qoq"; "mom"; "wow"] →
                        contains "_" prefix = false).
    { intros prefix. rewrite !elem_of_cons, elem_of_nil.
      intros [->|[->|[->|[->|[]]]]]; reflexivity. }
    assert (Hmodifier : ∀ modifier, modifier ∈ ["d"; "p"] →
                          contains "_" modifier = false).
    { intros modifier. rewrite !elem_of_cons, elem_of_nil.
      intros [->|[->|[]]]; reflexivity. }
    intros (prefix & Hp & [->|(modifier & Hm & [->|[rest ->]])]).
    + apply (mappers_ok prefix prefix []); [|auto].
      apply split_without_separator, Hprefix, Hp.
    + apply (mappers_ok _ prefix [modifier]); [|auto].
      apply split_two; auto.
    + apply (mappers_ok _ prefix (modifier :: split "_" rest)); [|auto].
      apply split_three; auto.
Qed.

(** ** The comparisons, exactly *)

(** The outer query [o'] that the comparisons of [references] make of
    [o], the sub-query of each reference being the query object of
    [rqs] at its position. *)
Inductive compared (metrics : odict Term) (dimensions : odict TermObj)
    : odict string → list Loc → QueryBuilder → QueryBuilder → Prop :=
| compared_nil o : compared metrics dimensions [] [] o o
| compared_cons reference references rq rqs criterion_f field_f cx o o' :
    _get_reference_mappers reference.1 = Ok (criterion_f, field_f) →
    _build_reference_join_criterion rq dimensions criterion_f reference.2
      = Ok cx →
    compared metrics dimensions references rqs
      (comparison_added metrics dimensions reference.1 field_f rq cx o) o' →
    compared metrics dimensions (reference :: references) (rq :: rqs) o o'.

Section ExactComparisons.
Variable strict : Prop.
Variable in_place : bool.
Variable metrics : odict Term.
Variable dimensions : odict TermObj.
Hypothesis metrics_closed : strict → all_closed (metrics.*2) = true.
Hypothesis dimensions_closed :
  strict → all_closed (expr <$> dimensions.*2) = true.
Variable tables : list Table.
Hypothesis metrics_known : forallb (known tables) (metrics.*2) = true.

Lemma comparisons_run_exact references q h o :
  references_resolve dimensions references = true →
  (references ≠ [] → comparable tables dimensions = true) →
  tables ⊆ available o →
  Inv strict no_filters q h → objects h !! q = Some o →
  runs strict no_filters
    (for_each references q (add_comparison in_place metrics dimensions))
    q h
    (λ q' h', ∃ o' rqs,
       objects h' !! q' = Some o'
       ∧ compared metrics dimensions references rqs o o'
       ∧ (strict →
          Forall (λ rq, next h ≤ rq < next h' ∧ rq ≠ q') rqs
          ∧ NoDup rqs)).
Proof.
  unfold references_resolve. revert q h o.
  induction references as [|reference references IH];
    intros q h o Hres Hcmpb Hsub HI Ho.
  - apply runs_ret; [exact HI|]. exists o, []. split; [exact Ho|].
    split; [constructor|]. intros _. split; constructor.
  - cbn in Hres. apply andb_true_iff in Hres as [Hr Hres].
    specialize (Hcmpb ltac:(discriminate)).
    destruct (add_comparison_runs strict in_place metrics dimensions
                metrics_closed dimensions_closed tables metrics_known
                reference q h o Hr Hcmpb Hsub HI Ho)
      as (cf & ff & cx & h1 & Hmap & Hcopy & Hcx & HI1 & Hrun).
    cbn [for_each]. eapply runs_bind; [exact Hrun|].
    cbn beta. intros q1 h1' Hadv HI1' [Hadv1 Ho1].
    eapply runs_weaken.
    { apply (IH q1 h1' (comparison_added metrics dimensions reference.1 ff
                          (q + next h) cx o)
               Hres (λ _, Hcmpb)); [|exact HI1'|exact Ho1].
      rewrite available_comparison_added. apply incl_app_l, Hsub. }
    cbn beta. intros q2 h2 Hadv2 _ (o2 & rqs & Ho2 & Hcmp & Hrqs).
    exists o2, (q + next h :: rqs). split; [exact Ho2|].
    split; [econstructor; eassumption|].
    intros Hs. destruct (Hrqs Hs) as [Hall Hsorted].
    pose proof (Inv_lt _ _ _ _ Hs HI) as Hq.
    destruct (deepcopy_Ok q h o Ho) as (h1c & Hcopy' & Hnext).
    rewrite Hcopy in Hcopy'. injection Hcopy' as <-.
    assert (Hrq1 : q + next h < next h1 ∧ q + next h ≠ q) by lia.
    destruct (advances_fresh _ _ _ _ _ Hadv1 (proj1 Hrq1) (proj2 Hrq1))
      as [Hlt1 Hne1].
    destruct (advances_fresh _ _ _ _ _ Hadv2 Hlt1 Hne1) as [Hlt2 Hne2].
    split.
    + constructor; [lia|].
      eapply Forall_impl; [exact Hall|]. cbn.
      destruct Hadv as (Hn & _). intros rq. lia.
    + constructor; [|exact Hsorted].
      intros Hin. rewrite Forall_forall in Hall.
      destruct Hadv1 as (Hn1 & _). specialize (Hall _ Hin). lia.
Qed.
End ExactComparisons.

Section ExactRun.
Variable strict : Prop.
Variable in_place : bool.
Variable table : Table.
Variable joins : list (Table * Term * JoinType).
Variable metrics : odict Term.
Variable dimensions : odict TermObj.
Variable mfilters dfilters : list Term.
Variable rollup : list string.
Hypothesis closed_request :
  strict →
  request_closed table joins metrics dimensions mfilters dfilters = true.
Hypothesis valid_joins : joins_valid [table] joins = true.
Hypothesis metrics_known :
  forallb (known (tables_of table joins)) (metrics.*2) = true.
Hypothesis dimensions_known :
  forallb (known (tables_of table joins)) (expr <$> dimensions.*2) = true.

(** The whole run, with the compiled query in closed form. *)
Lemma build_query_exact references :
  references_resolve dimensions references = true →
  (references ≠ [] → comparable (tables_of table joins) dimensions = true) →
  ∃ qf hf o' rqs,
    _build_query in_place table joins metrics dimensions mfilters dfilters
      references rollup empty_heap = Ok (qf, hf)
    ∧ compared metrics dimensions references rqs
        (base_object table joins metrics dimensions rollup) o'
    ∧ objects hf !! qf
      = Some (finished dimensions mfilters dfilters rollup o')
    ∧ (strict →
       Forall (λ rq, rq < next hf ∧ rq ≠ qf) rqs ∧ NoDup rqs).
Proof.
  intros Hres Hcmpb.
  pose proof (λ Hs, closed_request_parts _ _ _ _ _ _ _ closed_request Hs)
    as Hparts.
  destruct (select_base_runs strict in_place table joins metrics dimensions
              mfilters dfilters rollup closed_request valid_joins
              metrics_known dimensions_known)
    as (q0 & h0 & Hbase & HI0 & Ho0).
  destruct (comparisons_run_exact strict in_place metrics dimensions
              (λ Hs, proj1 (Hparts Hs)) (λ Hs, proj1 (proj2 (Hparts Hs)))
              (tables_of table joins) metrics_known
              references q0 h0 _ Hres Hcmpb
              (λ t Ht, eq_ind_r (λ l, t ∈ l) Ht
                         (available_base_object _ _ _ _ _)) HI0 Ho0)
    as (q1 & h1 & Hrun & _ & HI1 & o1 & rqs & Ho1 & Hcmp & Hrqs).
  destruct (order_and_filter_runs strict in_place table joins metrics
              dimensions mfilters dfilters rollup closed_request q1 h1 o1
              (Inv_weaken _ _ (λ _, True) _ _ (λ _ _, I) HI1) Ho1)
    as (qf & hf & Hfin & Hadv & _ & Hof).
  exists qf, hf, o1, rqs. split; [|split; [exact Hcmp|split; [exact Hof|]]].
  - rewrite build_query_phases. unfold mbind, M_bind.
    rewrite Hbase, Hrun. exact Hfin.
  - intros Hs. destruct (Hrqs Hs) as [Hall Hnd]. split; [|exact Hnd].
    eapply Forall_impl; [exact Hall|]. cbn. intros rq [[_ Hlt] Hne].
    exact (advances_fresh _ _ _ _ _ Hadv Hlt Hne).
Qed.
End ExactRun.











(** ** A request without metrics *)



(** ** The columns handed to the database *)

(** The request over [events] with two references. *)
Definition events_references : odict string :=
  [("wow", "date"); ("yoy_p", "date")].



(** The request over [events] joined with the table [users]. *)
Definition users : Table := BaseTable "users".

Definition events_joins : list (Table * Term * JoinType) :=
  [(users,
    BasicCriterion eq (Field "user" (Some events)) (Field "id" (Some users)),
    left_join)].





(** X5: a request without references that passes the checks of the
    query builder compiles to one query object: it is taken from the
    table, joins what the request joins, in order, selects the non-rollup
    dimension columns, the rollup dimension columns and the metric
    columns, groups by the first and, when there are rollup dimension
    columns, by one [ROLLUP] term of them, is ordered by both, and
    carries the dimension filters and-composed in [where] and the metric
    filters and-composed in [having]. *)
Theorem query_without_references (in_place : bool) (table : Table)
    (joins : list (Table * Term * JoinType)) (metrics : odict Term)
    (dimensions : odict TermObj) (mfilters dfilters : list Term)
    (rollup : list string) :
  request_valid table joins metrics dimensions mfilters dfilters [] = true →
  ∃ qf hf,
    _build_query in_place table joins metrics dimensions mfilters dfilters
      [] rollup empty_heap = Ok (qf, hf)
    ∧ objects hf !! qf =
        Some {| _from := table;
                _joins :=
                  (λ '(join_table, criterion, join_type),
                     {| join_item := join_table; join_how := join_type;
                        join_on := criterion |}) <$> joins;
                _selects :=
                  dx_of dimensions rollup ++ rx_of dimensions rollup
                  ++ mx_of metrics;
                _groupbys :=
                  dx_of dimensions rollup
                  ++ match rx_of dimensions rollup with
                     | [] => []
                     | _ => [Function "ROLLUP" (rx_of dimensions rollup)]
                     end;
                _orderbys :=
                  dx_of dimensions rollup ++ rx_of dimensions rollup;
                _wheres := foldl and_onto None dfilters;
                _havings := foldl and_onto None mfilters |}.
Proof.
  intros Hvalid.
  destruct (request_valid_parts _ _ _ _ _ _ _ Hvalid)
    as (Hj & Hm & Hd & Hcmpb).
  destruct (build_query_exact False in_place table joins metrics dimensions
              mfilters dfilters rollup (λ H, False_ind _ H) Hj Hm Hd
              [] eq_refl Hcmpb)
    as (qf & hf & o' & rqs & Hbuild & Hcmp & Ho & _).
  exists qf, hf. split; [exact Hbuild|]. rewrite Ho.
  inversion Hcmp; subst. unfold finished, base_object. cbn.
  do 2 f_equal. apply list_fmap_ext.
  intros i [[join_table criterion] join_type] _. reflexivity.
Qed.

(** X5 on the request over [events] joined with [users], filtered and
    rolled up by its first dimension. *)
Lemma query_without_references_witness :
  request_valid events events_joins events_metrics events_dimensions
    events_mfilters events_dfilters [] = true
  ∧ ∃ qf hf,
      _build_query true events events_joins events_metrics
        events_dimensions events_mfilters events_dfilters [] ["date"]
        empty_heap = Ok (qf, hf)
      ∧ objects hf !! qf =
          Some {| _from := events;
                  _joins :=
                    [{| join_item := users; join_how := left_join;
                        join_on :=
                          BasicCriterion eq (Field "user" (Some events))
                            (Field "id" (Some users)) |}];
                  _selects :=
                    [Alias "locale" (Field "loc" (Some events));
                     Alias "date"
                       (Function "ROUND" [Field "dt" (Some events)]);
                     Alias "clicks"
                       (Function "SUM" [Field "clicks" (Some events)])];
                  _groupbys :=
                    [Alias "locale" (Field "loc" (Some events));
                     Function "ROLLUP"
                       [Alias "date"
                          (Function "ROUND" [Field "dt" (Some events)])]];
                  _orderbys :=
                    [Alias "locale" (Field "loc" (Some events));
                     Alias "date"
                       (Function "ROUND" [Field "dt" (Some events)])];
                  _wheres :=
                    Some (BasicCriterion eq (Field "loc" (Some events))
                                         (ValueWrapper 1));
                  _havings :=
                    Some (BasicCriterion gt
                            (Function "SUM" [Field "clicks" (Some events)])
                            (ValueWrapper 10)) |}.
Proof.
  split; [reflexivity|].
  exact (query_without_references true events events_joins events_metrics
           events_dimensions events_mfilters events_dfilters ["date"]
           eq_refl).
Defined.

(** ** Requests that do not compile *)











(** ** The rollup *)

Lemma filter_rollup_same (dimensions : odict TermObj)
    (rollup rollup' : list string) :
  (∀ key, key ∈ dimensions.*1 → key ∈ rollup ↔ key ∈ rollup') →
  filter (λ kd : string * TermObj, kd.1 ∈ rollup) dimensions
  = filter (λ kd : string * TermObj, kd.1 ∈ rollup') dimensions
  ∧ filter (λ kd : string * TermObj, kd.1 ∉ rollup) dimensions
    = filter (λ kd : string * TermObj, kd.1 ∉ rollup') dimensions.
Proof.
  intros Hsame.
  assert (H : ∀ kd : string * TermObj, kd ∈ dimensions →
              kd.1 ∈ rollup ↔ kd.1 ∈ rollup').
  { intros kd Hkd. apply Hsame, list_elem_of_fmap_2, Hkd. }
  split; apply filter_ext_in; intros kd Hkd; specialize (H kd Hkd); tauto.
Qed.

(** X9: two rollup lists that hold the same dimension keys of the
    request give the same result: the order of the rollup keys, repeated
    keys and keys that are no dimension make no difference. *)
Theorem rollup_read_by_membership (in_place : bool) (table : Table)
    (joins : option (list (Table * Term * JoinType)))
    (metrics : option (odict Term)) (dimensions : option (odict TermObj))
    (mfilters dfilters : option (list Term))
    (references : option (odict string)) (rollup rollup' : list string)
    (h : Heap) :
  (∀ key, key ∈ (or_dict dimensions).*1 → key ∈ rollup ↔ key ∈ rollup') →
  _query_data in_place table joins metrics dimensions mfilters dfilters
    references (Some rollup) h
  = _query_data in_place table joins metrics dimensions mfilters dfilters
      references (Some rollup') h.
Proof.
  intros Hsame.
  destruct (filter_rollup_same (or_dict dimensions) rollup rollup' Hsame)
    as [Hin Hout].
  unfold _query_data, _build_query. cbv zeta.
  change (or_dict (Some rollup)) with rollup.
  change (or_dict (Some rollup')) with rollup'.
  rewrite Hin, Hout. reflexivity.
Qed.

(** X9 on the request over [events] with its two references, which
    compiles. *)
Lemma rollup_read_by_membership_witness :
  (∀ key, key ∈ (or_dict (Some events_dimensions)).*1 →
          key ∈ ["locale"; "date"] ↔
          key ∈ ["date"; "country"; "locale"; "date"])
  ∧ _query_data true events None (Some events_metrics)
      (Some events_dimensions) None None (Some events_references)
      (Some ["locale"; "date"]) empty_heap
    = _query_data true events None (Some events_metrics)
        (Some events_dimensions) None None (Some events_references)
        (Some ["date"; "country"; "locale"; "date"]) empty_heap
  ∧ is_ok (_query_data true events None (Some events_metrics)
             (Some events_dimensions) None None (Some events_references)
             (Some ["locale"; "date"]) empty_heap) = true.
Proof.
  assert (H : ∀ key, key ∈ (or_dict (Some events_dimensions)).*1 →
                key ∈ ["locale"; "date"] ↔
                key ∈ ["date"; "country"; "locale"; "date"]).
  { intros key. cbn. rewrite !elem_of_cons, !elem_of_nil.
    intros [->|[->|[]]]; split; intros _; auto. }
  split; [exact H|]. split; [|vm_compute; reflexivity].
  exact (rollup_read_by_membership true events None
           (Some events_metrics) (Some events_dimensions) None None
           (Some events_references) ["locale"; "date"]
           ["date"; "country"; "locale"; "date"] empty_heap H).
Defined.




(** ** Sub-queries within sub-queries *)

Section BeforeReference.
Variable strict : Prop.
Variable in_place : bool.
Variable table : Table.
Variable joins : list (Table * Term * JoinType).
Variable metrics : odict Term.
Variable dimensions : odict TermObj.
Variable mfilters dfilters : list Term.
Variable rollup : list string.
Hypothesis closed_request :
  strict →
  request_closed table joins metrics dimensions mfilters dfilters = true.
Hypothesis valid_joins : joins_valid [table] joins = true.
Hypothesis metrics_known :
  forallb (known (tables_of table joins)) (metrics.*2) = true.
Hypothesis dimensions_known :
  forallb (known (tables_of table joins)) (expr <$> dimensions.*2) = true.

End BeforeReference.




(** ** The rows a join criterion matches *)

Lemma holds_equality engine row l r :
  holds engine row (BasicCriterion eq l r) = Some true
  ↔ ∃ x y, eval engine row l = Val x ∧ eval engine row r = Val y
           ∧ (x == y)%Q.
Proof.
  cbn [holds].
  destruct (eval engine row l) as [x| |]; cycle 1.
  { split; [discriminate|]. intros (? & ? & [=] & _). }
  { split; [discriminate|]. intros (? & ? & [=] & _). }
  destruct (eval engine row r) as [y| |]; cycle 1.
  { split; [discriminate|]. intros (? & ? & _ & [=] & _). }
  { split; [discriminate|]. intros (? & ? & _ & [=] & _). }
  cbn [compare]. split.
  - intros [= H]. apply Qeq_bool_iff in H. eauto.
  - intros (x' & y' & [= <-] & [= <-] & H).
    apply Qeq_bool_iff in H. rewrite H. reflexivity.
Qed.

(** X17: where every dimension has the method [for_], the join
    criterion of a reference holds on a pair of rows exactly when its
    time-shift criterion holds and every dimension that is not the
    compared object has a value in the outer row, what [for_] makes of it
    for the sub-query has a value in the sub-query's row, and the two are
    equal. *)
Theorem join_criterion_matches_rows (engine : Engine) (row : Term → Q)
    (query : Loc) (dimensions : odict TermObj)
    (criterion_f : Term → Term → Term) (dimension_key : string)
    (compared : TermObj) :
  odict_get dimensions dimension_key = Ok compared →
  forallb (λ d, retargetable (expr d)) (dimensions.*2) = true →
  ∃ cx,
    _build_reference_join_criterion query dimensions criterion_f
      dimension_key = Ok cx
    ∧ (holds engine row cx = Some true
       ↔ holds engine row
           (criterion_f (expr compared)
              (field (SubQuery query) dimension_key)) = Some true
         ∧ ∀ dimension,
             dimension ∈ dimensions.*2 →
             ident dimension ≠ ident compared →
             ∃ joined x y,
               for_ (expr dimension) (SubQuery query) = Ok joined
               ∧ eval engine row (expr dimension) = Val x
               ∧ eval engine row joined = Val y
               ∧ (x == y)%Q).
Proof.
  intros Hget Hfor. eexists.
  split; [exact (build_reference_join_criterion_and_all _ _ _ _ _ Hget
                   Hfor)|].
  rewrite holds_and_all, Forall_fmap, Forall_forall.
  assert (Hjoined : ∀ d, d ∈ dimensions.*2 →
            for_ (expr d) (SubQuery query)
            = Ok (retarget (expr d) (SubQuery query))).
  { intros d Hd. apply for__retargetable.
    rewrite forallb_forall in Hfor. apply Hfor, list_elem_of_In, Hd. }
  split; intros [Hc Hds]; (split; [exact Hc|]).
  - intros d Hd Hne.
    assert (Hin : d ∈ filter (λ d, ident d ≠ ident compared) (dimensions.*2))
      by (apply list_elem_of_filter; auto).
    apply Hds, holds_equality in Hin as (x & y & Hx & Hy & Hxy).
    exists (retarget (expr d) (SubQuery query)), x, y. auto.
  - intros d Hd. apply list_elem_of_filter in Hd as [Hne Hd].
    destruct (Hds d Hd Hne) as (joined & x & y & Hj & Hx & Hy & Hxy).
    rewrite (Hjoined d Hd) in Hj. injection Hj as <-.
    apply holds_equality. eauto.
Qed.

(** An outer row of day 8 in the locale 3, and a row of the sub-query
    of day 15 in the locale 3. *)
Definition a_week_apart (term : Term) : Q :=
  match term with
  | Field "date" (Some (SubQuery _)) => 15
  | Function "ROUND" _ => 8
  | _ => 3
  end.

(** X17 on the dimensions of the request over [events] compared week
    over week, on rows a week apart in the same locale: the criterion
    holds. *)
Lemma join_criterion_matches_rows_witness :
  odict_get events_dimensions "date"
  = Ok {| ident := 1;
          expr := Function "ROUND" [Field "dt" (Some events)] |}
  ∧ forallb (λ d, retargetable (expr d)) (events_dimensions.*2) = true
  ∧ ∃ cx,
      _build_reference_join_criterion 7 events_dimensions
        (λ key join_key,
           BasicCriterion eq key
             (ArithmeticExpression sub join_key (Interval 0 1)))
        "date" = Ok cx
      ∧ holds strict_engine a_week_apart
          (BasicCriterion eq (Function "ROUND" [Field "dt" (Some events)])
             (ArithmeticExpression sub
                (Field "date" (Some (SubQuery 7))) (Interval 0 1)))
        = Some true
      ∧ for_ (Field "loc" (Some events)) (SubQuery 7)
        = Ok (Field "loc" (Some (SubQuery 7)))
      ∧ eval strict_engine a_week_apart (Field "loc" (Some events)) = Val 3
      ∧ eval strict_engine a_week_apart (Field "loc" (Some (SubQuery 7)))
        = Val 3
      ∧ holds strict_engine a_week_apart cx = Some true.
Proof.
  split; [reflexivity|]. split; [reflexivity|].
  destruct (join_criterion_matches_rows strict_engine a_week_apart 7
              events_dimensions
              (λ key join_key,
                 BasicCriterion eq key
                   (ArithmeticExpression sub join_key (Interval 0 1)))
              "date" _ eq_refl eq_refl) as (cx & Hcx & Hholds).
  exists cx. split; [exact Hcx|].
  split; [reflexivity|]. split; [reflexivity|].
  split; [reflexivity|]. split; [reflexivity|].
  apply Hholds. split; [reflexivity|].
  intros dimension Hin Hne.
  apply elem_of_cons in Hin as [->|Hin]; [destruct (Hne eq_refl)|].
  apply list_elem_of_singleton in Hin as ->.
  exists (Field "loc" (Some (SubQuery 7))), 3%Q, 3%Q.
  repeat split; reflexivity.
Defined.

(** ** Column names of a unique dimension *)

Lemma str_of_nat_inj i j : str_of_nat i = str_of_nat j → i = j.
Proof.
  unfold str_of_nat. intros H. apply DecimalNat.Unsigned.to_uint_inj.
  pose proof (DecimalString.NilEmpty.usu (Nat.to_uint i)) as Hi.
  rewrite H, DecimalString.NilEmpty.usu in Hi. congruence.
Qed.

(** X11: the columns a unique dimension expands to, one more than it has
    id fields, have names that are all different, whatever its key. *)
Theorem unique_dimension_columns_are_distinct (self : Schemas.UniqueDimension)
    (fields : list Term) :
  Schemas.id_fields self = Some fields →
  ∃ columns,
    Schemas.schemas self = Some columns
    ∧ length columns = S (length fields)
    ∧ NoDup columns.*1.
Proof.
  intros Hfields. unfold Schemas.schemas. rewrite Hfields.
  eexists. split; [reflexivity|]. split.
  { rewrite length_app, length_map, enumerate_length. cbn. lia. }
  rewrite fmap_app. cbn [fmap list_fmap].
  set (names := (map _ (enumerate fields)).*1).
  assert (Hnames : ∀ i name, names !! i = Some name →
                     name = Schemas.key self +:+ "_id" +:+ str_of_nat i).
  { intros i name. unfold names.
    rewrite !list_lookup_fmap. unfold enumerate.
    rewrite list_lookup_imap.
    destruct (fields !! i) as [f|]; [|discriminate].
    cbn. intros [= <-]. reflexivity. }
  apply NoDup_app. split; [|split].
  - apply NoDup_alt. intros i j name Hi Hj.
    apply Hnames in Hi, Hj. rewrite Hi in Hj.
    apply (inj (String.append _)) in Hj.
    apply (inj (String.append "_id")) in Hj.
    apply str_of_nat_inj, Hj.
  - intros name Hin Hlabel. apply list_elem_of_singleton in Hlabel.
    apply list_elem_of_lookup in Hin as [i Hi].
    apply Hnames in Hi. rewrite Hi in Hlabel.
    apply (inj (String.append _)) in Hlabel. discriminate Hlabel.
  - apply NoDup_singleton.
Qed.

(** X11 on a dimension with two id fields. *)
Lemma unique_dimension_columns_are_distinct_witness :
  ∃ columns,
    Schemas.schemas
      (Schemas.UniqueDimension__init__ "account" (Some (Field "name" None))
         (Some [Field "id" None; Field "region" None]))
    = Some columns
    ∧ length columns = 3
    ∧ NoDup columns.*1.
Proof.
  exact (unique_dimension_columns_are_distinct
           (Schemas.UniqueDimension__init__ "account"
              (Some (Field "name" None))
              (Some [Field "id" None; Field "region" None]))
           [Field "id" None; Field "region" None] eq_refl).
Defined.

(** ** The label of an element *)

Lemma str_join_split_replace old new s :
  str_join (String new EmptyString) (split old s) = replace_char old new s.
Proof.
  induction s as [|a s IH]; [reflexivity|].
  cbn [split replace_char]. destruct (Ascii.eqb a old) eqn:Ha.
  - rewrite str_join_cons by apply split_nonempty. rewrite IH. reflexivity.
  - pose proof (split_nonempty old s) as Hne.
    destruct (split old s) as [|piece pieces]; [congruence|].
    destruct pieces as [|piece' pieces].
    + cbn in *. congruence.
    + rewrite str_join_cons by discriminate.
      rewrite str_join_cons in IH by discriminate.
      rewrite append_cons. f_equal. exact IH.
Qed.

Lemma length_replace_char old new s :
  String.length (replace_char old new s) = String.length s.
Proof. induction s as [|a s IH]; cbn; [reflexivity|]. rewrite IH. reflexivity. Qed.

Lemma contains_replace_char old new s :
  old ≠ new → contains old (replace_char old new s) = false.
Proof.
  intros Hne. induction s as [|a s IH]; [reflexivity|].
  cbn [replace_char contains]. rewrite IH, orb_false_r.
  destruct (Ascii.eqb a old) eqn:Ha; [|exact Ha].
  apply Ascii.eqb_neq. congruence.
Qed.

Lemma length_lower s : String.length (lower s) = String.length s.
Proof. induction s as [|a s IH]; cbn; [reflexivity|]. rewrite IH. reflexivity. Qed.

Lemma length_capitalize s : String.length (capitalize s) = String.length s.
Proof. destruct s; cbn; [reflexivity|]. rewrite length_lower. reflexivity. Qed.

(** X12: an element given a label that is not empty keeps it; given none,
    or the empty one, its label is its key capitalized with every
    underscore turned into a space: it is as long as the key and has no
    underscore.  A metric and a dimension are labelled as any element;
    they keep a definition they are given, and without one a metric is
    the sum of the field of its key and a dimension that field itself.
    Capitalizing is modelled on ASCII keys. *)
Theorem element_defaults {Joins : Type} (key : string)
    (label : option string) (definition : option Term)
    (joins : option Joins) :
  isascii key = true →
  Elements.label (Elements.Metric__init__ key label definition joins)
    = Elements.label
        (Elements.SlicerElement__init__ key label definition joins)
  ∧ Elements.label (Elements.Dimension__init__ key label definition joins)
    = Elements.label
        (Elements.SlicerElement__init__ key label definition joins)
  ∧ (∀ l, label = Some l → l ≠ "" →
       Elements.label
         (Elements.SlicerElement__init__ key label definition joins) = l)
  ∧ (label = None ∨ label = Some "" →
     Elements.label
       (Elements.SlicerElement__init__ key label definition joins)
     = replace_char "_" " " (capitalize key)
     ∧ String.length
         (Elements.label
            (Elements.SlicerElement__init__ key label definition joins))
       = String.length key
     ∧ contains "_"
         (Elements.label
            (Elements.SlicerElement__init__ key label definition joins))
       = false)
  ∧ Elements.definition (Elements.Metric__init__ key label definition joins)
    = Some (default (Function "SUM" [Field key None]) definition)
  ∧ Elements.definition
      (Elements.Dimension__init__ key label definition joins)
    = Some (default (Field key None) definition).
Proof.
  intros _. split; [reflexivity|]. split; [reflexivity|].
  split; [|split; [|split; [reflexivity|destruct definition; reflexivity]]].
  - intros l -> Hl. destruct l; [congruence|reflexivity].
  - intros Hlabel.
    assert (E : Elements.label
                  (Elements.SlicerElement__init__ key label definition joins)
                = replace_char "_" " " (capitalize key)).
    { cbn. rewrite str_join_split_replace.
      destruct Hlabel as [->| ->]; reflexivity. }
    rewrite E. split; [reflexivity|]. split.
    + rewrite length_replace_char. apply length_capitalize.
    + apply contains_replace_char. discriminate.
Qed.

(** X12 on the key [click_RATE]. *)
Lemma element_defaults_witness :
  isascii "click_RATE" = true
  ∧ Elements.label (@Elements.SlicerElement__init__ unit "click_RATE" None
                      None None) = "Click rate".
Proof.
  split; [reflexivity|].
  exact (proj1 (proj1 (proj2 (proj2 (proj2 (element_defaults (Joins := unit)
                  "click_RATE" None None None eq_refl))))
                  (or_introl eq_refl))).
Defined.

(** ** The dicts of a slicer *)

Lemma by_key_snoc {Element} (key : Element → string)
    (elements : list Element) (element : Element) :
  Elements.by_key key (elements ++ [element])
  = <[key element := element]> (Elements.by_key key elements).
Proof. unfold Elements.by_key. rewrite foldl_app. reflexivity. Qed.

Lemma by_key_lookup {Element} (key : Element → string)
    (elements : list Element) (k : string) :
  Elements.by_key key elements !! k
  = last (filter (λ element, key element = k) elements).
Proof.
  induction elements as [|element elements IH] using rev_ind;
    [reflexivity|].
  rewrite by_key_snoc, filter_app, lookup_insert.
  rewrite filter_cons, filter_nil.
  case_decide as Hk.
  - rewrite last_snoc. reflexivity.
  - rewrite app_nil_r. exact IH.
Qed.

(** X13: under a key a slicer holds the last metric given with that key,
    and the last dimension: an earlier element of the same key is
    dropped without an error.  It has a key exactly when an element is
    given with it. *)
Theorem slicer_keeps_the_last_of_a_key {Joins Metric Dimension : Type}
    (metric_key : Metric → string) (dimension_key : Dimension → string)
    (table : Table) (joins : Joins) (metrics : list Metric)
    (dimensions : list Dimension) (k : string) :
  Elements.slicer_metrics
    (Elements.Slicer__init__ metric_key dimension_key table joins metrics
       dimensions) !! k
    = last (filter (λ metric, metric_key metric = k) metrics)
  ∧ Elements.slicer_dimensions
      (Elements.Slicer__init__ metric_key dimension_key table joins metrics
         dimensions) !! k
    = last (filter (λ dimension, dimension_key dimension = k) dimensions)
  ∧ (k ∈ metric_key <$> metrics
     ↔ is_Some (Elements.slicer_metrics
                  (Elements.Slicer__init__ metric_key dimension_key table
                     joins metrics dimensions) !! k))
  ∧ (k ∈ dimension_key <$> dimensions
     ↔ is_Some (Elements.slicer_dimensions
                  (Elements.Slicer__init__ metric_key dimension_key table
                     joins metrics dimensions) !! k)).
Proof.
  assert (Hdom : ∀ Element (key : Element → string) elements,
            k ∈ key <$> elements
            ↔ is_Some (last (filter (λ element, key element = k) elements))).
  { intros Element key elements. rewrite list_elem_of_fmap.
    split.
    - intros (element & -> & Hin).
      assert (Hf : element ∈ filter (λ e, key e = key element) elements)
        by (apply list_elem_of_filter; auto).
      destruct (filter _ elements) as [|x l] using rev_ind.
      + apply elem_of_nil in Hf as [].
      + rewrite last_snoc. eauto.
    - intros [element Hlast]. apply last_Some in Hlast as [l Hl].
      assert (Hf : element ∈ filter (λ e, key e = k) elements)
        by (rewrite Hl, elem_of_app, list_elem_of_singleton; auto).
      apply list_elem_of_filter in Hf as [Hk Hin]. eauto. }
  cbn. rewrite !by_key_lookup. repeat split; apply Hdom.
Qed.

Lemma by_key_distinct {Element} (key : Element → string)
    (elements : list Element) :
  NoDup (key <$> elements) →
  (∀ element, element ∈ elements →
     Elements.by_key key elements !! key element = Some element)
  ∧ size (Elements.by_key key elements) = length elements.
Proof.
  induction elements as [|element elements IH] using rev_ind.
  - intros _. split; [intros ? []%elem_of_nil|reflexivity].
  - rewrite fmap_app, NoDup_app. cbn. intros (Hnd & Hfresh & _).
    destruct (IH Hnd) as [Hget Hsize].
    assert (Hnone : Elements.by_key key elements !! key element = None).
    { rewrite by_key_lookup.
      destruct (last _) as [e|] eqn:Hlast; [|reflexivity].
      apply last_Some in Hlast as [l Hl].
      assert (Hf : e ∈ filter (λ e', key e' = key element) elements)
        by (rewrite Hl, elem_of_app, list_elem_of_singleton; auto).
      apply list_elem_of_filter in Hf as [Hk Hin].
      destruct (Hfresh (key element)).
      + rewrite <- Hk. apply list_elem_of_fmap_2, Hin.
      + apply list_elem_of_singleton. reflexivity. }
    rewrite by_key_snoc. split.
    + intros e. rewrite elem_of_app, list_elem_of_singleton.
      intros [Hin| ->]; [|apply lookup_insert_eq].
      rewrite lookup_insert_ne; [apply Hget, Hin|].
      intros Hk. rewrite Hk, (Hget _ Hin) in Hnone. discriminate.
    + rewrite map_size_insert_None by exact Hnone.
      rewrite Hsize, length_app. cbn. lia.
Qed.

(** X14: a slicer given metrics of different keys and dimensions of
    different keys holds every one of them under its key, and as many
    entries as it is given elements. *)
Theorem slicer_holds_elements_of_distinct_keys
    {Joins Metric Dimension : Type}
    (metric_key : Metric → string) (dimension_key : Dimension → string)
    (table : Table) (joins : Joins) (metrics : list Metric)
    (dimensions : list Dimension) :
  NoDup (metric_key <$> metrics) →
  NoDup (dimension_key <$> dimensions) →
  (∀ metric, metric ∈ metrics →
     Elements.slicer_metrics
       (Elements.Slicer__init__ metric_key dimension_key table joins metrics
          dimensions) !! metric_key metric = Some metric)
  ∧ (∀ dimension, dimension ∈ dimensions →
       Elements.slicer_dimensions
         (Elements.Slicer__init__ metric_key dimension_key table joins
            metrics dimensions) !! dimension_key dimension
       = Some dimension)
  ∧ size (Elements.slicer_metrics
            (Elements.Slicer__init__ metric_key dimension_key table joins
               metrics dimensions)) = length metrics
  ∧ size (Elements.slicer_dimensions
            (Elements.Slicer__init__ metric_key dimension_key table joins
               metrics dimensions)) = length dimensions.
Proof.
  intros Hm Hd. cbn.
  destruct (by_key_distinct metric_key metrics Hm) as [? ?].
  destruct (by_key_distinct dimension_key dimensions Hd) as [? ?]. auto.
Qed.

(** X14 on the sample metrics and dimensions, keyed by their names. *)
Lemma slicer_holds_elements_of_distinct_keys_witness :
  NoDup ((λ m : string * Term, m.1) <$> sample_metrics)
  ∧ NoDup ((λ d : string * TermObj, d.1) <$> sample_dimensions)
  ∧ size (Elements.slicer_dimensions
            (Elements.Slicer__init__ (λ m : string * Term, m.1)
               (λ d : string * TermObj, d.1) (BaseTable "events") ()
               sample_metrics sample_dimensions)) = 2.
Proof.
  assert (Hm : NoDup ((λ m : string * Term, m.1) <$> sample_metrics))
    by (apply (bool_decide_unpack _); vm_compute; exact I).
  assert (Hd : NoDup ((λ d : string * TermObj, d.1) <$> sample_dimensions))
    by (apply (bool_decide_unpack _); vm_compute; exact I).
  split; [exact Hm|]. split; [exact Hd|].
  exact (proj2 (proj2 (proj2
           (slicer_holds_elements_of_distinct_keys (λ m : string * Term, m.1)
              (λ d : string * TermObj, d.1) (BaseTable "events") ()
              sample_metrics sample_dimensions Hm Hd)))).
Defined.

(** ** Numeric intervals *)

Lemma str_of_Z_inj x y : str_of_Z x = str_of_Z y → x = y.
Proof.
  unfold str_of_Z. intros H. apply DecimalZ.to_int_inj.
  pose proof (DecimalString.NilEmpty.isi (Z.to_int x)) as Hx.
  rewrite H, DecimalString.NilEmpty.isi in Hx. congruence.
Qed.

Lemma str_of_Z_chars c z :
  contains c "-0123456789" = false → contains c (str_of_Z z) = false.
Proof.
  intros Hc. cbn [contains] in Hc. rewrite !orb_false_iff in Hc.
  destruct Hc as (Hm & H0 & H1 & H2 & H3 & H4 & H5 & H6 & H7 & H8 & H9 & _).
  assert (Hu : ∀ d, contains c (DecimalString.NilEmpty.string_of_uint d)
                    = false).
  { induction d as [|d IH|d IH|d IH|d IH|d IH|d IH|d IH|d IH|d IH|d IH];
      cbn [DecimalString.NilEmpty.string_of_uint contains];
      [reflexivity|rewrite IH, orb_false_r; assumption..]. }
  unfold str_of_Z. destruct (Z.to_int z) as [d|d];
    cbn [DecimalString.NilEmpty.string_of_int contains].
  - apply Hu.
  - rewrite Hu, orb_false_r. exact Hm.
Qed.

Lemma append_separated sep a b a' b' :
  contains sep a = false → contains sep a' = false →
  a +:+ String sep b = a' +:+ String sep b' → a = a' ∧ b = b'.
Proof.
  intros Ha Ha' H.
  assert (Hs : split sep (a +:+ String sep b)
               = split sep (a' +:+ String sep b')) by (rewrite H; reflexivity).
  rewrite (split_app _ _ _ Ha), (split_app _ _ _ Ha') in Hs.
  injection Hs as <- _. split; [reflexivity|].
  apply (inj (String.append a)) in H. congruence.
Qed.

(** X15: two numeric intervals are equal exactly when they have the same
    size and offset; equal intervals have the same hash; the text that is
    hashed and the text of [str] are the same only for equal intervals;
    and a numeric interval equals no object of another class. *)
Theorem numeric_interval_equality (a b : Elements.NumericInterval)
    (hash : string → Z) :
  (Elements.NumericInterval__eq__ a (Elements.ONumeric b) = true ↔ a = b)
  ∧ (Elements.NumericInterval__eq__ a (Elements.ONumeric b) = true →
     Elements.NumericInterval__hash__ hash a
     = Elements.NumericInterval__hash__ hash b)
  ∧ (Elements.NumericInterval_hashed a = Elements.NumericInterval_hashed b
     ↔ a = b)
  ∧ (Elements.NumericInterval__str__ a = Elements.NumericInterval__str__ b
     ↔ a = b)
  ∧ (∀ other, Elements.NumericInterval__eq__ a (Elements.ODatetime other)
              = false)
  ∧ Elements.NumericInterval__eq__ a Elements.OOther = false.
Proof.
  assert (Heq : Elements.NumericInterval__eq__ a (Elements.ONumeric b) = true
                ↔ a = b).
  { unfold Elements.NumericInterval__eq__.
    rewrite andb_true_iff, !bool_decide_eq_true.
    destruct a, b; cbn. split; [intros [-> ->]; reflexivity|].
    intros [= -> ->]. auto. }
  split; [exact Heq|]. split.
  { rewrite Heq. intros ->. reflexivity. }
  split; [|split; [|split; [reflexivity|reflexivity]]].
  - split; [|intros ->; reflexivity].
    unfold Elements.NumericInterval_hashed. intros H.
    apply (inj (String.append "NumericInterval ")) in H.
    apply (append_separated " ") in H as [Hs Ho];
      [|apply str_of_Z_chars; reflexivity..].
    apply str_of_Z_inj in Hs, Ho. destruct a, b; cbn in *. congruence.
  - split; [|intros ->; reflexivity].
    unfold Elements.NumericInterval__str__. intros H.
    apply (inj (String.append "NumericInterval(size=")) in H.
    apply (append_separated ",") in H as [Hs H];
      [|apply str_of_Z_chars; reflexivity..].
    apply (inj (String.append "offset=")) in H.
    apply (append_separated ")") in H as [Ho _];
      [|apply str_of_Z_chars; reflexivity..].
    apply str_of_Z_inj in Hs, Ho. destruct a, b; cbn in *. congruence.
Qed.
